(** * PostOffice: a shallow embedding of [turtle_sent.py] and [turtle_sent_two.py]

    Both files define a class [PostOffice] that keeps one inbox (a Python
    list) per user name in the dict [boxes] and numbers the messages with the
    counter [message_id].  [turtle_sent.py] stores every message as a dict with
    the keys ['id'], ['body'], ['sender'], ['read']; [turtle_sent_two.py]
    stores an instance of its class [Message].

    Messages are mutable Python objects that are reached through references:
    the inbox holds references, [read_inbox] of [turtle_sent.py] hands the very
    same references back to its caller, and the read flag is set through them.
    The embedding therefore keeps an explicit object store: an inbox is a list
    of locations and the store maps a location to the record it holds.

    Python [int] is [Z], [str] is [string] (a character of the one is a
    character of the other), a raised exception is an outcome of its own
    that carries the state at the moment of the raise.  Every inbox list is
    owned by its key of [boxes] and by nothing else, so [boxes] maps a name
    to the list itself; [insert(0, x)] and [append(x)] replace the list
    under the key.

    [remembers_remembers.py] reads a text off an image; its [open_image] is
    embedded as a function of the opened image. *)

From stdpp Require Import base option list gmap strings pretty.
From Stdlib Require Import Ascii.

Open Scope Z_scope.

(** ** Outcomes of a method call *)

Inductive exn : Type :=
  | KeyError (key : string).

Inductive outcome (A : Type) : Type :=
  | Return (a : A)
  | Raise (e : exn).
Arguments Return {A} a.
Arguments Raise {A} e.

(** A method is a function of the object it is called on ([self]); it
    answers with an outcome and with the object as the call left it. *)
Definition M (S A : Type) : Type := S → outcome A * S.

Definition ret {S A : Type} (a : A) : M S A := λ s, (Return a, s).

Definition bind {S A B : Type} (c : M S A) (k : A → M S B) : M S B :=
  λ s, match c s with
       | (Return a, s') => k a s'
       | (Raise e, s') => (Raise e, s')
       end.

Notation "x <- c ;; k" := (bind c (λ x, k))
  (at level 100, c at next level, right associativity).
Notation "c ;; k" := (bind c (λ _, k))
  (at level 100, right associativity).

(** ** Python built-ins used by the two files *)

(** Object references. *)
Abbreviation loc := positive.

(** [new h] is the reference of a freshly created object. *)
Definition new {A : Type} (h : gmap loc A) : loc := fresh (dom h).

(** [str.__contains__]: [sub] occurs in [s] as a run of consecutive
    characters. *)
Fixpoint starts_with (sub s : string) : bool :=
  match sub, s with
  | EmptyString, _ => true
  | String a sub', String b s' => if Ascii.eqb a b then starts_with sub' s' else false
  | String _ _, EmptyString => false
  end.

Fixpoint contains (s sub : string) : bool :=
  starts_with sub s ||
  match s with
  | EmptyString => false
  | String _ s' => contains s' sub
  end.

(** [str(b)] for a [bool]. *)
Definition str_bool (b : bool) : string := if b then "True" else "False".

(** [str(n)] for an [int]. *)
Definition str_int (n : Z) : string := pretty n.

(** The slice [l[0:n]] for a positive [n]. *)
Definition slice_to {A : Type} (n : Z) (l : list A) : list A := take (Z.to_nat n) l.

(** The dict comprehension [{user: [] for user in usernames}] of both
    constructors: every key gets an empty list of its own, and a later
    occurrence of a key overwrites the earlier one. *)
Definition empty_boxes (usernames : list string) : gmap string (list loc) :=
  foldl (λ d user, <[user := []]> d) ∅ usernames.

(** ** Calls and what they answer *)

(** The public methods of a [PostOffice], with their arguments. *)
Inductive call : Type :=
  | SendMessage (sender recipient message_body : string) (urgent : bool)
  | ReadInbox (user : string) (number_of_message : Z)
  | SearchInbox (user part_message : string).

(** The answer to a call; [R] is what stands for one message in a result
    list. *)
Inductive response (R : Type) : Type :=
  | Sent (o : outcome Z)
  | Inbox (o : outcome (list R))
  | Found (o : outcome (list R)).
Arguments Sent {R} o.
Arguments Inbox {R} o.
Arguments Found {R} o.

Definition outcome_map {A B : Type} (f : A → B) (o : outcome A) : outcome B :=
  match o with
  | Return a => Return (f a)
  | Raise e => Raise e
  end.

Definition response_map {R R' : Type} (f : R → R') (r : response R) : response R' :=
  match r with
  | Sent o => Sent o
  | Inbox o => Inbox (outcome_map (fmap f) o)
  | Found o => Found (outcome_map (fmap f) o)
  end.

(** The ids that the successful [send_message] calls of a run gave back, in
    call order. *)
Fixpoint sent_ids {R : Type} (rs : list (response R)) : list Z :=
  match rs with
  | [] => []
  | Sent (Return i) :: rs' => i :: sent_ids rs'
  | _ :: rs' => sent_ids rs'
  end.

(** [read_inbox] keeps the first [number_of_message] unread messages when
    that number is positive, and all of them otherwise. *)
Definition limit {A : Type} (number_of_message : Z) (unread : list A) : list A :=
  if bool_decide (number_of_message > 0)
  then slice_to number_of_message unread
  else unread.

(** ** Well-formed object stores *)

Section store.
Context {A : Type} (get_id : A → Z).

(** No inbox holds a dangling reference, no message object sits in an
    inbox twice or in two inboxes, and the ids of the stored messages are
    positive, at most the counter, and pairwise distinct. *)
Record store_wf (counter : Z) (bs : gmap string (list loc))
    (h : gmap loc A) : Prop := {
  wf_alloc : ∀ u b l, bs !! u = Some b → l ∈ b → is_Some (h !! l);
  wf_nodup : ∀ u b, bs !! u = Some b → NoDup b;
  wf_owner : ∀ u1 u2 b1 b2 l,
    bs !! u1 = Some b1 → bs !! u2 = Some b2 → l ∈ b1 → l ∈ b2 → u1 = u2;
  wf_ids : ∀ l m, h !! l = Some m → 0 < get_id m ≤ counter;
  wf_ids_inj : ∀ l1 l2 m1 m2,
    h !! l1 = Some m1 → h !! l2 = Some m2 → get_id m1 = get_id m2 → l1 = l2
}.
End store.

(** ** turtle_sent.py *)

Module TurtleSent.

(** The dict built by [send_message]; its four keys ['id'], ['body'],
    ['sender'] and ['read'] are fixed, and are the fields [msg_id],
    [msg_body], [msg_sender] and [msg_read] here. *)
Record message_details : Type := mk_details {
  msg_id : Z;
  msg_body : string;
  msg_sender : string;
  msg_read : bool
}.

#[global] Instance message_details_inhabited : Inhabited message_details :=
  populate (mk_details 0 "" "" false).

#[global] Instance message_details_eq_dec : EqDecision message_details.
Proof. solve_decision. Defined.

(** [d['read'] = True] *)
Definition setitem_read (b : bool) (d : message_details) : message_details :=
  {| msg_id := msg_id d; msg_body := msg_body d;
     msg_sender := msg_sender d; msg_read := b |}.

(** The attributes of a [PostOffice], and the store of the dicts that its
    inboxes refer to. *)
Record PostOffice : Type := mk_PostOffice {
  message_id : Z;
  read : bool;
  boxes : gmap string (list loc);
  heap : gmap loc message_details
}.

Definition __init__ (usernames : list string) : outcome () * PostOffice :=
  (Return (),
   {| message_id := 0; read := false;
      boxes := empty_boxes usernames; heap := ∅ |}).

Definition send_message (sender recipient message_body : string)
    (urgent : bool) : M PostOffice Z :=
  λ self,
    match boxes self !! recipient with
    | None => (Raise (KeyError recipient), self)
    | Some user_box =>
        let message_id' := message_id self + 1 in
        let message_details :=
          {| msg_id := message_id'; msg_body := message_body;
             msg_sender := sender; msg_read := read self |} in
        let l := new (heap self) in
        let user_box' :=
          if urgent then l :: user_box else user_box ++ [l] in
        (Return message_id',
         {| message_id := message_id'; read := read self;
            boxes := <[recipient := user_box']> (boxes self);
            heap := <[l := message_details]> (heap self) |})
    end.

(** The body of the inner loop of [read_inbox]:
    [if self.boxes[user][i]['id'] == message['id']:
         self.boxes[user][i]['read'] = True].
    The index [i] ranges over [range(len_message)], the length of the very
    list that is indexed, so the subscript is always in range. *)
Definition mark_at (box : list loc) (message : loc)
    (h : gmap loc message_details) (i : nat) : gmap loc message_details :=
  match box !! i with
  | Some l =>
      if bool_decide (msg_id (h !!! l) = msg_id (h !!! message))
      then alter (setitem_read true) l h
      else h
  | None => h
  end.

Definition read_inbox (user : string) (number_of_message : Z)
    : M PostOffice (list loc) :=
  λ self,
    match boxes self !! user with
    | None => (Raise (KeyError user), self)
    | Some box =>
        let len_message := length box in
        let message_read :=
          filter (λ message, msg_read (heap self !!! message) = false) box in
        let message_read :=
          if bool_decide (number_of_message > 0)
          then slice_to number_of_message message_read
          else message_read in
        let h :=
          foldl (λ h message,
                   foldl (mark_at box message) h (seq 0 len_message))
                (heap self) message_read in
        (Return message_read,
         {| message_id := message_id self; read := read self;
            boxes := boxes self; heap := h |})
    end.

Definition search_inbox (user part_message : string)
    : M PostOffice (list loc) :=
  λ self,
    match boxes self !! user with
    | None => (Raise (KeyError user), self)
    | Some box =>
        (Return
           (filter (λ message,
                      contains (msg_body (heap self !!! message)) part_message
                      = true) box),
         self)
    end.

(** What a caller sees when it looks at the dicts a call handed back. *)
Definition deref (self : PostOffice) (ms : list loc) : list message_details :=
  (λ l, heap self !!! l) <$> ms.

(** The content of a user's inbox, front to back. *)
Definition mailbox (self : PostOffice) (user : string)
    : option (list message_details) :=
  deref self <$> boxes self !! user.

(** The unread messages of an inbox, front to back, and the ones among
    them that [read_inbox] picks. *)
Definition unread (self : PostOffice) (box : list loc) : list loc :=
  filter (λ message, msg_read (heap self !!! message) = false) box.

Definition selected (self : PostOffice) (box : list loc)
    (number_of_message : Z) : list loc :=
  limit number_of_message (unread self box).

(** The store after the flag of every message of [sel] has been set. *)
Definition mark_read (sel : list loc) (h : gmap loc message_details)
    : gmap loc message_details :=
  foldl (λ h message, alter (setitem_read true) message h) h sel.

(** One call on a [PostOffice]; the lists of a result hold references. *)
Definition step (c : call) (self : PostOffice) : response loc * PostOffice :=
  match c with
  | SendMessage sender recipient message_body urgent =>
      let '(o, self') := send_message sender recipient message_body urgent self in
      (Sent o, self')
  | ReadInbox user number_of_message =>
      let '(o, self') := read_inbox user number_of_message self in
      (Inbox o, self')
  | SearchInbox user part_message =>
      let '(o, self') := search_inbox user part_message self in
      (Found o, self')
  end.

(** A caller that looks at (prints, as [show_example] does) every result
    as soon as the call is back: it sees the dicts as they are then.  A
    caller that catches a [KeyError] goes on with the same object. *)
Fixpoint run (cs : list call) (self : PostOffice)
    : list (response message_details) * PostOffice :=
  match cs with
  | [] => ([], self)
  | c :: cs' =>
      let '(r, self') := step c self in
      let '(rs, self'') := run cs' self' in
      (response_map (λ l, heap self' !!! l) r :: rs, self'')
  end.

(** The states a [PostOffice] can be in when it is used through its
    methods only. *)
Inductive reachable : PostOffice → Prop :=
  | reachable_init usernames : reachable (__init__ usernames).2
  | reachable_step c self : reachable self → reachable (step c self).2.

(** The invariant of the reachable states: the attribute [read] is still
    [False], the counter has not gone below zero, and the store is well
    formed. *)
Definition wf (self : PostOffice) : Prop :=
  read self = false ∧ 0 ≤ message_id self ∧
  store_wf msg_id (message_id self) (boxes self) (heap self).

End TurtleSent.

(** ** turtle_sent_two.py *)

Module TurtleSentTwo.

Module Message.

(** The attributes of an instance of [Message]. *)
Record t : Type := mk {
  message_id : Z;
  message_body : string;
  message_sender : string;
  message_read : bool
}.

Definition __init__ (m_id : Z) (body sender : string) : t :=
  {| message_id := m_id; message_body := body;
     message_sender := sender; message_read := false |}.

(** [get_details] answers with a set display: a Python set that holds
    one string. *)
Definition get_details (self : t) : gset string :=
  {[ "Id: " +:+ str_int (message_id self) +:+ ", Body: " +:+ message_body self
     +:+ ", Sender: " +:+ message_sender self
     +:+ ", Read: " +:+ str_bool (message_read self) ]}.

Definition set_read (status_read : bool) (self : t) : t :=
  {| message_id := message_id self; message_body := message_body self;
     message_sender := message_sender self; message_read := status_read |}.

End Message.

#[global] Instance Message_inhabited : Inhabited Message.t :=
  populate (Message.__init__ 0 "" "").

#[global] Instance Message_eq_dec : EqDecision Message.t.
Proof. solve_decision. Defined.

Record PostOffice : Type := mk_PostOffice {
  message_id : Z;
  boxes : gmap string (list loc);
  heap : gmap loc Message.t
}.

Definition __init__ (usernames : list string) : outcome () * PostOffice :=
  (Return (),
   {| message_id := 0; boxes := empty_boxes usernames; heap := ∅ |}).

Definition send_message (sender recipient message_body : string)
    (urgent : bool) : M PostOffice Z :=
  λ self,
    match boxes self !! recipient with
    | None => (Raise (KeyError recipient), self)
    | Some user_box =>
        let message_id' := message_id self + 1 in
        let message_details := Message.__init__ message_id' message_body sender in
        let l := new (heap self) in
        let user_box' :=
          if urgent then l :: user_box else user_box ++ [l] in
        (Return (Message.message_id message_details),
         {| message_id := message_id';
            boxes := <[recipient := user_box']> (boxes self);
            heap := <[l := message_details]> (heap self) |})
    end.

Definition read_inbox (user : string) (number_of_message : Z)
    : M PostOffice (list (gset string)) :=
  λ self,
    match boxes self !! user with
    | None => (Raise (KeyError user), self)
    | Some box =>
        let message_read :=
          filter (λ message,
                    Message.message_read (heap self !!! message) = false) box in
        let message_read :=
          if bool_decide (number_of_message > 0)
          then slice_to number_of_message message_read
          else message_read in
        let h :=
          foldl (λ h message, alter (Message.set_read true) message h)
                (heap self) message_read in
        (Return ((λ message, Message.get_details (h !!! message)) <$> message_read),
         {| message_id := message_id self; boxes := boxes self; heap := h |})
    end.

Definition search_inbox (user part_message : string)
    : M PostOffice (list (gset string)) :=
  λ self,
    match boxes self !! user with
    | None => (Raise (KeyError user), self)
    | Some box =>
        (Return
           ((λ message, Message.get_details (heap self !!! message)) <$>
            filter (λ message,
                      contains (Message.message_body (heap self !!! message))
                               part_message = true) box),
         self)
    end.

(** The objects that a list of references stands for. *)
Definition deref (self : PostOffice) (ms : list loc) : list Message.t :=
  (λ l, heap self !!! l) <$> ms.

(** The content of a user's inbox, front to back. *)
Definition mailbox (self : PostOffice) (user : string)
    : option (list Message.t) :=
  deref self <$> boxes self !! user.

(** The unread messages of an inbox, front to back, and the ones among
    them that [read_inbox] picks. *)
Definition unread (self : PostOffice) (box : list loc) : list loc :=
  filter (λ message, Message.message_read (heap self !!! message) = false) box.

Definition selected (self : PostOffice) (box : list loc)
    (number_of_message : Z) : list loc :=
  limit number_of_message (unread self box).

(** The store after [set_read(True)] on every message of [sel]. *)
Definition mark_read (sel : list loc) (h : gmap loc Message.t)
    : gmap loc Message.t :=
  foldl (λ h message, alter (Message.set_read true) message h) h sel.

(** One call on a [PostOffice]; the lists of a result hold the sets that
    [get_details] built. *)
Definition step (c : call) (self : PostOffice)
    : response (gset string) * PostOffice :=
  match c with
  | SendMessage sender recipient message_body urgent =>
      let '(o, self') := send_message sender recipient message_body urgent self in
      (Sent o, self')
  | ReadInbox user number_of_message =>
      let '(o, self') := read_inbox user number_of_message self in
      (Inbox o, self')
  | SearchInbox user part_message =>
      let '(o, self') := search_inbox user part_message self in
      (Found o, self')
  end.

Fixpoint run (cs : list call) (self : PostOffice)
    : list (response (gset string)) * PostOffice :=
  match cs with
  | [] => ([], self)
  | c :: cs' =>
      let '(r, self') := step c self in
      let '(rs, self'') := run cs' self' in
      (r :: rs, self'')
  end.

(** The states a [PostOffice] can be in when it is used through its
    methods only. *)
Inductive reachable : PostOffice → Prop :=
  | reachable_init usernames : reachable (__init__ usernames).2
  | reachable_step c self : reachable self → reachable (step c self).2.

Definition wf (self : PostOffice) : Prop :=
  0 ≤ message_id self ∧
  store_wf Message.message_id (message_id self) (boxes self) (heap self).

End TurtleSentTwo.

(** ** The two message representations side by side *)

(** The [Message] object with the attributes that the dict has as items. *)
Definition to_Message (d : TurtleSent.message_details) : TurtleSentTwo.Message.t :=
  {| TurtleSentTwo.Message.message_id := TurtleSent.msg_id d;
     TurtleSentTwo.Message.message_body := TurtleSent.msg_body d;
     TurtleSentTwo.Message.message_sender := TurtleSent.msg_sender d;
     TurtleSentTwo.Message.message_read := TurtleSent.msg_read d |}.

(** A state of [turtle_sent.py] and a state of [turtle_sent_two.py] that
    hold the same: equal counters, the same inboxes, and messages that
    agree in id, body, sender and flag. *)
Definition same_state (s1 : TurtleSent.PostOffice) (s2 : TurtleSentTwo.PostOffice)
    : Prop :=
  TurtleSentTwo.message_id s2 = TurtleSent.message_id s1 ∧
  TurtleSentTwo.boxes s2 = TurtleSent.boxes s1 ∧
  TurtleSentTwo.heap s2 = to_Message <$> TurtleSent.heap s1.

(** The details that [turtle_sent_two.py] shows for the message that
    [turtle_sent.py] keeps as the dict [d]. *)
Definition details_of_dict (d : TurtleSent.message_details) : gset string :=
  TurtleSentTwo.Message.get_details (to_Message d).

(** ** Substrings *)

(** [sub] occurs in [s]: some characters, then [sub], then the rest. *)
Definition occurs_in (sub s : string) : Prop :=
  ∃ before after : string, s = before +:+ sub +:+ after.

(** ** The example of [show_example] *)

Definition users : list string := ["Newman"; "Mr. Peanutbutter"].

(** The three [send_message] calls of [show_example]. *)
Definition show_example_sends : list call :=
  [ SendMessage "Mr. Peanutbutter" "Newman" "Hello, Newman." false;
    SendMessage "Mr. Peanutbutter" "Newman" "Hello world, Newman." false;
    SendMessage "Mr. Peanutbutter" "Newman" "Good bye, Newman." false ].

(** The calls of [show_example] that follow them. *)
Definition show_example_reads : list call :=
  [ ReadInbox "Newman" 1;
    ReadInbox "Newman" 1;
    SearchInbox "Newman" "Good";
    SearchInbox "Newman" "llo";
    SearchInbox "Newman" "hi" ].

(** Every number from 1 to the counter is the id of a message that sits in
    some inbox. *)
Definition store_full {A : Type} (get_id : A → Z) (counter : Z)
    (bs : gmap string (list loc)) (h : gmap loc A) : Prop :=
  ∀ k, 0 < k ≤ counter →
       ∃ u b l m, bs !! u = Some b ∧ l ∈ b ∧ h !! l = Some m ∧ get_id m = k.

(** ** remembers_remembers.py *)

Module RemembersRemembers.

(** What [Image.open(path)] gives, as far as [open_image] looks at it: its
    [size], a pair of width and height, and the pixel access of [load()],
    which answers a pair of column and row with the pixel.  The image has
    one band, so that a pixel is a number (the source compares it with 1). *)
Record Image : Type := mk_Image {
  size : nat * nat;
  load : nat * nat → Z
}.

(** [chr(i)], a string of one character, as the code point of that
    character; [None] is the [ValueError] that [chr] raises from 0x110000
    on. *)
Definition chr (i : nat) : option nat :=
  if decide (Z.of_nat i < 1114112) then Some i else None.

(** [open_image] once the file is open.  The str it gives back is the list
    of the code points of its characters; [None] is a [ValueError] of
    [chr]. *)
Definition open_image (image : Image) : option (list nat) :=
  let '(width, high) := size image in
  let letter :=
    mapM (λ '(column, row), chr row)
         (filter (λ p, load image p = 1)
                 (column ← seq 0 width; row ← seq 0 high; [(column, row)])) in
  letter.

End RemembersRemembers.

(** An image that spells [text], for the round trip through [open_image]
    (the source has no function that draws one): one column for each
    character, with the pixel in the row of the character's code point set
    to 1 and every other pixel of the column to 0. *)
Definition spell (text : list nat) (high : nat) : RemembersRemembers.Image :=
  {| RemembersRemembers.size := (length text, high);
     RemembersRemembers.load :=
       λ '(column, row), if decide (text !! column = Some row) then 1 else 0 |}.

(** The pixels in the order of the comprehension: column by column, and
    top to bottom in a column. *)
Definition pixels (first width high : nat) : list (nat * nat) :=
  column ← seq first width; row ← seq 0 high; [(column, row)].

(** * Properties *)

(** ** The examples of the source, run on the embedding *)

(** The doctest of [send_message]. *)
Example send_message_doctest :
  let po_box := (TurtleSent.__init__ ["a"; "b"]).2 in
  let po_box2 := (TurtleSentTwo.__init__ ["a"; "b"]).2 in
  let r := TurtleSent.send_message "a" "b" "Hello!" false po_box in
  let r2 := TurtleSentTwo.send_message "a" "b" "Hello!" false po_box2 in
  (length <$> TurtleSent.boxes r.2 !! "b" = Some 1%nat ∧ r.1 = Return 1) ∧
  (length <$> TurtleSentTwo.boxes r2.2 !! "b" = Some 1%nat ∧ r2.1 = Return 1).
Proof. by vm_compute. Qed.

(** What [show_example] of [turtle_sent.py] prints. *)
Example show_example_dict :
  (TurtleSent.run (show_example_sends ++ show_example_reads)
     (TurtleSent.__init__ users).2).1
  = [ Sent (Return 1); Sent (Return 2); Sent (Return 3);
      Inbox (Return
        [TurtleSent.mk_details 1 "Hello, Newman." "Mr. Peanutbutter" true]);
      Inbox (Return
        [TurtleSent.mk_details 2 "Hello world, Newman." "Mr. Peanutbutter" true]);
      Found (Return
        [TurtleSent.mk_details 3 "Good bye, Newman." "Mr. Peanutbutter" false]);
      Found (Return
        [TurtleSent.mk_details 1 "Hello, Newman." "Mr. Peanutbutter" true;
         TurtleSent.mk_details 2 "Hello world, Newman." "Mr. Peanutbutter" true]);
      Found (Return []) ].
Proof. by vm_compute. Qed.

(** What [show_example] of [turtle_sent_two.py] prints; every set is
    shown by its elements. *)
Example show_example_obj :
  response_map elements
  <$> (TurtleSentTwo.run (show_example_sends ++ show_example_reads)
         (TurtleSentTwo.__init__ users).2).1
  = [ Sent (Return 1); Sent (Return 2); Sent (Return 3);
      Inbox (Return
        [ ["Id: 1, Body: Hello, Newman., Sender: Mr. Peanutbutter, Read: True"] ]);
      Inbox (Return
        [ ["Id: 2, Body: Hello world, Newman., Sender: Mr. Peanutbutter, Read: True"] ]);
      Found (Return
        [ ["Id: 3, Body: Good bye, Newman., Sender: Mr. Peanutbutter, Read: False"] ]);
      Found (Return
        [ ["Id: 1, Body: Hello, Newman., Sender: Mr. Peanutbutter, Read: True"];
          ["Id: 2, Body: Hello world, Newman., Sender: Mr. Peanutbutter, Read: True"] ]);
      Found (Return []) ].
Proof. vm_compute. reflexivity. Qed.

(** ** Strings *)

Lemma starts_with_spec (sub s : string) :
  starts_with sub s = true ↔ ∃ after, s = sub +:+ after.
Proof.
  revert s. induction sub as [|a sub IH]; intros s; simpl.
  - split; [intros _; by exists s | done].
  - destruct s as [|b s].
    + split; [done | intros [after Heq]; discriminate].
    + destruct (Ascii.eqb_spec a b) as [->|Hne].
      * rewrite IH. split; intros [after Heq]; exists after.
        -- by rewrite Heq.
        -- by injection Heq.
      * split; [done | intros [after Heq]; injection Heq; congruence].
Qed.

Lemma contains_spec (s sub : string) :
  contains s sub = true ↔ occurs_in sub s.
Proof.
  unfold occurs_in. induction s as [|c s IH]; simpl.
  - rewrite orb_false_r, starts_with_spec. split.
    + intros [after Heq]. by exists "", after.
    + intros [before [after Heq]]. destruct before; [by exists after | done].
  - rewrite orb_true_iff, starts_with_spec, IH. split.
    + intros [[after Heq] | [before [after Heq]]].
      * by exists "", after.
      * exists (String c before), after. simpl. by rewrite Heq.
    + intros [before [after Heq]]. destruct before as [|c' before].
      * left. by exists after.
      * right. exists before, after. simpl in Heq. by injection Heq.
Qed.

#[global] Instance occurs_in_dec (sub s : string) : Decision (occurs_in sub s).
Proof.
  destruct (contains s sub) eqn:Hc.
  - left. by apply contains_spec.
  - right. intros H. apply contains_spec in H. congruence.
Defined.

(** ** Lists and the object store *)

Lemma empty_boxes_lookup (usernames : list string) (u : string) (b : list loc) :
  empty_boxes usernames !! u = Some b → b = [].
Proof.
  unfold empty_boxes.
  cut (∀ d : gmap string (list loc),
         (∀ b', d !! u = Some b' → b' = []) →
         foldl (λ d user, <[user := []]> d) d usernames !! u = Some b → b = []).
  { intros Hcut. apply Hcut. intros b'. by rewrite lookup_empty. }
  induction usernames as [|user us IH]; intros d Hd; simpl.
  - apply Hd.
  - apply IH. intros b'. rewrite lookup_insert. case_decide; [congruence | apply Hd].
Qed.

Lemma empty_boxes_registered (usernames : list string) (u : string) :
  is_Some (empty_boxes usernames !! u) ↔ u ∈ usernames.
Proof.
  unfold empty_boxes.
  cut (∀ d : gmap string (list loc),
         is_Some (foldl (λ d user, <[user := []]> d) d usernames !! u)
         ↔ u ∈ usernames ∨ is_Some (d !! u)).
  { intros Hcut. rewrite Hcut, lookup_empty, is_Some_alt. set_solver. }
  induction usernames as [|user us IH]; intros d; simpl.
  - set_solver.
  - rewrite IH, lookup_insert. case_decide; subst.
    + rewrite is_Some_alt. set_solver.
    + set_solver.
Qed.

Lemma foldl_range_lookup_from {A B : Type} (g : B → A → B)
    (pre l : list A) (b : B) :
  foldl (λ acc i, match (pre ++ l) !! i with Some x => g acc x | None => acc end)
        b (seq (length pre) (length l))
  = foldl g b l.
Proof.
  revert pre b. induction l as [|x l IH]; intros pre b; [done|].
  simpl. rewrite list_lookup_middle by done.
  specialize (IH (pre ++ [x]) (g b x)).
  rewrite <- app_assoc, length_app, Nat.add_comm in IH. apply IH.
Qed.

Lemma foldl_range_lookup {A B : Type} (g : B → A → B) (l : list A) (b : B) :
  foldl (λ acc i, match l !! i with Some x => g acc x | None => acc end)
        b (seq 0 (length l))
  = foldl g b l.
Proof. apply (foldl_range_lookup_from g [] l b). Qed.

Section store_lemmas.
Context {A : Type} (get_id : A → Z).
Implicit Types (h : gmap loc A) (bs : gmap string (list loc)).

Lemma new_fresh h : h !! new h = None.
Proof. apply not_elem_of_dom, is_fresh. Qed.

(** Setting a flag through each reference of [sel] in turn. *)
Lemma mark_all_lookup (f : A → A) (sel : list loc) h (l : loc) :
  (∀ x, f (f x) = f x) →
  foldl (λ h m, alter f m h) h sel !! l
  = (if decide (l ∈ sel) then f else id) <$> h !! l.
Proof.
  intros Hf. revert h. induction sel as [|m sel IH]; intros h; simpl.
  - destruct (decide (l ∈ [])) as [Hin|_]; [set_solver|]. by destruct (h !! l).
  - rewrite IH, lookup_alter.
    destruct (decide (l ∈ sel)) as [Hs|Hs], (decide (l ∈ m :: sel)) as [Hm|Hm],
      (decide (m = l)) as [->|Hne]; try set_solver;
      destruct (h !! l) as [x|]; simpl; try done.
    by rewrite Hf.
Qed.

Lemma store_wf_init (usernames : list string) :
  store_wf get_id 0 (empty_boxes usernames) ∅.
Proof.
  split.
  - intros u b l Hb Hl. apply empty_boxes_lookup in Hb. set_solver.
  - intros u b Hb. apply empty_boxes_lookup in Hb. subst. constructor.
  - intros u1 u2 b1 b2 l Hb1 _ Hl. apply empty_boxes_lookup in Hb1. set_solver.
  - intros l m. by rewrite lookup_empty.
  - intros l1 l2 m1 m2. by rewrite lookup_empty.
Qed.

(** A new message object, numbered one above the counter, put in front of
    or behind the inbox of [r]. *)
Lemma store_wf_send (counter : Z) bs h (r : string) (box : list loc)
    (urgent : bool) (m : A) :
  store_wf get_id counter bs h →
  bs !! r = Some box →
  get_id m = counter + 1 →
  0 ≤ counter →
  store_wf get_id (counter + 1)
    (<[r := if urgent then new h :: box else box ++ [new h]]> bs)
    (<[new h := m]> h).
Proof.
  intros [Ha Hn Ho Hi Hj] Hr Hm Hc.
  assert (Hfresh : ∀ u b, bs !! u = Some b → new h ∉ b).
  { intros u b Hb Hin. destruct (Ha u b _ Hb Hin) as [x Hx].
    by rewrite new_fresh in Hx. }
  assert (Hmem : ∀ l, l ∈ (if urgent then new h :: box else box ++ [new h])
                      ↔ l = new h ∨ l ∈ box).
  { intros l. destruct urgent; set_solver. }
  split.
  - intros u b l. rewrite lookup_insert. case_decide; subst.
    + intros [= <-]. rewrite Hmem. intros [->|Hl].
      * rewrite lookup_insert_eq. eauto.
      * rewrite lookup_insert_ne by (intros <-; by eapply Hfresh).
        eauto.
    + intros Hb Hl. rewrite lookup_insert_ne by (intros <-; by eapply Hfresh).
      eauto.
  - intros u b. rewrite lookup_insert. case_decide; subst; [|eauto].
    intros [= <-]. destruct urgent.
    + constructor; eauto.
    + apply NoDup_app. split_and!; [eauto | | apply NoDup_singleton].
      intros l Hl. rewrite list_elem_of_singleton. intros ->. by eapply Hfresh.
  - intros u1 u2 b1 b2 l. rewrite !lookup_insert.
    repeat case_decide; subst; try done.
    + intros [= <-] Hb2. rewrite Hmem. intros [->|Hl] Hl2.
      * by eapply Hfresh in Hl2.
      * eauto.
    + intros Hb1 [= <-] Hl1. rewrite Hmem. intros [->|Hl].
      * by eapply Hfresh in Hl1.
      * eauto.
    + eauto.
  - intros l m'. rewrite lookup_insert. case_decide; subst.
    + intros [= <-]. lia.
    + intros Hl. apply Hi in Hl. lia.
  - intros l1 l2 m1 m2. rewrite !lookup_insert.
    repeat case_decide; subst; try done.
    + intros [= <-] Hl2. apply Hi in Hl2. lia.
    + intros Hl1 [= <-]. apply Hi in Hl1. lia.
    + eauto.
Qed.

(** Changing stored objects in place, without changing an id. *)
Lemma store_wf_update (counter : Z) bs h h' (g : loc → A → A) :
  store_wf get_id counter bs h →
  (∀ l x, get_id (g l x) = get_id x) →
  (∀ l, h' !! l = g l <$> h !! l) →
  store_wf get_id counter bs h'.
Proof.
  intros [Ha Hn Ho Hi Hj] Hg Hh'. split; try done.
  - intros u b l Hb Hl. rewrite Hh', fmap_is_Some. eauto.
  - intros l m. rewrite Hh'. intros (x & Hx & ->)%fmap_Some. rewrite Hg. eauto.
  - intros l1 l2 m1 m2. rewrite !Hh'.
    intros (x1 & Hx1 & ->)%fmap_Some (x2 & Hx2 & ->)%fmap_Some.
    rewrite !Hg. eauto.
Qed.

End store_lemmas.

(** ** turtle_sent.py: what each method does to a well-formed state *)

Section dict_lemmas.
Import TurtleSent.
Implicit Types (self : PostOffice) (h : gmap loc message_details).

Lemma msg_id_alter h (m l : loc) b :
  msg_id (alter (setitem_read b) m h !!! l) = msg_id (h !!! l).
Proof.
  rewrite !lookup_total_alt, lookup_alter.
  case_decide; subst; by destruct (h !! l).
Qed.

(** The inner loop sets the flag of [message] itself and of nothing else,
    as long as no other message of the inbox has the id of [message]. *)
Lemma mark_inner h (box : list loc) (message : loc) :
  (∀ l, l ∈ box → msg_id (h !!! l) = msg_id (h !!! message) → l = message) →
  foldl (mark_at box message) h (seq 0 (length box))
  = if decide (message ∈ box) then alter (setitem_read true) message h else h.
Proof.
  unfold mark_at.
  rewrite (foldl_range_lookup
    (λ h l, if bool_decide (msg_id (h !!! l) = msg_id (h !!! message))
            then alter (setitem_read true) l h else h)).
  revert h. induction box as [|l box IH]; intros h Hinj; simpl.
  - by destruct (decide (message ∈ [])) as [?%elem_of_nil|].
  - case_bool_decide as Hid.
    + assert (l = message) as -> by (apply Hinj; [left | done]).
      rewrite IH.
      * destruct (decide (message ∈ box)), (decide (message ∈ message :: box));
          try set_solver.
        rewrite alter_alter_eq. by apply alter_ext.
      * intros l' Hl'. rewrite !msg_id_alter. intros. apply Hinj; [by right | done].
    + assert (l ≠ message) by congruence.
      rewrite IH by (intros; apply Hinj; [by right | done]).
      destruct (decide (message ∈ box)), (decide (message ∈ l :: box));
        set_solver.
Qed.

Lemma mark_outer h (box sel : list loc) :
  (∀ l1 l2, l1 ∈ box → l2 ∈ box → msg_id (h !!! l1) = msg_id (h !!! l2) → l1 = l2) →
  sel ⊆ box →
  foldl (λ h message, foldl (mark_at box message) h (seq 0 (length box))) h sel
  = foldl (λ h message, alter (setitem_read true) message h) h sel.
Proof.
  revert h. induction sel as [|m sel IH]; intros h Hinj Hsub; [done|]. simpl.
  rewrite mark_inner by (intros; apply Hinj; set_solver).
  rewrite decide_True by set_solver.
  apply IH; [|set_solver].
  intros l1 l2 ? ?. rewrite !msg_id_alter. by apply Hinj.
Qed.

Lemma dict_selected_box self (box : list loc) n (l : loc) :
  l ∈ selected self box n → l ∈ box ∧ msg_read (heap self !!! l) = false.
Proof.
  unfold selected, limit, slice_to, unread. intros Hl.
  assert (l ∈ filter (λ message, msg_read (heap self !!! message) = false) box)
    as Hf.
  { case_bool_decide; [by eapply subseteq_take | done]. }
  apply list_elem_of_filter in Hf. tauto.
Qed.

Lemma dict_lookup_total self (l : loc) (m : message_details) :
  heap self !! l = Some m → heap self !!! l = m.
Proof. apply lookup_total_correct. Qed.

Lemma dict_mark_read_lookup (sel : list loc) h (l : loc) :
  mark_read sel h !! l
  = (if decide (l ∈ sel) then setitem_read true else id) <$> h !! l.
Proof. apply mark_all_lookup. done. Qed.


Lemma dict_send_message_eq self sender recipient message_body urgent box :
  read self = false →
  boxes self !! recipient = Some box →
  send_message sender recipient message_body urgent self
  = (Return (message_id self + 1),
     {| message_id := message_id self + 1; read := false;
        boxes := <[recipient :=
                     if urgent then new (heap self) :: box
                     else box ++ [new (heap self)]]> (boxes self);
        heap := <[new (heap self) :=
                    mk_details (message_id self + 1) message_body sender false]>
                  (heap self) |}).
Proof. intros Hr Hb. unfold send_message. by rewrite Hb, Hr. Qed.

Lemma dict_read_inbox_eq self user n box :
  wf self →
  boxes self !! user = Some box →
  read_inbox user n self
  = (Return (selected self box n),
     {| message_id := message_id self; read := read self;
        boxes := boxes self;
        heap := mark_read (selected self box n) (heap self) |}).
Proof.
  intros (_ & _ & Hwf) Hb. unfold read_inbox. rewrite Hb.
  fold (unread self box). fold (limit n (unread self box)).
  fold (selected self box n). unfold mark_read.
  rewrite mark_outer; [done | |].
  - intros l1 l2 H1 H2.
    destruct (wf_alloc _ _ _ _ Hwf _ _ _ Hb H1) as [m1 Hm1].
    destruct (wf_alloc _ _ _ _ Hwf _ _ _ Hb H2) as [m2 Hm2].
    rewrite (dict_lookup_total _ _ _ Hm1), (dict_lookup_total _ _ _ Hm2).
    by apply (wf_ids_inj _ _ _ _ Hwf).
  - intros l Hl. by apply dict_selected_box in Hl as [? _].
Qed.

Lemma dict_search_inbox_eq self user part_message box :
  boxes self !! user = Some box →
  search_inbox user part_message self
  = (Return (filter (λ l, occurs_in part_message (msg_body (heap self !!! l))) box),
     self).
Proof.
  intros Hb. unfold search_inbox. rewrite Hb. do 2 f_equal.
  apply list_filter_iff. intros l. apply contains_spec.
Qed.

Lemma dict_wf_init usernames : wf (__init__ usernames).2.
Proof. split_and!; [done | done | apply store_wf_init]. Qed.

Lemma dict_wf_send self sender recipient message_body urgent :
  wf self → wf (send_message sender recipient message_body urgent self).2.
Proof.
  intros (Hr & Hc & Hwf).
  destruct (boxes self !! recipient) as [box|] eqn:Hb.
  - rewrite (dict_send_message_eq _ _ _ _ _ box) by done. unfold wf. simpl.
    split_and!; [done | lia |]. by apply store_wf_send.
  - unfold send_message. by rewrite Hb.
Qed.

Lemma dict_wf_read self user n :
  wf self → wf (read_inbox user n self).2.
Proof.
  intros Hwf. destruct (boxes self !! user) as [box|] eqn:Hb.
  - rewrite (dict_read_inbox_eq _ _ _ box) by done.
    destruct Hwf as (Hr & Hc & Hwf). unfold wf. simpl.
    split_and!; [done | done |].
    eapply (store_wf_update _ _ _ _ _
              (λ l, if decide (l ∈ selected self box n)
                    then setitem_read true else id)); [done | |].
    + intros l x. by case_decide.
    + intros l. apply dict_mark_read_lookup.
  - unfold read_inbox. by rewrite Hb.
Qed.

Lemma dict_wf_search self user part_message :
  wf self → wf (search_inbox user part_message self).2.
Proof. intros Hwf. unfold search_inbox. by destruct (boxes self !! user). Qed.

Lemma dict_wf_step c self : wf self → wf (step c self).2.
Proof.
  intros Hwf. destruct c as [a r b u | u n | u p]; simpl.
  - pose proof (dict_wf_send self a r b u Hwf).
    by destruct (send_message a r b u self).
  - pose proof (dict_wf_read self u n Hwf).
    by destruct (read_inbox u n self).
  - pose proof (dict_wf_search self u p Hwf).
    by destruct (search_inbox u p self).
Qed.

Lemma dict_reachable_wf self : reachable self → wf self.
Proof.
  induction 1 as [usernames | c self _ IH];
    [apply dict_wf_init | by apply dict_wf_step].
Qed.

End dict_lemmas.

(** ** turtle_sent_two.py: what each method does to a well-formed state *)

Section obj_lemmas.
Import TurtleSentTwo.
Implicit Types (self : PostOffice) (h : gmap loc Message.t).

Lemma obj_selected_box self (box : list loc) n (l : loc) :
  l ∈ selected self box n →
  l ∈ box ∧ Message.message_read (heap self !!! l) = false.
Proof.
  unfold selected, limit, slice_to, unread. intros Hl.
  assert (l ∈ filter (λ message,
                        Message.message_read (heap self !!! message) = false) box)
    as Hf.
  { case_bool_decide; [by eapply subseteq_take | done]. }
  apply list_elem_of_filter in Hf. tauto.
Qed.

Lemma obj_mark_read_lookup (sel : list loc) h (l : loc) :
  mark_read sel h !! l
  = (if decide (l ∈ sel) then Message.set_read true else id) <$> h !! l.
Proof. apply mark_all_lookup. done. Qed.


Lemma obj_send_message_eq self sender recipient message_body urgent box :
  boxes self !! recipient = Some box →
  send_message sender recipient message_body urgent self
  = (Return (message_id self + 1),
     {| message_id := message_id self + 1;
        boxes := <[recipient :=
                     if urgent then new (heap self) :: box
                     else box ++ [new (heap self)]]> (boxes self);
        heap := <[new (heap self) :=
                    Message.mk (message_id self + 1) message_body sender false]>
                  (heap self) |}).
Proof. intros Hb. unfold send_message. by rewrite Hb. Qed.

Lemma obj_read_inbox_eq self user n box :
  boxes self !! user = Some box →
  read_inbox user n self
  = (Return ((λ l, Message.get_details
                     (mark_read (selected self box n) (heap self) !!! l))
             <$> selected self box n),
     {| message_id := message_id self; boxes := boxes self;
        heap := mark_read (selected self box n) (heap self) |}).
Proof. intros Hb. unfold read_inbox. by rewrite Hb. Qed.

Lemma obj_search_inbox_eq self user part_message box :
  boxes self !! user = Some box →
  search_inbox user part_message self
  = (Return ((λ l, Message.get_details (heap self !!! l)) <$>
             filter (λ l, occurs_in part_message
                            (Message.message_body (heap self !!! l))) box),
     self).
Proof.
  intros Hb. unfold search_inbox. rewrite Hb. do 3 f_equal.
  apply list_filter_iff. intros l. apply contains_spec.
Qed.

Lemma obj_wf_init usernames : wf (__init__ usernames).2.
Proof. split; [done | apply store_wf_init]. Qed.

Lemma obj_wf_send self sender recipient message_body urgent :
  wf self → wf (send_message sender recipient message_body urgent self).2.
Proof.
  intros (Hc & Hwf).
  destruct (boxes self !! recipient) as [box|] eqn:Hb.
  - rewrite (obj_send_message_eq _ _ _ _ _ box) by done. unfold wf. simpl.
    split; [lia |]. by apply store_wf_send.
  - unfold send_message. by rewrite Hb.
Qed.

Lemma obj_wf_read self user n :
  wf self → wf (read_inbox user n self).2.
Proof.
  intros Hwf. destruct (boxes self !! user) as [box|] eqn:Hb.
  - rewrite (obj_read_inbox_eq _ _ _ box) by done.
    destruct Hwf as (Hc & Hwf). unfold wf. simpl. split; [done|].
    eapply (store_wf_update _ _ _ _ _
              (λ l, if decide (l ∈ selected self box n)
                    then Message.set_read true else id)); [done | |].
    + intros l x. by case_decide.
    + intros l. apply obj_mark_read_lookup.
  - unfold read_inbox. by rewrite Hb.
Qed.

Lemma obj_wf_search self user part_message :
  wf self → wf (search_inbox user part_message self).2.
Proof. intros Hwf. unfold search_inbox. by destruct (boxes self !! user). Qed.

Lemma obj_wf_step c self : wf self → wf (step c self).2.
Proof.
  intros Hwf. destruct c as [a r b u | u n | u p]; simpl.
  - pose proof (obj_wf_send self a r b u Hwf).
    by destruct (send_message a r b u self).
  - pose proof (obj_wf_read self u n Hwf).
    by destruct (read_inbox u n self).
  - pose proof (obj_wf_search self u p Hwf).
    by destruct (search_inbox u p self).
Qed.

Lemma obj_reachable_wf self : reachable self → wf self.
Proof.
  induction 1 as [usernames | c self _ IH];
    [apply obj_wf_init | by apply obj_wf_step].
Qed.

End obj_lemmas.

(** * The claims *)

(** ** The id counter *)

Lemma dict_step_counter c (self : TurtleSent.PostOffice) :
  match (TurtleSent.step c self).1 with
  | Sent (Return n) =>
      n = TurtleSent.message_id self + 1 ∧
      TurtleSent.message_id (TurtleSent.step c self).2 = TurtleSent.message_id self + 1
  | _ => TurtleSent.message_id (TurtleSent.step c self).2 = TurtleSent.message_id self
  end.
Proof.
  destruct c as [a r b u | u n | u p]; simpl.
  - unfold TurtleSent.send_message.
    by destruct (TurtleSent.boxes self !! r).
  - unfold TurtleSent.read_inbox.
    by destruct (TurtleSent.boxes self !! u).
  - unfold TurtleSent.search_inbox.
    by destruct (TurtleSent.boxes self !! u).
Qed.

Lemma obj_step_counter c (self : TurtleSentTwo.PostOffice) :
  match (TurtleSentTwo.step c self).1 with
  | Sent (Return n) =>
      n = TurtleSentTwo.message_id self + 1 ∧
      TurtleSentTwo.message_id (TurtleSentTwo.step c self).2
      = TurtleSentTwo.message_id self + 1
  | _ => TurtleSentTwo.message_id (TurtleSentTwo.step c self).2
         = TurtleSentTwo.message_id self
  end.
Proof.
  destruct c as [a r b u | u n | u p]; simpl.
  - unfold TurtleSentTwo.send_message.
    by destruct (TurtleSentTwo.boxes self !! r).
  - unfold TurtleSentTwo.read_inbox.
    by destruct (TurtleSentTwo.boxes self !! u).
  - unfold TurtleSentTwo.search_inbox.
    by destruct (TurtleSentTwo.boxes self !! u).
Qed.

Lemma dict_run_cons c cs (self : TurtleSent.PostOffice) :
  TurtleSent.run (c :: cs) self
  = (response_map (λ l, TurtleSent.heap (TurtleSent.step c self).2 !!! l)
       (TurtleSent.step c self).1
     :: (TurtleSent.run cs (TurtleSent.step c self).2).1,
     (TurtleSent.run cs (TurtleSent.step c self).2).2).
Proof.
  cbn [TurtleSent.run]. destruct (TurtleSent.step c self) as [r s'].
  cbn [fst snd]. by destruct (TurtleSent.run cs s').
Qed.

Lemma obj_run_cons c cs (self : TurtleSentTwo.PostOffice) :
  TurtleSentTwo.run (c :: cs) self
  = ((TurtleSentTwo.step c self).1
     :: (TurtleSentTwo.run cs (TurtleSentTwo.step c self).2).1,
     (TurtleSentTwo.run cs (TurtleSentTwo.step c self).2).2).
Proof.
  cbn [TurtleSentTwo.run]. destruct (TurtleSentTwo.step c self) as [r s'].
  cbn [fst snd]. by destruct (TurtleSentTwo.run cs s').
Qed.

Lemma sent_ids_response_map {R R' : Type} (f : R → R') (r : response R)
    (rs : list (response R')) :
  sent_ids (response_map f r :: rs)
  = match r with
    | Sent (Return i) => i :: sent_ids rs
    | _ => sent_ids rs
    end.
Proof. by destruct r as [[?|?]|[?|?]|[?|?]]. Qed.

Lemma dict_sent_ids_nth cs (self : TurtleSent.PostOffice) (i : nat) (n : Z) :
  sent_ids (TurtleSent.run cs self).1 !! i = Some n →
  n = TurtleSent.message_id self + Z.of_nat i + 1.
Proof.
  revert self i. induction cs as [|c cs IH]; intros self i; [done|].
  rewrite dict_run_cons. cbn [fst]. rewrite sent_ids_response_map.
  pose proof (dict_step_counter c self) as Hc.
  destruct (TurtleSent.step c self).1 as [[k|e]|o|o]; simpl.
  - destruct Hc as [-> Hc]. destruct i as [|i]; simpl.
    + intros [= <-]. lia.
    + intros Hi. apply IH in Hi. lia.
  - intros Hi. apply IH in Hi. lia.
  - intros Hi. apply IH in Hi. lia.
  - intros Hi. apply IH in Hi. lia.
Qed.

Lemma obj_sent_ids_nth cs (self : TurtleSentTwo.PostOffice) (i : nat) (n : Z) :
  sent_ids (TurtleSentTwo.run cs self).1 !! i = Some n →
  n = TurtleSentTwo.message_id self + Z.of_nat i + 1.
Proof.
  revert self i. induction cs as [|c cs IH]; intros self i; [done|].
  rewrite obj_run_cons. cbn [fst].
  pose proof (obj_step_counter c self) as Hc.
  destruct (TurtleSentTwo.step c self).1 as [[k|e]|o|o]; simpl.
  - destruct Hc as [-> Hc]. destruct i as [|i]; simpl.
    + intros [= <-]. lia.
    + intros Hi. apply IH in Hi. lia.
  - intros Hi. apply IH in Hi. lia.
  - intros Hi. apply IH in Hi. lia.
  - intros Hi. apply IH in Hi. lia.
Qed.

(** A list whose entry at index [i] is [c + i + 1] is strictly increasing
    and free of duplicates. *)
Lemma counted_increasing (c : Z) (ids : list Z) :
  (∀ i n, ids !! i = Some n → n = c + Z.of_nat i + 1) →
  (∀ i j a b, (i < j)%nat → ids !! i = Some a → ids !! j = Some b → a < b)
  ∧ NoDup ids.
Proof.
  intros Hnth. split.
  - intros i j a b Hij Ha Hb. apply Hnth in Ha, Hb. lia.
  - apply NoDup_alt. intros i j a Ha Hb.
    apply Hnth in Ha, Hb. lia.
Qed.

(** C1: in every run of calls on a newly built [PostOffice], of either
    file, the [i]-th successful [send_message] (counting from 0) gives back
    the id [i + 1], whatever the urgent flags and the recipients are and
    whatever other calls lie in between; so the first id is 1, the ids are
    strictly increasing in call order, and no two are equal. *)
Theorem send_message_ids_increasing (usernames : list string) (cs : list call) :
  let ids1 := sent_ids (TurtleSent.run cs (TurtleSent.__init__ usernames).2).1 in
  let ids2 := sent_ids (TurtleSentTwo.run cs (TurtleSentTwo.__init__ usernames).2).1 in
  ((∀ i n, ids1 !! i = Some n → n = Z.of_nat i + 1) ∧
   (∀ i j a b, (i < j)%nat → ids1 !! i = Some a → ids1 !! j = Some b → a < b) ∧
   NoDup ids1) ∧
  ((∀ i n, ids2 !! i = Some n → n = Z.of_nat i + 1) ∧
   (∀ i j a b, (i < j)%nat → ids2 !! i = Some a → ids2 !! j = Some b → a < b) ∧
   NoDup ids2).
Proof.
  intros ids1 ids2.
  assert (H1 : ∀ i n, ids1 !! i = Some n → n = 0 + Z.of_nat i + 1).
  { intros i n Hi. by apply dict_sent_ids_nth in Hi. }
  assert (H2 : ∀ i n, ids2 !! i = Some n → n = 0 + Z.of_nat i + 1).
  { intros i n Hi. by apply obj_sent_ids_nth in Hi. }
  split.
  - split; [intros i n Hi; apply H1 in Hi; lia | by apply (counted_increasing 0)].
  - split; [intros i n Hi; apply H2 in Hi; lia | by apply (counted_increasing 0)].
Qed.

(** ** Unknown users *)

(** C6: when [user] is not a key of [boxes], [send_message] to [user],
    [read_inbox] of [user] and [search_inbox] of [user] raise
    [KeyError(user)] and leave the [PostOffice] exactly as it was: the
    counter, every inbox and every stored message. *)
Theorem unknown_user_raises_and_keeps_state
    (s1 : TurtleSent.PostOffice) (s2 : TurtleSentTwo.PostOffice)
    (user sender message_body part_message : string) (urgent : bool) (n : Z) :
  TurtleSent.boxes s1 !! user = None →
  TurtleSentTwo.boxes s2 !! user = None →
  (TurtleSent.send_message sender user message_body urgent s1
     = (Raise (KeyError user), s1) ∧
   TurtleSent.read_inbox user n s1 = (Raise (KeyError user), s1) ∧
   TurtleSent.search_inbox user part_message s1 = (Raise (KeyError user), s1)) ∧
  (TurtleSentTwo.send_message sender user message_body urgent s2
     = (Raise (KeyError user), s2) ∧
   TurtleSentTwo.read_inbox user n s2 = (Raise (KeyError user), s2) ∧
   TurtleSentTwo.search_inbox user part_message s2 = (Raise (KeyError user), s2)).
Proof.
  intros H1 H2.
  unfold TurtleSent.send_message, TurtleSent.read_inbox, TurtleSent.search_inbox,
    TurtleSentTwo.send_message, TurtleSentTwo.read_inbox,
    TurtleSentTwo.search_inbox.
  by rewrite H1, H2.
Qed.

Lemma unknown_user_raises_and_keeps_state_witness :
  let s1 := (TurtleSent.__init__ ["Newman"; "Mr. Peanutbutter"]).2 in
  let s2 := (TurtleSentTwo.__init__ ["Newman"; "Mr. Peanutbutter"]).2 in
  (TurtleSent.boxes s1 !! "Kramer" = None ∧
   TurtleSentTwo.boxes s2 !! "Kramer" = None) ∧
  TurtleSent.send_message "Newman" "Kramer" "Hello!" true s1
    = (Raise (KeyError "Kramer"), s1) ∧
  TurtleSentTwo.read_inbox "Kramer" 2 s2 = (Raise (KeyError "Kramer"), s2).
Proof.
  assert (H1 : TurtleSent.boxes (TurtleSent.__init__ ["Newman"; "Mr. Peanutbutter"]).2
               !! "Kramer" = None) by (vm_compute; reflexivity).
  assert (H2 : TurtleSentTwo.boxes
                 (TurtleSentTwo.__init__ ["Newman"; "Mr. Peanutbutter"]).2
               !! "Kramer" = None) by (vm_compute; reflexivity).
  pose proof (unknown_user_raises_and_keeps_state _ _ "Kramer" "Newman" "Hello!" ""
                true 2 H1 H2) as [[Hs _] [_ [Hr _]]].
  exact (conj (conj H1 H2) (conj Hs Hr)).
Defined.

(** ** Searching *)

Lemma filter_all {A : Type} (P : A → Prop) `{∀ x, Decision (P x)} (l : list A) :
  (∀ x, x ∈ l → P x) → filter P l = l.
Proof.
  induction l as [|x l IH]; intros HP; [done|].
  rewrite filter_cons_True by (apply HP; left).
  f_equal. apply IH. intros y Hy. apply HP. by right.
Qed.

Lemma filter_none {A : Type} (P : A → Prop) `{∀ x, Decision (P x)} (l : list A) :
  (∀ x, x ∈ l → ¬ P x) → filter P l = [].
Proof.
  induction l as [|x l IH]; intros HP; [done|].
  rewrite filter_cons_False by (apply HP; left).
  apply IH. intros y Hy. apply HP. by right.
Qed.

(** C5: for a registered [user], [search_inbox] gives back, in inbox
    order, exactly the messages of the inbox whose body has [part_message]
    in it as a run of consecutive characters (compared character by
    character, so upper and lower case differ; the read flag plays no
    part); with the empty string that is every message.  The call leaves
    the [PostOffice] as it was, so a second identical call answers the
    same. *)
Theorem search_inbox_finds_substrings
    (s1 : TurtleSent.PostOffice) (s2 : TurtleSentTwo.PostOffice)
    (user part_message : string) (box1 box2 : list loc) :
  TurtleSent.boxes s1 !! user = Some box1 →
  TurtleSentTwo.boxes s2 !! user = Some box2 →
  (TurtleSent.search_inbox user part_message s1
     = (Return (filter (λ l, occurs_in part_message
                               (TurtleSent.msg_body (TurtleSent.heap s1 !!! l)))
                       box1),
        s1) ∧
   TurtleSent.search_inbox user "" s1 = (Return box1, s1) ∧
   TurtleSent.search_inbox user part_message
     (TurtleSent.search_inbox user part_message s1).2
   = TurtleSent.search_inbox user part_message s1) ∧
  (TurtleSentTwo.search_inbox user part_message s2
     = (Return ((λ l, TurtleSentTwo.Message.get_details (TurtleSentTwo.heap s2 !!! l))
                <$> filter (λ l, occurs_in part_message
                                   (TurtleSentTwo.Message.message_body
                                      (TurtleSentTwo.heap s2 !!! l)))
                           box2),
        s2) ∧
   TurtleSentTwo.search_inbox user "" s2
     = (Return ((λ l, TurtleSentTwo.Message.get_details (TurtleSentTwo.heap s2 !!! l))
                <$> box2),
        s2) ∧
   TurtleSentTwo.search_inbox user part_message
     (TurtleSentTwo.search_inbox user part_message s2).2
   = TurtleSentTwo.search_inbox user part_message s2) ∧
  ¬ occurs_in "good" "Good bye, Newman.".
Proof.
  intros H1 H2. split_and!.
  - by apply dict_search_inbox_eq.
  - rewrite (dict_search_inbox_eq _ _ _ _ H1). do 2 f_equal.
    apply filter_all. intros l _. by exists "", (TurtleSent.msg_body (TurtleSent.heap s1 !!! l)).
  - rewrite (dict_search_inbox_eq _ _ _ _ H1). cbn [snd].
    by apply dict_search_inbox_eq.
  - by apply obj_search_inbox_eq.
  - rewrite (obj_search_inbox_eq _ _ _ _ H2). do 3 f_equal.
    apply filter_all. intros l _.
    by exists "", (TurtleSentTwo.Message.message_body (TurtleSentTwo.heap s2 !!! l)).
  - rewrite (obj_search_inbox_eq _ _ _ _ H2). cbn [snd].
    by apply obj_search_inbox_eq.
  - intros H. apply contains_spec in H. vm_compute in H. discriminate.
Qed.

Lemma search_inbox_finds_substrings_witness :
  let s1 := (TurtleSent.run show_example_sends (TurtleSent.__init__ users).2).2 in
  let s2 := (TurtleSentTwo.run show_example_sends (TurtleSentTwo.__init__ users).2).2 in
  (TurtleSent.boxes s1 !! "Newman" = Some [1; 2; 3]%positive ∧
   TurtleSentTwo.boxes s2 !! "Newman" = Some [1; 2; 3]%positive) ∧
  TurtleSent.search_inbox "Newman" "llo" s1 = (Return [1; 2]%positive, s1) ∧
  TurtleSentTwo.search_inbox "Newman" "Good" s2
  = (Return [ {[ "Id: 3, Body: Good bye, Newman., Sender: Mr. Peanutbutter, Read: False" ]} ],
     s2).
Proof.
  intros s1 s2.
  assert (H1 : TurtleSent.boxes s1 !! "Newman" = Some [1; 2; 3]%positive)
    by (vm_compute; reflexivity).
  assert (H2 : TurtleSentTwo.boxes s2 !! "Newman" = Some [1; 2; 3]%positive)
    by (vm_compute; reflexivity).
  split; [exact (conj H1 H2)|].
  pose proof (search_inbox_finds_substrings s1 s2 "Newman" "llo" _ _ H1 H2)
    as [[Hd _] _].
  pose proof (search_inbox_finds_substrings s1 s2 "Newman" "Good" _ _ H1 H2)
    as [_ [[Ho _] _]].
  split.
  - rewrite Hd. f_equal.
  - rewrite Ho. f_equal.
Defined.

(** ** Construction *)

(** C7, as the code has it: the constructor of either file never raises.
    It gives a [PostOffice] whose counter is 0, with no message stored and
    with exactly one empty inbox for every name that occurs in
    [usernames], however often the name occurs there. *)
Theorem init_one_empty_box_per_name (usernames : list string) :
  ((TurtleSent.__init__ usernames).1 = Return () ∧
   TurtleSent.message_id (TurtleSent.__init__ usernames).2 = 0 ∧
   TurtleSent.heap (TurtleSent.__init__ usernames).2 = ∅ ∧
   ∀ u, TurtleSent.boxes (TurtleSent.__init__ usernames).2 !! u
        = if decide (u ∈ usernames) then Some [] else None) ∧
  ((TurtleSentTwo.__init__ usernames).1 = Return () ∧
   TurtleSentTwo.message_id (TurtleSentTwo.__init__ usernames).2 = 0 ∧
   TurtleSentTwo.heap (TurtleSentTwo.__init__ usernames).2 = ∅ ∧
   ∀ u, TurtleSentTwo.boxes (TurtleSentTwo.__init__ usernames).2 !! u
        = if decide (u ∈ usernames) then Some [] else None).
Proof.
  assert (Hb : ∀ u, empty_boxes usernames !! u
                    = if decide (u ∈ usernames) then Some [] else None).
  { intros u. pose proof (empty_boxes_registered usernames u) as Hreg.
    destruct (empty_boxes usernames !! u) as [b|] eqn:Hu.
    - apply empty_boxes_lookup in Hu as ->.
      rewrite decide_True; [done|]. apply Hreg. eauto.
    - rewrite decide_False; [done|]. intros Hin. apply Hreg in Hin.
      by destruct Hin. }
  by split_and!.
Qed.

(** C7, as the spec has it, fails: a list that names "Newman" twice is
    accepted by both constructors, which answer with one inbox for
    "Newman". *)
Lemma init_accepts_duplicates :
  ¬ NoDup ["Newman"; "Newman"] ∧
  TurtleSent.__init__ ["Newman"; "Newman"]
  = (Return (),
     {| TurtleSent.message_id := 0; TurtleSent.read := false;
        TurtleSent.boxes := {[ "Newman" := [] ]}; TurtleSent.heap := ∅ |}) ∧
  TurtleSentTwo.__init__ ["Newman"; "Newman"]
  = (Return (),
     {| TurtleSentTwo.message_id := 0;
        TurtleSentTwo.boxes := {[ "Newman" := [] ]}; TurtleSentTwo.heap := ∅ |}).
Proof.
  split_and!.
  - intros Hnd. apply NoDup_cons in Hnd as [Hnotin _]. apply Hnotin. left.
  - unfold TurtleSent.__init__, empty_boxes. simpl. by rewrite insert_insert_eq.
  - unfold TurtleSentTwo.__init__, empty_boxes. simpl. by rewrite insert_insert_eq.
Qed.

(** ** Reading *)

Lemma filter_ext_elem {A : Type} (P Q : A → Prop)
    `{!∀ x, Decision (P x), !∀ x, Decision (Q x)} (l : list A) :
  (∀ x, x ∈ l → P x ↔ Q x) → filter P l = filter Q l.
Proof.
  induction l as [|x l IH]; intros HPQ; [done|].
  rewrite !filter_cons, IH by (intros y Hy; apply HPQ; by right).
  apply decide_ext, HPQ. left.
Qed.

Lemma filter_not_in_prefix {A : Type} `{EqDecision A} (l1 l2 : list A) :
  NoDup (l1 ++ l2) → filter (λ x, x ∉ l1) (l1 ++ l2) = l2.
Proof.
  intros (_ & Hdisj & _)%NoDup_app. rewrite filter_app.
  rewrite filter_none by (intros x Hx Hn; by apply Hn).
  rewrite filter_all; [done|]. intros x Hx Hx1. by apply (Hdisj x).
Qed.

Lemma filter_not_in_take {A : Type} `{EqDecision A} (k : nat) (u : list A) :
  NoDup u → filter (λ x, x ∉ take k u) u = drop k u.
Proof.
  intros Hnd. rewrite <- (take_drop k u) in Hnd.
  apply filter_not_in_prefix in Hnd. by rewrite take_drop in Hnd.
Qed.

Section marking.
Context {A : Type} `{Inhabited A} (rd : A → bool) (f : A → A).
Context (Hf : ∀ x, f (f x) = f x) (Hrd : ∀ x, rd (f x) = true).
Implicit Types (h : gmap loc A) (box sel : list loc).

Let mark sel h := foldl (λ h m, alter f m h) h sel.

Lemma mark_total sel h (l : loc) (x : A) :
  h !! l = Some x →
  mark sel h !!! l = if decide (l ∈ sel) then f x else x.
Proof.
  intros Hl. apply lookup_total_correct. unfold mark.
  rewrite mark_all_lookup, Hl by done. simpl. by case_decide.
Qed.

(** What is still unread after the marking: the unread messages that
    were not picked. *)
Lemma unread_after_mark h box sel :
  (∀ l, l ∈ box → is_Some (h !! l)) →
  filter (λ l, rd (mark sel h !!! l) = false) box
  = filter (λ l, l ∉ sel) (filter (λ l, rd (h !!! l) = false) box).
Proof.
  intros Halloc. rewrite list_filter_filter. apply filter_ext_elem.
  intros l [x Hx]%Halloc.
  rewrite (mark_total _ _ _ _ Hx), (lookup_total_correct _ _ _ Hx).
  case_decide; [rewrite Hrd|]; naive_solver.
Qed.

(** The picked messages, looked at after the marking. *)
Lemma picked_after_mark h sel :
  (∀ l, l ∈ sel → is_Some (h !! l)) →
  (λ l, mark sel h !!! l) <$> sel = (λ l, f (h !!! l)) <$> sel.
Proof.
  intros Halloc. apply list_fmap_ext. intros i l Hl%list_elem_of_lookup_2.
  destruct (Halloc l Hl) as [x Hx].
  rewrite (mark_total _ _ _ _ Hx), (lookup_total_correct _ _ _ Hx).
  by rewrite decide_True.
Qed.

End marking.

Lemma limit_nil {A : Type} (n : Z) : limit n (@nil A) = [].
Proof. unfold limit, slice_to. case_bool_decide; [apply take_nil | done]. Qed.

Lemma dict_unread_after_read (self : TurtleSent.PostOffice) user n box :
  TurtleSent.wf self →
  TurtleSent.boxes self !! user = Some box →
  TurtleSent.unread (TurtleSent.read_inbox user n self).2 box
  = filter (λ l, l ∉ TurtleSent.selected self box n) (TurtleSent.unread self box).
Proof.
  intros Hwf Hb. rewrite (dict_read_inbox_eq _ _ _ _ Hwf Hb).
  destruct Hwf as (_ & _ & Hwf).
  apply (unread_after_mark TurtleSent.msg_read (TurtleSent.setitem_read true));
    [done | done |].
  intros l Hl. by eapply (wf_alloc _ _ _ _ Hwf).
Qed.

Lemma obj_unread_after_read (self : TurtleSentTwo.PostOffice) user n box :
  TurtleSentTwo.wf self →
  TurtleSentTwo.boxes self !! user = Some box →
  TurtleSentTwo.unread (TurtleSentTwo.read_inbox user n self).2 box
  = filter (λ l, l ∉ TurtleSentTwo.selected self box n)
           (TurtleSentTwo.unread self box).
Proof.
  intros Hwf Hb. rewrite (obj_read_inbox_eq _ _ _ _ Hb).
  destruct Hwf as (_ & Hwf).
  apply (unread_after_mark TurtleSentTwo.Message.message_read
           (TurtleSentTwo.Message.set_read true)); [done | done |].
  intros l Hl. by eapply (wf_alloc _ _ _ _ Hwf).
Qed.

Lemma dict_read_nothing (self : TurtleSent.PostOffice) user n box :
  TurtleSent.wf self →
  TurtleSent.boxes self !! user = Some box →
  TurtleSent.unread self box = [] →
  TurtleSent.read_inbox user n self = (Return [], self).
Proof.
  intros Hwf Hb Hu. rewrite (dict_read_inbox_eq _ _ _ _ Hwf Hb).
  unfold TurtleSent.selected. rewrite Hu, limit_nil. by destruct self.
Qed.

Lemma obj_read_nothing (self : TurtleSentTwo.PostOffice) user n box :
  TurtleSentTwo.boxes self !! user = Some box →
  TurtleSentTwo.unread self box = [] →
  TurtleSentTwo.read_inbox user n self = (Return [], self).
Proof.
  intros Hb Hu. rewrite (obj_read_inbox_eq _ _ _ _ Hb).
  unfold TurtleSentTwo.selected. rewrite Hu, limit_nil. by destruct self.
Qed.

Lemma dict_read_boxes (self : TurtleSent.PostOffice) user n :
  TurtleSent.boxes (TurtleSent.read_inbox user n self).2 = TurtleSent.boxes self.
Proof.
  unfold TurtleSent.read_inbox. by destruct (TurtleSent.boxes self !! user).
Qed.

Lemma obj_read_boxes (self : TurtleSentTwo.PostOffice) user n :
  TurtleSentTwo.boxes (TurtleSentTwo.read_inbox user n self).2
  = TurtleSentTwo.boxes self.
Proof.
  unfold TurtleSentTwo.read_inbox. by destruct (TurtleSentTwo.boxes self !! user).
Qed.

Lemma dict_picked_after_read (self : TurtleSent.PostOffice) user n box :
  TurtleSent.wf self →
  TurtleSent.boxes self !! user = Some box →
  TurtleSent.deref (TurtleSent.read_inbox user n self).2
    (TurtleSent.selected self box n)
  = TurtleSent.setitem_read true
    <$> TurtleSent.deref self (TurtleSent.selected self box n).
Proof.
  intros Hwf Hb. rewrite (dict_read_inbox_eq _ _ _ _ Hwf Hb).
  destruct Hwf as (_ & _ & Hwf). unfold TurtleSent.deref. cbn [snd TurtleSent.heap].
  rewrite <- list_fmap_compose.
  apply (picked_after_mark (TurtleSent.setitem_read true)); [done|].
  intros l [Hl _]%dict_selected_box. by eapply (wf_alloc _ _ _ _ Hwf).
Qed.

Lemma obj_picked_after_read (self : TurtleSentTwo.PostOffice) user n box :
  TurtleSentTwo.wf self →
  TurtleSentTwo.boxes self !! user = Some box →
  TurtleSentTwo.deref (TurtleSentTwo.read_inbox user n self).2
    (TurtleSentTwo.selected self box n)
  = TurtleSentTwo.Message.set_read true
    <$> TurtleSentTwo.deref self (TurtleSentTwo.selected self box n).
Proof.
  intros Hwf Hb. rewrite (obj_read_inbox_eq _ _ _ _ Hb).
  destruct Hwf as (_ & Hwf). unfold TurtleSentTwo.deref.
  cbn [snd TurtleSentTwo.heap]. rewrite <- list_fmap_compose.
  apply (picked_after_mark (TurtleSentTwo.Message.set_read true)); [done|].
  intros l [Hl _]%obj_selected_box. by eapply (wf_alloc _ _ _ _ Hwf).
Qed.

(** What [read_inbox] of [turtle_sent_two.py] gives back: the details of
    the picked messages, each with its flag set. *)
Lemma obj_read_inbox_result (self : TurtleSentTwo.PostOffice) user n box :
  TurtleSentTwo.wf self →
  TurtleSentTwo.boxes self !! user = Some box →
  (TurtleSentTwo.read_inbox user n self).1
  = Return ((λ m, TurtleSentTwo.Message.get_details
                    (TurtleSentTwo.Message.set_read true m))
            <$> TurtleSentTwo.deref self (TurtleSentTwo.selected self box n)).
Proof.
  intros Hwf Hb. pose proof (obj_picked_after_read _ _ n _ Hwf Hb) as Hp.
  rewrite (obj_read_inbox_eq _ _ _ _ Hb) in Hp |- *. cbn [fst snd] in *.
  f_equal.
  etransitivity;
    [|by rewrite (list_fmap_compose (TurtleSentTwo.Message.set_read true)
                    TurtleSentTwo.Message.get_details), <- Hp].
  unfold TurtleSentTwo.deref. by rewrite <- list_fmap_compose.
Qed.

Lemma dict_reachable_run cs (self : TurtleSent.PostOffice) :
  TurtleSent.reachable self → TurtleSent.reachable (TurtleSent.run cs self).2.
Proof.
  revert self. induction cs as [|c cs IH]; intros self Hr; [done|].
  rewrite dict_run_cons. cbn [snd]. by apply IH, TurtleSent.reachable_step.
Qed.

Lemma obj_reachable_run cs (self : TurtleSentTwo.PostOffice) :
  TurtleSentTwo.reachable self →
  TurtleSentTwo.reachable (TurtleSentTwo.run cs self).2.
Proof.
  revert self. induction cs as [|c cs IH]; intros self Hr; [done|].
  rewrite obj_run_cons. cbn [snd]. by apply IH, TurtleSentTwo.reachable_step.
Qed.

(** C2: [read_inbox] of a registered user, in a state that calls of the
    methods can lead to.  Every message it picks is a message of the stored
    inbox and has its flag set afterwards.  In [turtle_sent.py] the result
    is the list of the picked dicts themselves, which now read as before
    except that ['read'] is [True]; in [turtle_sent_two.py] it is the list
    of their details, built after the flags were set, so each says
    [Read: True].  When the call picked every unread message ([n <= 0]
    always does), the same call again gives the empty list and changes
    nothing. *)
Theorem read_inbox_destructive
    (s1 : TurtleSent.PostOffice) (s2 : TurtleSentTwo.PostOffice)
    (user : string) (n : Z) (box1 box2 : list loc) :
  TurtleSent.reachable s1 →
  TurtleSentTwo.reachable s2 →
  TurtleSent.boxes s1 !! user = Some box1 →
  TurtleSentTwo.boxes s2 !! user = Some box2 →
  let sel1 := TurtleSent.selected s1 box1 n in
  let s1' := (TurtleSent.read_inbox user n s1).2 in
  let sel2 := TurtleSentTwo.selected s2 box2 n in
  let s2' := (TurtleSentTwo.read_inbox user n s2).2 in
  ((TurtleSent.read_inbox user n s1).1 = Return sel1 ∧
   TurtleSent.boxes s1' !! user = Some box1 ∧
   (∀ l, l ∈ sel1 →
         l ∈ box1 ∧ TurtleSent.msg_read (TurtleSent.heap s1' !!! l) = true) ∧
   TurtleSent.deref s1' sel1
   = TurtleSent.setitem_read true <$> TurtleSent.deref s1 sel1 ∧
   (n ≤ 0 → sel1 = TurtleSent.unread s1 box1) ∧
   (sel1 = TurtleSent.unread s1 box1 →
    TurtleSent.read_inbox user n s1' = (Return [], s1'))) ∧
  ((TurtleSentTwo.read_inbox user n s2).1
   = Return ((λ m, TurtleSentTwo.Message.get_details
                     (TurtleSentTwo.Message.set_read true m))
             <$> TurtleSentTwo.deref s2 sel2) ∧
   TurtleSentTwo.boxes s2' !! user = Some box2 ∧
   (∀ l, l ∈ sel2 →
         l ∈ box2 ∧
         TurtleSentTwo.Message.message_read (TurtleSentTwo.heap s2' !!! l) = true) ∧
   (n ≤ 0 → sel2 = TurtleSentTwo.unread s2 box2) ∧
   (sel2 = TurtleSentTwo.unread s2 box2 →
    TurtleSentTwo.read_inbox user n s2' = (Return [], s2'))).
Proof.
  intros Hr1%dict_reachable_wf Hr2%obj_reachable_wf Hb1 Hb2 sel1 s1' sel2 s2'.
  split.
  - assert (Hb1' : TurtleSent.boxes s1' !! user = Some box1).
    { unfold s1'. by rewrite dict_read_boxes. }
    pose proof (dict_picked_after_read _ _ n _ Hr1 Hb1) as Hp.
    split_and!; try done.
    + by rewrite (dict_read_inbox_eq _ _ _ _ Hr1 Hb1).
    + intros l Hl. split; [by apply dict_selected_box in Hl as [? _]|].
      apply list_elem_of_lookup in Hl as [i Hi].
      apply (f_equal (λ ms, TurtleSent.msg_read <$> ms !! i)) in Hp.
      unfold TurtleSent.deref in Hp. fold sel1 s1' in Hp.
      rewrite !list_lookup_fmap, Hi in Hp. simpl in Hp. congruence.
    + intros Hn. unfold sel1, TurtleSent.selected, limit.
      by rewrite bool_decide_eq_false_2 by lia.
    + intros Hall. apply (dict_read_nothing _ _ _ box1); [|done|].
      * by apply dict_wf_read.
      * unfold s1'. rewrite (dict_unread_after_read _ _ _ _ Hr1 Hb1).
        fold sel1. rewrite <- Hall. apply filter_none. intros l Hl Hn. by apply Hn.
  - assert (Hb2' : TurtleSentTwo.boxes s2' !! user = Some box2).
    { unfold s2'. by rewrite obj_read_boxes. }
    pose proof (obj_picked_after_read _ _ n _ Hr2 Hb2) as Hp.
    split_and!; try done.
    + by apply obj_read_inbox_result.
    + intros l Hl. split; [by apply obj_selected_box in Hl as [? _]|].
      apply list_elem_of_lookup in Hl as [i Hi].
      apply (f_equal (λ ms, TurtleSentTwo.Message.message_read <$> ms !! i)) in Hp.
      unfold TurtleSentTwo.deref in Hp. fold sel2 s2' in Hp.
      rewrite !list_lookup_fmap, Hi in Hp. simpl in Hp. congruence.
    + intros Hn. unfold sel2, TurtleSentTwo.selected, limit.
      by rewrite bool_decide_eq_false_2 by lia.
    + intros Hall. apply (obj_read_nothing _ _ _ box2); [done|].
      unfold s2'. rewrite (obj_unread_after_read _ _ _ _ Hr2 Hb2).
      fold sel2. rewrite <- Hall. apply filter_none. intros l Hl Hn. by apply Hn.
Qed.

Lemma read_inbox_destructive_witness :
  let s1 := (TurtleSent.run show_example_sends (TurtleSent.__init__ users).2).2 in
  let s2 := (TurtleSentTwo.run show_example_sends (TurtleSentTwo.__init__ users).2).2 in
  let s1' := (TurtleSent.read_inbox "Newman" 0 s1).2 in
  let s2' := (TurtleSentTwo.read_inbox "Newman" 0 s2).2 in
  (TurtleSent.reachable s1 ∧ TurtleSentTwo.reachable s2 ∧
   TurtleSent.boxes s1 !! "Newman" = Some [1; 2; 3]%positive ∧
   TurtleSentTwo.boxes s2 !! "Newman" = Some [1; 2; 3]%positive) ∧
  ((TurtleSent.read_inbox "Newman" 0 s1).1 = Return [1; 2; 3]%positive ∧
   TurtleSent.deref s1' [1; 2; 3]%positive
   = [ TurtleSent.mk_details 1 "Hello, Newman." "Mr. Peanutbutter" true;
       TurtleSent.mk_details 2 "Hello world, Newman." "Mr. Peanutbutter" true;
       TurtleSent.mk_details 3 "Good bye, Newman." "Mr. Peanutbutter" true ] ∧
   TurtleSent.read_inbox "Newman" 0 s1' = (Return [], s1')) ∧
  ((TurtleSentTwo.read_inbox "Newman" 0 s2).1
   = Return
       [ {[ "Id: 1, Body: Hello, Newman., Sender: Mr. Peanutbutter, Read: True" ]};
         {[ "Id: 2, Body: Hello world, Newman., Sender: Mr. Peanutbutter, Read: True" ]};
         {[ "Id: 3, Body: Good bye, Newman., Sender: Mr. Peanutbutter, Read: True" ]} ] ∧
   TurtleSentTwo.read_inbox "Newman" 0 s2' = (Return [], s2')).
Proof.
  intros s1 s2 s1' s2'.
  assert (Hr1 : TurtleSent.reachable s1)
    by apply dict_reachable_run, TurtleSent.reachable_init.
  assert (Hr2 : TurtleSentTwo.reachable s2)
    by apply obj_reachable_run, TurtleSentTwo.reachable_init.
  assert (Hb1 : TurtleSent.boxes s1 !! "Newman" = Some [1; 2; 3]%positive)
    by (vm_compute; reflexivity).
  assert (Hb2 : TurtleSentTwo.boxes s2 !! "Newman" = Some [1; 2; 3]%positive)
    by (vm_compute; reflexivity).
  split; [by split_and!|].
  pose proof (read_inbox_destructive s1 s2 "Newman" 0 _ _ Hr1 Hr2 Hb1 Hb2)
    as [(Ha & _ & _ & Hd & Hall & Hagain) (Hres & _ & _ & Hall2 & Hagain2)].
  split.
  - split_and!.
    + rewrite Ha. reflexivity.
    + etransitivity; [exact Hd|]. reflexivity.
    + apply Hagain, Hall. lia.
  - split.
    + rewrite Hres. reflexivity.
    + apply Hagain2, Hall2. lia.
Defined.

Lemma unpicked {A : Type} `{EqDecision A} (n : Z) (u : list A) :
  NoDup u →
  filter (λ l, l ∉ limit n u) u
  = if bool_decide (n > 0) then drop (Z.to_nat n) u else [].
Proof.
  intros Hnd. unfold limit, slice_to. case_bool_decide.
  - by apply filter_not_in_take.
  - apply filter_none. intros l Hl Hn. by apply Hn.
Qed.

Lemma dict_unread_NoDup (self : TurtleSent.PostOffice) user box :
  TurtleSent.wf self →
  TurtleSent.boxes self !! user = Some box →
  NoDup (TurtleSent.unread self box).
Proof.
  intros (_ & _ & Hwf) Hb. apply NoDup_filter. by eapply (wf_nodup _ _ _ _ Hwf).
Qed.

Lemma obj_unread_NoDup (self : TurtleSentTwo.PostOffice) user box :
  TurtleSentTwo.wf self →
  TurtleSentTwo.boxes self !! user = Some box →
  NoDup (TurtleSentTwo.unread self box).
Proof.
  intros (_ & Hwf) Hb. apply NoDup_filter. by eapply (wf_nodup _ _ _ _ Hwf).
Qed.

Lemma dict_read_heap (self : TurtleSent.PostOffice) user n box l m :
  TurtleSent.wf self →
  TurtleSent.boxes self !! user = Some box →
  TurtleSent.heap self !! l = Some m →
  TurtleSent.heap (TurtleSent.read_inbox user n self).2 !! l
  = Some (if decide (l ∈ TurtleSent.selected self box n)
          then TurtleSent.setitem_read true m else m).
Proof.
  intros Hwf Hb Hl. rewrite (dict_read_inbox_eq _ _ _ _ Hwf Hb).
  cbn [snd TurtleSent.heap]. rewrite dict_mark_read_lookup, Hl.
  simpl. by case_decide.
Qed.

Lemma obj_read_heap (self : TurtleSentTwo.PostOffice) user n box l m :
  TurtleSentTwo.boxes self !! user = Some box →
  TurtleSentTwo.heap self !! l = Some m →
  TurtleSentTwo.heap (TurtleSentTwo.read_inbox user n self).2 !! l
  = Some (if decide (l ∈ TurtleSentTwo.selected self box n)
          then TurtleSentTwo.Message.set_read true m else m).
Proof.
  intros Hb Hl. rewrite (obj_read_inbox_eq _ _ _ _ Hb).
  cbn [snd TurtleSentTwo.heap]. rewrite obj_mark_read_lookup, Hl.
  simpl. by case_decide.
Qed.

(** The inbox after [read_inbox], seen with every flag set, is the inbox
    before seen the same way: nothing but flags has changed. *)
Lemma obj_read_deref_flagged (self : TurtleSentTwo.PostOffice) user n box ls :
  TurtleSentTwo.wf self →
  TurtleSentTwo.boxes self !! user = Some box →
  (∀ l, l ∈ ls → l ∈ box) →
  TurtleSentTwo.Message.set_read true
  <$> TurtleSentTwo.deref (TurtleSentTwo.read_inbox user n self).2 ls
  = TurtleSentTwo.Message.set_read true <$> TurtleSentTwo.deref self ls.
Proof.
  intros Hwf Hb Hls. unfold TurtleSentTwo.deref. rewrite <- !list_fmap_compose.
  apply list_fmap_ext. intros i l Hl%list_elem_of_lookup_2. simpl.
  destruct Hwf as (_ & Hwf).
  destruct (wf_alloc _ _ _ _ Hwf _ _ _ Hb (Hls l Hl)) as [m Hm].
  rewrite (lookup_total_correct _ _ _ (obj_read_heap _ _ n _ _ _ Hb Hm)).
  rewrite (lookup_total_correct _ _ _ Hm). by case_decide.
Qed.

(** C4: [read_inbox] of a registered user picks the first
    [number_of_message] unread messages of the inbox, in inbox order, when
    that number is above zero, and all unread messages otherwise.  It sets
    the flag of the picked messages and leaves every other stored message
    as it was.  A following [read_inbox(user, 0)] gives the unread messages
    that the first call left out: with the unread messages [A, B, C] and
    the number 1 the first call gives [A] and the second [B, C]. *)
Theorem read_inbox_limit
    (s1 : TurtleSent.PostOffice) (s2 : TurtleSentTwo.PostOffice)
    (user : string) (n : Z) (box1 box2 : list loc) :
  TurtleSent.reachable s1 →
  TurtleSentTwo.reachable s2 →
  TurtleSent.boxes s1 !! user = Some box1 →
  TurtleSentTwo.boxes s2 !! user = Some box2 →
  let u1 := TurtleSent.unread s1 box1 in
  let sel1 := if bool_decide (n > 0) then take (Z.to_nat n) u1 else u1 in
  let s1' := (TurtleSent.read_inbox user n s1).2 in
  let u2 := TurtleSentTwo.unread s2 box2 in
  let sel2 := if bool_decide (n > 0) then take (Z.to_nat n) u2 else u2 in
  let s2' := (TurtleSentTwo.read_inbox user n s2).2 in
  let details m :=
    TurtleSentTwo.Message.get_details (TurtleSentTwo.Message.set_read true m) in
  ((TurtleSent.read_inbox user n s1).1 = Return sel1 ∧
   (∀ l m, TurtleSent.heap s1 !! l = Some m →
           TurtleSent.heap s1' !! l
           = Some (if decide (l ∈ sel1) then TurtleSent.setitem_read true m else m)) ∧
   (TurtleSent.read_inbox user 0 s1').1
   = Return (if bool_decide (n > 0) then drop (Z.to_nat n) u1 else [])) ∧
  ((TurtleSentTwo.read_inbox user n s2).1
   = Return (details <$> TurtleSentTwo.deref s2 sel2) ∧
   (∀ l m, TurtleSentTwo.heap s2 !! l = Some m →
           TurtleSentTwo.heap s2' !! l
           = Some (if decide (l ∈ sel2)
                   then TurtleSentTwo.Message.set_read true m else m)) ∧
   (TurtleSentTwo.read_inbox user 0 s2').1
   = Return (details
             <$> TurtleSentTwo.deref s2
                   (if bool_decide (n > 0) then drop (Z.to_nat n) u2 else []))).
Proof.
  intros Hr1%dict_reachable_wf Hr2%obj_reachable_wf Hb1 Hb2.
  intros u1 sel1 s1' u2 sel2 s2' details.
  change sel1 with (TurtleSent.selected s1 box1 n).
  change sel2 with (TurtleSentTwo.selected s2 box2 n).
  split.
  - split_and!.
    + by rewrite (dict_read_inbox_eq _ _ _ _ Hr1 Hb1).
    + intros l m Hl. by apply dict_read_heap.
    + assert (Hwf' : TurtleSent.wf s1') by by apply dict_wf_read.
      assert (Hb1' : TurtleSent.boxes s1' !! user = Some box1).
      { unfold s1'. by rewrite dict_read_boxes. }
      rewrite (dict_read_inbox_eq _ _ _ _ Hwf' Hb1'). cbn [fst]. f_equal.
      unfold TurtleSent.selected at 1, limit at 1.
      rewrite bool_decide_eq_false_2 by lia.
      unfold s1'. rewrite (dict_unread_after_read _ _ _ _ Hr1 Hb1).
      apply unpicked. by eapply dict_unread_NoDup.
  - split_and!.
    + by apply obj_read_inbox_result.
    + intros l m Hl. by apply obj_read_heap.
    + assert (Hwf' : TurtleSentTwo.wf s2') by by apply obj_wf_read.
      assert (Hb2' : TurtleSentTwo.boxes s2' !! user = Some box2).
      { unfold s2'. by rewrite obj_read_boxes. }
      rewrite (obj_read_inbox_result _ _ _ _ Hwf' Hb2'). f_equal.
      assert (Hsel : TurtleSentTwo.selected s2' box2 0
                     = if bool_decide (n > 0) then drop (Z.to_nat n) u2 else []).
      { unfold TurtleSentTwo.selected at 1, limit at 1.
        rewrite bool_decide_eq_false_2 by lia.
        unfold s2'. rewrite (obj_unread_after_read _ _ _ _ Hr2 Hb2).
        apply unpicked. by eapply obj_unread_NoDup. }
      rewrite Hsel. unfold details.
      rewrite !(list_fmap_compose (TurtleSentTwo.Message.set_read true)
                  TurtleSentTwo.Message.get_details).
      f_equal. apply (obj_read_deref_flagged _ _ _ box2); [done | done |].
      intros l Hl.
      assert (l ∈ u2) as Hu.
      { case_bool_decide; [by eapply subseteq_drop | by apply elem_of_nil in Hl]. }
      apply list_elem_of_filter in Hu. tauto.
Qed.

Lemma read_inbox_limit_witness :
  let s1 := (TurtleSent.run show_example_sends (TurtleSent.__init__ users).2).2 in
  let s2 := (TurtleSentTwo.run show_example_sends (TurtleSentTwo.__init__ users).2).2 in
  let s1' := (TurtleSent.read_inbox "Newman" 1 s1).2 in
  let s2' := (TurtleSentTwo.read_inbox "Newman" 1 s2).2 in
  (TurtleSent.reachable s1 ∧ TurtleSentTwo.reachable s2 ∧
   TurtleSent.boxes s1 !! "Newman" = Some [1; 2; 3]%positive ∧
   TurtleSentTwo.boxes s2 !! "Newman" = Some [1; 2; 3]%positive) ∧
  ((TurtleSent.read_inbox "Newman" 1 s1).1 = Return [1]%positive ∧
   (TurtleSent.read_inbox "Newman" 0 s1').1 = Return [2; 3]%positive) ∧
  ((TurtleSentTwo.read_inbox "Newman" 1 s2).1
   = Return
       [ {[ "Id: 1, Body: Hello, Newman., Sender: Mr. Peanutbutter, Read: True" ]} ] ∧
   (TurtleSentTwo.read_inbox "Newman" 0 s2').1
   = Return
       [ {[ "Id: 2, Body: Hello world, Newman., Sender: Mr. Peanutbutter, Read: True" ]};
         {[ "Id: 3, Body: Good bye, Newman., Sender: Mr. Peanutbutter, Read: True" ]} ]).
Proof.
  intros s1 s2 s1' s2'.
  assert (Hr1 : TurtleSent.reachable s1)
    by apply dict_reachable_run, TurtleSent.reachable_init.
  assert (Hr2 : TurtleSentTwo.reachable s2)
    by apply obj_reachable_run, TurtleSentTwo.reachable_init.
  assert (Hb1 : TurtleSent.boxes s1 !! "Newman" = Some [1; 2; 3]%positive)
    by (vm_compute; reflexivity).
  assert (Hb2 : TurtleSentTwo.boxes s2 !! "Newman" = Some [1; 2; 3]%positive)
    by (vm_compute; reflexivity).
  split; [by split_and!|].
  pose proof (read_inbox_limit s1 s2 "Newman" 1 _ _ Hr1 Hr2 Hb1 Hb2)
    as [(Ha & _ & Hnext) (Hres & _ & Hnext2)].
  split; split.
  - rewrite Ha. reflexivity.
  - etransitivity; [exact Hnext|]. reflexivity.
  - rewrite Hres. reflexivity.
  - etransitivity; [exact Hnext2|]. reflexivity.
Defined.

(** ** Sending *)

Section dict_send.
Import TurtleSent.
Context (self : PostOffice) (sender recipient message_body : string)
  (urgent : bool).
Local Abbreviation self' :=
  (send_message sender recipient message_body urgent self).2.

Lemma dict_send_heap_old (l : loc) :
  is_Some (heap self !! l) → heap self' !! l = heap self !! l.
Proof.
  intros [m Hm]. unfold send_message.
  destruct (boxes self !! recipient); [|done]. simpl.
  apply lookup_insert_ne. intros <-. by rewrite new_fresh in Hm.
Qed.

Lemma dict_send_deref_old (ls : list loc) :
  (∀ l, l ∈ ls → is_Some (heap self !! l)) → deref self' ls = deref self ls.
Proof.
  intros Hls. apply list_fmap_ext. intros i l Hl%list_elem_of_lookup_2.
  by rewrite !lookup_total_alt, dict_send_heap_old by auto.
Qed.

Lemma dict_send_other (user : string) :
  user ≠ recipient → boxes self' !! user = boxes self !! user.
Proof.
  intros Hne. unfold send_message.
  destruct (boxes self !! recipient); [|done]. simpl.
  by apply lookup_insert_ne.
Qed.

Lemma dict_send_box (box : list loc) :
  boxes self !! recipient = Some box →
  boxes self' !! recipient
  = Some (if urgent then new (heap self) :: box else box ++ [new (heap self)]).
Proof.
  intros Hb. unfold send_message. rewrite Hb. simpl.
  apply lookup_insert_eq.
Qed.

Lemma dict_send_new (box : list loc) :
  read self = false →
  boxes self !! recipient = Some box →
  heap self' !!! new (heap self)
  = mk_details (message_id self + 1) message_body sender false.
Proof.
  intros Hr Hb. unfold send_message. rewrite Hb, Hr. simpl.
  apply lookup_total_insert_eq.
Qed.

Lemma dict_send_mailbox (box : list loc) :
  wf self →
  boxes self !! recipient = Some box →
  mailbox self' recipient
  = Some (let m := mk_details (message_id self + 1) message_body sender false in
          if urgent then m :: deref self box else deref self box ++ [m]).
Proof.
  intros (Hr & _ & Hwf) Hb. unfold mailbox.
  rewrite (dict_send_box _ Hb). simpl. f_equal.
  assert (Hold : deref self' box = deref self box).
  { apply dict_send_deref_old. intros l Hl. by eapply (wf_alloc _ _ _ _ Hwf). }
  pose proof (dict_send_new _ Hr Hb) as Hnew.
  destruct urgent; unfold deref in *.
  - by rewrite fmap_cons, Hold, Hnew.
  - by rewrite fmap_app, Hold, fmap_cons, Hnew.
Qed.

Lemma dict_send_unread_old (ls : list loc) :
  (∀ l, l ∈ ls → is_Some (heap self !! l)) → unread self' ls = unread self ls.
Proof.
  intros Hls. apply filter_ext_elem. intros l Hl.
  by rewrite !lookup_total_alt, dict_send_heap_old by auto.
Qed.

End dict_send.

Section obj_send.
Import TurtleSentTwo.
Context (self : PostOffice) (sender recipient message_body : string)
  (urgent : bool).
Local Abbreviation self' :=
  (send_message sender recipient message_body urgent self).2.

Lemma obj_send_heap_old (l : loc) :
  is_Some (heap self !! l) → heap self' !! l = heap self !! l.
Proof.
  intros [m Hm]. unfold send_message.
  destruct (boxes self !! recipient); [|done]. simpl.
  apply lookup_insert_ne. intros <-. by rewrite new_fresh in Hm.
Qed.

Lemma obj_send_deref_old (ls : list loc) :
  (∀ l, l ∈ ls → is_Some (heap self !! l)) → deref self' ls = deref self ls.
Proof.
  intros Hls. apply list_fmap_ext. intros i l Hl%list_elem_of_lookup_2.
  by rewrite !lookup_total_alt, obj_send_heap_old by auto.
Qed.

Lemma obj_send_other (user : string) :
  user ≠ recipient → boxes self' !! user = boxes self !! user.
Proof.
  intros Hne. unfold send_message.
  destruct (boxes self !! recipient); [|done]. simpl.
  by apply lookup_insert_ne.
Qed.

Lemma obj_send_box (box : list loc) :
  boxes self !! recipient = Some box →
  boxes self' !! recipient
  = Some (if urgent then new (heap self) :: box else box ++ [new (heap self)]).
Proof.
  intros Hb. unfold send_message. rewrite Hb. simpl.
  apply lookup_insert_eq.
Qed.

Lemma obj_send_new (box : list loc) :
  boxes self !! recipient = Some box →
  heap self' !!! new (heap self)
  = Message.mk (message_id self + 1) message_body sender false.
Proof.
  intros Hb. unfold send_message. rewrite Hb. simpl.
  apply lookup_total_insert_eq.
Qed.

Lemma obj_send_mailbox (box : list loc) :
  wf self →
  boxes self !! recipient = Some box →
  mailbox self' recipient
  = Some (let m := Message.mk (message_id self + 1) message_body sender false in
          if urgent then m :: deref self box else deref self box ++ [m]).
Proof.
  intros (_ & Hwf) Hb. unfold mailbox.
  rewrite (obj_send_box _ Hb). simpl. f_equal.
  assert (Hold : deref self' box = deref self box).
  { apply obj_send_deref_old. intros l Hl. by eapply (wf_alloc _ _ _ _ Hwf). }
  pose proof (obj_send_new _ Hb) as Hnew.
  destruct urgent; unfold deref in *.
  - by rewrite fmap_cons, Hold, Hnew.
  - by rewrite fmap_app, Hold, fmap_cons, Hnew.
Qed.

Lemma obj_send_unread_old (ls : list loc) :
  (∀ l, l ∈ ls → is_Some (heap self !! l)) → unread self' ls = unread self ls.
Proof.
  intros Hls. apply filter_ext_elem. intros l Hl.
  by rewrite !lookup_total_alt, obj_send_heap_old by auto.
Qed.

End obj_send.

(** Two urgent messages, then everything unread: the program of the
    urgent-ordering property. *)
Lemma dict_two_urgent_then_read (self : TurtleSent.PostOffice)
    (recipient sender1 body1 sender2 body2 : string) (box : list loc) :
  TurtleSent.wf self →
  TurtleSent.boxes self !! recipient = Some box →
  let p := (TurtleSent.send_message sender1 recipient body1 true ;;
            TurtleSent.send_message sender2 recipient body2 true ;;
            TurtleSent.read_inbox recipient 0) self in
  outcome_map (TurtleSent.deref p.2) p.1
  = Return (TurtleSent.mk_details (TurtleSent.message_id self + 2) body2 sender2 true
            :: TurtleSent.mk_details (TurtleSent.message_id self + 1) body1 sender1 true
            :: (TurtleSent.setitem_read true
                <$> TurtleSent.deref self (TurtleSent.unread self box))).
Proof.
  intros Hwf Hb p.
  set (sA := (TurtleSent.send_message sender1 recipient body1 true self).2).
  set (sB := (TurtleSent.send_message sender2 recipient body2 true sA).2).
  set (lA := new (TurtleSent.heap self)).
  set (lB := new (TurtleSent.heap sA)).
  assert (HwfA : TurtleSent.wf sA) by by apply dict_wf_send.
  assert (HwfB : TurtleSent.wf sB) by by apply dict_wf_send.
  assert (HbA : TurtleSent.boxes sA !! recipient = Some (lA :: box))
    by apply (dict_send_box self sender1 recipient body1 true box Hb).
  assert (HbB : TurtleSent.boxes sB !! recipient = Some (lB :: lA :: box))
    by apply (dict_send_box sA sender2 recipient body2 true _ HbA).
  assert (HidA : TurtleSent.message_id sA = TurtleSent.message_id self + 1).
  { unfold sA. destruct Hwf as (Hr & _).
    by rewrite (dict_send_message_eq _ _ _ _ _ _ Hr Hb). }
  assert (Hp : p = TurtleSent.read_inbox recipient 0 sB).
  { assert (E1 : TurtleSent.send_message sender1 recipient body1 true self
                 = (Return (TurtleSent.message_id self + 1), sA)).
    { unfold sA. destruct Hwf as (Hr & _).
      by rewrite (dict_send_message_eq _ _ _ _ _ _ Hr Hb). }
    assert (E2 : TurtleSent.send_message sender2 recipient body2 true sA
                 = (Return (TurtleSent.message_id sA + 1), sB)).
    { unfold sB. destruct HwfA as (HrA & _).
      by rewrite (dict_send_message_eq _ _ _ _ _ _ HrA HbA). }
    unfold p, bind. by rewrite E1, E2. }
  assert (HallocA : ∀ l, l ∈ lA :: box → is_Some (TurtleSent.heap sA !! l)).
  { intros l Hl. destruct HwfA as (_ & _ & HA). by eapply (wf_alloc _ _ _ _ HA). }
  assert (Halloc : ∀ l, l ∈ box → is_Some (TurtleSent.heap self !! l)).
  { intros l Hl. destruct Hwf as (_ & _ & H0). by eapply (wf_alloc _ _ _ _ H0). }
  assert (HnewA : TurtleSent.heap sA !!! lA
                  = TurtleSent.mk_details (TurtleSent.message_id self + 1)
                      body1 sender1 false).
  { destruct Hwf as (Hr & _). by apply (dict_send_new self _ _ _ _ box). }
  assert (HnewB : TurtleSent.heap sB !!! lB
                  = TurtleSent.mk_details (TurtleSent.message_id self + 2)
                      body2 sender2 false).
  { destruct HwfA as (HrA & _). unfold sB, lB.
    rewrite (dict_send_new sA _ _ _ _ (lA :: box) HrA HbA), HidA.
    f_equal. lia. }
  assert (Hsel : TurtleSent.selected sB (lB :: lA :: box) 0
                 = lB :: lA :: TurtleSent.unread self box).
  { unfold TurtleSent.selected, limit. rewrite bool_decide_eq_false_2 by lia.
    unfold TurtleSent.unread at 1. rewrite filter_cons_True by by rewrite HnewB.
    f_equal. fold (TurtleSent.unread sB (lA :: box)). unfold sB.
    rewrite dict_send_unread_old by done.
    unfold TurtleSent.unread at 1. rewrite filter_cons_True by by rewrite HnewA.
    f_equal. fold (TurtleSent.unread sA box). unfold sA.
    by rewrite dict_send_unread_old. }
  rewrite Hp. pose proof (dict_picked_after_read _ _ 0 _ HwfB HbB) as Hpick.
  rewrite (dict_read_inbox_eq _ _ _ _ HwfB HbB) in Hpick |- *.
  cbn [fst snd outcome_map] in *. rewrite Hpick, Hsel. f_equal.
  unfold TurtleSent.deref at 1. rewrite !fmap_cons, HnewB.
  fold (TurtleSent.deref sB (TurtleSent.unread self box)).
  assert (HderefB : ∀ ls, (∀ l, l ∈ ls → l ∈ lA :: box) →
                          TurtleSent.deref sB ls = TurtleSent.deref sA ls).
  { intros ls Hls. apply dict_send_deref_old. auto. }
  assert (Hu : ∀ l, l ∈ TurtleSent.unread self box → l ∈ box).
  { intros l Hl. apply list_elem_of_filter in Hl. tauto. }
  replace (TurtleSent.heap sB !!! lA) with (TurtleSent.heap sA !!! lA).
  2:{ pose proof (HderefB [lA]) as H1. unfold TurtleSent.deref in H1. simpl in H1.
      symmetry. injection H1; [done | set_solver]. }
  rewrite HnewA, HderefB by set_solver.
  unfold sA. rewrite dict_send_deref_old by auto. done.
Qed.

Lemma obj_two_urgent_then_read (self : TurtleSentTwo.PostOffice)
    (recipient sender1 body1 sender2 body2 : string) (box : list loc) :
  TurtleSentTwo.wf self →
  TurtleSentTwo.boxes self !! recipient = Some box →
  ((TurtleSentTwo.send_message sender1 recipient body1 true ;;
    TurtleSentTwo.send_message sender2 recipient body2 true ;;
    TurtleSentTwo.read_inbox recipient 0) self).1
  = Return (TurtleSentTwo.Message.get_details
            <$> (TurtleSentTwo.Message.mk (TurtleSentTwo.message_id self + 2)
                   body2 sender2 true
                 :: TurtleSentTwo.Message.mk (TurtleSentTwo.message_id self + 1)
                      body1 sender1 true
                 :: (TurtleSentTwo.Message.set_read true
                     <$> TurtleSentTwo.deref self (TurtleSentTwo.unread self box)))).
Proof.
  intros Hwf Hb.
  set (sA := (TurtleSentTwo.send_message sender1 recipient body1 true self).2).
  set (sB := (TurtleSentTwo.send_message sender2 recipient body2 true sA).2).
  set (lA := new (TurtleSentTwo.heap self)).
  set (lB := new (TurtleSentTwo.heap sA)).
  assert (HwfA : TurtleSentTwo.wf sA) by by apply obj_wf_send.
  assert (HwfB : TurtleSentTwo.wf sB) by by apply obj_wf_send.
  assert (HbA : TurtleSentTwo.boxes sA !! recipient = Some (lA :: box))
    by apply (obj_send_box self sender1 recipient body1 true box Hb).
  assert (HbB : TurtleSentTwo.boxes sB !! recipient = Some (lB :: lA :: box))
    by apply (obj_send_box sA sender2 recipient body2 true _ HbA).
  assert (E1 : TurtleSentTwo.send_message sender1 recipient body1 true self
               = (Return (TurtleSentTwo.message_id self + 1), sA)).
  { unfold sA. by rewrite (obj_send_message_eq _ _ _ _ _ _ Hb). }
  assert (E2 : TurtleSentTwo.send_message sender2 recipient body2 true sA
               = (Return (TurtleSentTwo.message_id sA + 1), sB)).
  { unfold sB. by rewrite (obj_send_message_eq _ _ _ _ _ _ HbA). }
  assert (HidA : TurtleSentTwo.message_id sA = TurtleSentTwo.message_id self + 1).
  { unfold sA. by rewrite (obj_send_message_eq _ _ _ _ _ _ Hb). }
  assert (HallocA : ∀ l, l ∈ lA :: box → is_Some (TurtleSentTwo.heap sA !! l)).
  { intros l Hl. destruct HwfA as (_ & HA). by eapply (wf_alloc _ _ _ _ HA). }
  assert (Halloc : ∀ l, l ∈ box → is_Some (TurtleSentTwo.heap self !! l)).
  { intros l Hl. destruct Hwf as (_ & H0). by eapply (wf_alloc _ _ _ _ H0). }
  assert (HnewA : TurtleSentTwo.heap sA !!! lA
                  = TurtleSentTwo.Message.mk (TurtleSentTwo.message_id self + 1)
                      body1 sender1 false)
    by apply (obj_send_new self _ _ _ _ box Hb).
  assert (HnewB : TurtleSentTwo.heap sB !!! lB
                  = TurtleSentTwo.Message.mk (TurtleSentTwo.message_id self + 2)
                      body2 sender2 false).
  { unfold sB, lB. rewrite (obj_send_new sA _ _ _ _ (lA :: box) HbA), HidA.
    f_equal. lia. }
  assert (Hsel : TurtleSentTwo.selected sB (lB :: lA :: box) 0
                 = lB :: lA :: TurtleSentTwo.unread self box).
  { unfold TurtleSentTwo.selected, limit. rewrite bool_decide_eq_false_2 by lia.
    unfold TurtleSentTwo.unread at 1. rewrite filter_cons_True by by rewrite HnewB.
    f_equal. fold (TurtleSentTwo.unread sB (lA :: box)). unfold sB.
    rewrite obj_send_unread_old by done.
    unfold TurtleSentTwo.unread at 1. rewrite filter_cons_True by by rewrite HnewA.
    f_equal. fold (TurtleSentTwo.unread sA box). unfold sA.
    by rewrite obj_send_unread_old. }
  unfold bind. rewrite E1, E2.
  rewrite (obj_read_inbox_result _ _ _ _ HwfB HbB), Hsel. f_equal.
  assert (HderefB : ∀ ls, (∀ l, l ∈ ls → l ∈ lA :: box) →
                          TurtleSentTwo.deref sB ls = TurtleSentTwo.deref sA ls).
  { intros ls Hls. apply obj_send_deref_old. auto. }
  assert (Hu : ∀ l, l ∈ TurtleSentTwo.unread self box → l ∈ box).
  { intros l Hl. apply list_elem_of_filter in Hl. tauto. }
  unfold TurtleSentTwo.deref at 1. rewrite !fmap_cons, HnewB.
  fold (TurtleSentTwo.deref sB (TurtleSentTwo.unread self box)).
  replace (TurtleSentTwo.heap sB !!! lA) with (TurtleSentTwo.heap sA !!! lA).
  2:{ pose proof (HderefB [lA]) as H1. unfold TurtleSentTwo.deref in H1.
      simpl in H1. symmetry. injection H1; [done | set_solver]. }
  rewrite HnewA, HderefB by set_solver.
  unfold sA. rewrite obj_send_deref_old by auto.
  simpl. do 2 f_equal. by rewrite <- list_fmap_compose.
Qed.

(** C3: in a state that calls of the methods can lead to, an urgent
    [send_message] puts the new, unread message at position 0 of the
    recipient's inbox and a non-urgent one at its end.  So after two urgent
    messages to the same recipient, a [read_inbox] without a limit gives
    the second one first, the first one second, and then what was unread
    before. *)
Theorem urgent_messages_go_first
    (s1 : TurtleSent.PostOffice) (s2 : TurtleSentTwo.PostOffice)
    (recipient sender1 body1 sender2 body2 : string) (box1 box2 : list loc) :
  TurtleSent.reachable s1 →
  TurtleSentTwo.reachable s2 →
  TurtleSent.boxes s1 !! recipient = Some box1 →
  TurtleSentTwo.boxes s2 !! recipient = Some box2 →
  let c1 := TurtleSent.message_id s1 in
  let c2 := TurtleSentTwo.message_id s2 in
  (TurtleSent.mailbox (TurtleSent.send_message sender1 recipient body1 true s1).2
     recipient
   = Some (TurtleSent.mk_details (c1 + 1) body1 sender1 false
           :: TurtleSent.deref s1 box1) ∧
   TurtleSent.mailbox (TurtleSent.send_message sender1 recipient body1 false s1).2
     recipient
   = Some (TurtleSent.deref s1 box1
           ++ [TurtleSent.mk_details (c1 + 1) body1 sender1 false]) ∧
   let p := (TurtleSent.send_message sender1 recipient body1 true ;;
             TurtleSent.send_message sender2 recipient body2 true ;;
             TurtleSent.read_inbox recipient 0) s1 in
   outcome_map (TurtleSent.deref p.2) p.1
   = Return (TurtleSent.mk_details (c1 + 2) body2 sender2 true
             :: TurtleSent.mk_details (c1 + 1) body1 sender1 true
             :: (TurtleSent.setitem_read true
                 <$> TurtleSent.deref s1 (TurtleSent.unread s1 box1)))) ∧
  (TurtleSentTwo.mailbox
     (TurtleSentTwo.send_message sender1 recipient body1 true s2).2 recipient
   = Some (TurtleSentTwo.Message.mk (c2 + 1) body1 sender1 false
           :: TurtleSentTwo.deref s2 box2) ∧
   TurtleSentTwo.mailbox
     (TurtleSentTwo.send_message sender1 recipient body1 false s2).2 recipient
   = Some (TurtleSentTwo.deref s2 box2
           ++ [TurtleSentTwo.Message.mk (c2 + 1) body1 sender1 false]) ∧
   ((TurtleSentTwo.send_message sender1 recipient body1 true ;;
     TurtleSentTwo.send_message sender2 recipient body2 true ;;
     TurtleSentTwo.read_inbox recipient 0) s2).1
   = Return (TurtleSentTwo.Message.get_details
             <$> (TurtleSentTwo.Message.mk (c2 + 2) body2 sender2 true
                  :: TurtleSentTwo.Message.mk (c2 + 1) body1 sender1 true
                  :: (TurtleSentTwo.Message.set_read true
                      <$> TurtleSentTwo.deref s2 (TurtleSentTwo.unread s2 box2))))).
Proof.
  intros Hr1%dict_reachable_wf Hr2%obj_reachable_wf Hb1 Hb2 c1 c2. split.
  - split_and!.
    + by rewrite (dict_send_mailbox _ _ _ _ _ box1).
    + by rewrite (dict_send_mailbox _ _ _ _ _ box1).
    + by apply dict_two_urgent_then_read.
  - split_and!.
    + by rewrite (obj_send_mailbox _ _ _ _ _ box2).
    + by rewrite (obj_send_mailbox _ _ _ _ _ box2).
    + by apply obj_two_urgent_then_read.
Qed.

Lemma urgent_messages_go_first_witness :
  let s1 := (TurtleSent.run show_example_sends (TurtleSent.__init__ users).2).2 in
  let s2 := (TurtleSentTwo.run show_example_sends (TurtleSentTwo.__init__ users).2).2 in
  let p1 := (TurtleSent.send_message "Newman" "Newman" "U1" true ;;
             TurtleSent.send_message "Kramer" "Newman" "U2" true ;;
             TurtleSent.read_inbox "Newman" 0) s1 in
  let p2 := (TurtleSentTwo.send_message "Newman" "Newman" "U1" true ;;
             TurtleSentTwo.send_message "Kramer" "Newman" "U2" true ;;
             TurtleSentTwo.read_inbox "Newman" 0) s2 in
  (TurtleSent.reachable s1 ∧ TurtleSentTwo.reachable s2 ∧
   TurtleSent.boxes s1 !! "Newman" = Some [1; 2; 3]%positive ∧
   TurtleSentTwo.boxes s2 !! "Newman" = Some [1; 2; 3]%positive) ∧
  outcome_map (TurtleSent.deref p1.2) p1.1
  = Return
      [ TurtleSent.mk_details 5 "U2" "Kramer" true;
        TurtleSent.mk_details 4 "U1" "Newman" true;
        TurtleSent.mk_details 1 "Hello, Newman." "Mr. Peanutbutter" true;
        TurtleSent.mk_details 2 "Hello world, Newman." "Mr. Peanutbutter" true;
        TurtleSent.mk_details 3 "Good bye, Newman." "Mr. Peanutbutter" true ] ∧
  p2.1
  = Return
      [ {[ "Id: 5, Body: U2, Sender: Kramer, Read: True" ]};
        {[ "Id: 4, Body: U1, Sender: Newman, Read: True" ]};
        {[ "Id: 1, Body: Hello, Newman., Sender: Mr. Peanutbutter, Read: True" ]};
        {[ "Id: 2, Body: Hello world, Newman., Sender: Mr. Peanutbutter, Read: True" ]};
        {[ "Id: 3, Body: Good bye, Newman., Sender: Mr. Peanutbutter, Read: True" ]} ].
Proof.
  intros s1 s2 p1 p2.
  assert (Hr1 : TurtleSent.reachable s1)
    by apply dict_reachable_run, TurtleSent.reachable_init.
  assert (Hr2 : TurtleSentTwo.reachable s2)
    by apply obj_reachable_run, TurtleSentTwo.reachable_init.
  assert (Hb1 : TurtleSent.boxes s1 !! "Newman" = Some [1; 2; 3]%positive)
    by (vm_compute; reflexivity).
  assert (Hb2 : TurtleSentTwo.boxes s2 !! "Newman" = Some [1; 2; 3]%positive)
    by (vm_compute; reflexivity).
  split; [by split_and!|].
  pose proof (urgent_messages_go_first s1 s2 "Newman" "Newman" "U1" "Kramer" "U2"
                _ _ Hr1 Hr2 Hb1 Hb2) as [(_ & _ & Hp1) (_ & _ & Hp2)].
  split.
  - etransitivity; [exact Hp1|]. reflexivity.
  - etransitivity; [exact Hp2|]. reflexivity.
Defined.

(** ** One call at a time *)

Lemma dict_step_eq c (self : TurtleSent.PostOffice) :
  TurtleSent.step c self
  = match c with
    | SendMessage a r b u =>
        (Sent (TurtleSent.send_message a r b u self).1,
         (TurtleSent.send_message a r b u self).2)
    | ReadInbox u n =>
        (Inbox (TurtleSent.read_inbox u n self).1,
         (TurtleSent.read_inbox u n self).2)
    | SearchInbox u p =>
        (Found (TurtleSent.search_inbox u p self).1,
         (TurtleSent.search_inbox u p self).2)
    end.
Proof.
  destruct c as [a r b u | u n | u p]; simpl.
  - by destruct (TurtleSent.send_message a r b u self).
  - by destruct (TurtleSent.read_inbox u n self).
  - by destruct (TurtleSent.search_inbox u p self).
Qed.

Lemma obj_step_eq c (self : TurtleSentTwo.PostOffice) :
  TurtleSentTwo.step c self
  = match c with
    | SendMessage a r b u =>
        (Sent (TurtleSentTwo.send_message a r b u self).1,
         (TurtleSentTwo.send_message a r b u self).2)
    | ReadInbox u n =>
        (Inbox (TurtleSentTwo.read_inbox u n self).1,
         (TurtleSentTwo.read_inbox u n self).2)
    | SearchInbox u p =>
        (Found (TurtleSentTwo.search_inbox u p self).1,
         (TurtleSentTwo.search_inbox u p self).2)
    end.
Proof.
  destruct c as [a r b u | u n | u p]; simpl.
  - by destruct (TurtleSentTwo.send_message a r b u self).
  - by destruct (TurtleSentTwo.read_inbox u n self).
  - by destruct (TurtleSentTwo.search_inbox u p self).
Qed.

Lemma dict_search_state (self : TurtleSent.PostOffice) user part_message :
  (TurtleSent.search_inbox user part_message self).2 = self.
Proof.
  unfold TurtleSent.search_inbox. by destruct (TurtleSent.boxes self !! user).
Qed.

Lemma obj_search_state (self : TurtleSentTwo.PostOffice) user part_message :
  (TurtleSentTwo.search_inbox user part_message self).2 = self.
Proof.
  unfold TurtleSentTwo.search_inbox. by destruct (TurtleSentTwo.boxes self !! user).
Qed.

Lemma dict_read_unknown (self : TurtleSent.PostOffice) user n :
  TurtleSent.boxes self !! user = None →
  TurtleSent.read_inbox user n self = (Raise (KeyError user), self).
Proof. intros Hb. unfold TurtleSent.read_inbox. by rewrite Hb. Qed.

Lemma obj_read_unknown (self : TurtleSentTwo.PostOffice) user n :
  TurtleSentTwo.boxes self !! user = None →
  TurtleSentTwo.read_inbox user n self = (Raise (KeyError user), self).
Proof. intros Hb. unfold TurtleSentTwo.read_inbox. by rewrite Hb. Qed.

(** C8: one call of any method, in a state that calls of the methods can
    lead to, on a stored message [l].  The message is still stored after
    the call; a flag that was set is still set; and a flag that was not set
    is set afterwards only when the call was a [read_inbox] of a registered
    user that returned normally and picked this very message. *)
Theorem read_flag_one_way
    (s1 : TurtleSent.PostOffice) (s2 : TurtleSentTwo.PostOffice) (c : call)
    (l1 l2 : loc) (m1 : TurtleSent.message_details) (m2 : TurtleSentTwo.Message.t) :
  TurtleSent.reachable s1 →
  TurtleSentTwo.reachable s2 →
  TurtleSent.heap s1 !! l1 = Some m1 →
  TurtleSentTwo.heap s2 !! l2 = Some m2 →
  (∃ m', TurtleSent.heap (TurtleSent.step c s1).2 !! l1 = Some m' ∧
         (TurtleSent.msg_read m1 = true → TurtleSent.msg_read m' = true) ∧
         (TurtleSent.msg_read m1 = false → TurtleSent.msg_read m' = true →
          ∃ user n box,
            c = ReadInbox user n ∧
            TurtleSent.boxes s1 !! user = Some box ∧
            l1 ∈ TurtleSent.selected s1 box n ∧
            (TurtleSent.step c s1).1
            = Inbox (Return (TurtleSent.selected s1 box n)))) ∧
  (∃ m', TurtleSentTwo.heap (TurtleSentTwo.step c s2).2 !! l2 = Some m' ∧
         (TurtleSentTwo.Message.message_read m2 = true →
          TurtleSentTwo.Message.message_read m' = true) ∧
         (TurtleSentTwo.Message.message_read m2 = false →
          TurtleSentTwo.Message.message_read m' = true →
          ∃ user n box,
            c = ReadInbox user n ∧
            TurtleSentTwo.boxes s2 !! user = Some box ∧
            l2 ∈ TurtleSentTwo.selected s2 box n ∧
            (TurtleSentTwo.step c s2).1
            = Inbox (Return ((λ m, TurtleSentTwo.Message.get_details
                                     (TurtleSentTwo.Message.set_read true m))
                             <$> TurtleSentTwo.deref s2
                                   (TurtleSentTwo.selected s2 box n))))).
Proof.
  intros Hr1%dict_reachable_wf Hr2%obj_reachable_wf Hl1 Hl2. split.
  - rewrite dict_step_eq. destruct c as [a r b u | u n | u p]; cbn [fst snd].
    + exists m1. rewrite dict_send_heap_old by eauto. split_and!; [done|done|congruence].
    + destruct (TurtleSent.boxes s1 !! u) as [box|] eqn:Hb.
      * rewrite (dict_read_heap _ _ _ _ _ _ Hr1 Hb Hl1).
        case_decide as Hsel.
        -- eexists. split_and!; [done | done |]. intros _ _.
           exists u, n, box. split_and!; try done.
           by rewrite (dict_read_inbox_eq _ _ _ _ Hr1 Hb).
        -- exists m1. split_and!; [done | done | congruence].
      * rewrite (dict_read_unknown _ _ _ Hb). cbn [snd].
        exists m1. split_and!; [done | done | congruence].
    + rewrite dict_search_state. exists m1. split_and!; [done | done | congruence].
  - rewrite obj_step_eq. destruct c as [a r b u | u n | u p]; cbn [fst snd].
    + exists m2. rewrite obj_send_heap_old by eauto. split_and!; [done|done|congruence].
    + destruct (TurtleSentTwo.boxes s2 !! u) as [box|] eqn:Hb.
      * rewrite (obj_read_heap _ _ _ _ _ _ Hb Hl2).
        case_decide as Hsel.
        -- eexists. split_and!; [done | done |]. intros _ _.
           exists u, n, box. split_and!; try done.
           by rewrite (obj_read_inbox_result _ _ _ _ Hr2 Hb).
        -- exists m2. split_and!; [done | done | congruence].
      * rewrite (obj_read_unknown _ _ _ Hb). cbn [snd].
        exists m2. split_and!; [done | done | congruence].
    + rewrite obj_search_state. exists m2. split_and!; [done | done | congruence].
Qed.

Lemma read_flag_one_way_witness :
  let cs := show_example_sends ++ [ReadInbox "Newman" 1] in
  let s1 := (TurtleSent.run cs (TurtleSent.__init__ users).2).2 in
  let s2 := (TurtleSentTwo.run cs (TurtleSentTwo.__init__ users).2).2 in
  let c := SendMessage "Newman" "Newman" "Hello again." true in
  (TurtleSent.reachable s1 ∧ TurtleSentTwo.reachable s2 ∧
   TurtleSent.heap s1 !! 1%positive
   = Some (TurtleSent.mk_details 1 "Hello, Newman." "Mr. Peanutbutter" true) ∧
   TurtleSentTwo.heap s2 !! 2%positive
   = Some (TurtleSentTwo.Message.mk 2 "Hello world, Newman." "Mr. Peanutbutter"
             false)) ∧
  (∃ m', TurtleSent.heap (TurtleSent.step c s1).2 !! 1%positive = Some m' ∧
         TurtleSent.msg_read m' = true) ∧
  (∃ m', TurtleSentTwo.heap (TurtleSentTwo.step c s2).2 !! 2%positive = Some m' ∧
         TurtleSentTwo.Message.message_read m' = false).
Proof.
  intros cs s1 s2 c.
  assert (Hr1 : TurtleSent.reachable s1)
    by apply dict_reachable_run, TurtleSent.reachable_init.
  assert (Hr2 : TurtleSentTwo.reachable s2)
    by apply obj_reachable_run, TurtleSentTwo.reachable_init.
  assert (Hl1 : TurtleSent.heap s1 !! 1%positive
                = Some (TurtleSent.mk_details 1 "Hello, Newman."
                          "Mr. Peanutbutter" true))
    by (vm_compute; reflexivity).
  assert (Hl2 : TurtleSentTwo.heap s2 !! 2%positive
                = Some (TurtleSentTwo.Message.mk 2 "Hello world, Newman."
                          "Mr. Peanutbutter" false))
    by (vm_compute; reflexivity).
  split; [by split_and!|].
  destruct (read_flag_one_way s1 s2 c _ _ _ _ Hr1 Hr2 Hl1 Hl2)
    as [(m1' & Hm1 & Hkeep & _) (m2' & Hm2 & _ & Hset)].
  split.
  - exists m1'. split; [exact Hm1 | by apply Hkeep].
  - exists m2'. split; [exact Hm2|].
    destruct (TurtleSentTwo.Message.message_read m2') eqn:Hflag; [|done].
    destruct (Hset eq_refl eq_refl) as (user & n & box & Hc & _). discriminate Hc.
Defined.

(** ** What a call leaves alone *)

Lemma dict_read_state_unknown_or_known (self : TurtleSent.PostOffice) user n :
  TurtleSent.message_id (TurtleSent.read_inbox user n self).2
  = TurtleSent.message_id self.
Proof.
  unfold TurtleSent.read_inbox. by destruct (TurtleSent.boxes self !! user).
Qed.

Lemma obj_read_state_unknown_or_known (self : TurtleSentTwo.PostOffice) user n :
  TurtleSentTwo.message_id (TurtleSentTwo.read_inbox user n self).2
  = TurtleSentTwo.message_id self.
Proof.
  unfold TurtleSentTwo.read_inbox. by destruct (TurtleSentTwo.boxes self !! user).
Qed.

Lemma dict_read_heap_cases (self : TurtleSent.PostOffice) user n l m :
  TurtleSent.wf self →
  TurtleSent.heap self !! l = Some m →
  TurtleSent.heap (TurtleSent.read_inbox user n self).2 !! l = Some m ∨
  (TurtleSent.heap (TurtleSent.read_inbox user n self).2 !! l
   = Some (TurtleSent.setitem_read true m) ∧
   ∃ box, TurtleSent.boxes self !! user = Some box ∧ l ∈ box).
Proof.
  intros Hwf Hl. destruct (TurtleSent.boxes self !! user) as [box|] eqn:Hb.
  - rewrite (dict_read_heap _ _ _ _ _ _ Hwf Hb Hl). case_decide as Hsel; [|by left].
    right. split; [done|]. exists box. split; [done|].
    by apply dict_selected_box in Hsel as [? _].
  - rewrite (dict_read_unknown _ _ _ Hb). by left.
Qed.

Lemma obj_read_heap_cases (self : TurtleSentTwo.PostOffice) user n l m :
  TurtleSentTwo.heap self !! l = Some m →
  TurtleSentTwo.heap (TurtleSentTwo.read_inbox user n self).2 !! l = Some m ∨
  (TurtleSentTwo.heap (TurtleSentTwo.read_inbox user n self).2 !! l
   = Some (TurtleSentTwo.Message.set_read true m) ∧
   ∃ box, TurtleSentTwo.boxes self !! user = Some box ∧ l ∈ box).
Proof.
  intros Hl. destruct (TurtleSentTwo.boxes self !! user) as [box|] eqn:Hb.
  - rewrite (obj_read_heap _ _ _ _ _ _ Hb Hl). case_decide as Hsel; [|by left].
    right. split; [done|]. exists box. split; [done|].
    by apply obj_selected_box in Hsel as [? _].
  - rewrite (obj_read_unknown _ _ _ Hb). by left.
Qed.

Lemma dict_send_mailbox_other (self : TurtleSent.PostOffice) a r b u other :
  TurtleSent.wf self →
  other ≠ r →
  TurtleSent.mailbox (TurtleSent.send_message a r b u self).2 other
  = TurtleSent.mailbox self other.
Proof.
  intros (_ & _ & Hwf) Hne. unfold TurtleSent.mailbox.
  rewrite dict_send_other by done.
  destruct (TurtleSent.boxes self !! other) as [box|] eqn:Hb; [|done].
  simpl. f_equal. apply dict_send_deref_old.
  intros l Hl. by eapply (wf_alloc _ _ _ _ Hwf).
Qed.

Lemma obj_send_mailbox_other (self : TurtleSentTwo.PostOffice) a r b u other :
  TurtleSentTwo.wf self →
  other ≠ r →
  TurtleSentTwo.mailbox (TurtleSentTwo.send_message a r b u self).2 other
  = TurtleSentTwo.mailbox self other.
Proof.
  intros (_ & Hwf) Hne. unfold TurtleSentTwo.mailbox.
  rewrite obj_send_other by done.
  destruct (TurtleSentTwo.boxes self !! other) as [box|] eqn:Hb; [|done].
  simpl. f_equal. apply obj_send_deref_old.
  intros l Hl. by eapply (wf_alloc _ _ _ _ Hwf).
Qed.

Lemma dict_read_mailbox_other (self : TurtleSent.PostOffice) user n other :
  TurtleSent.wf self →
  other ≠ user →
  TurtleSent.mailbox (TurtleSent.read_inbox user n self).2 other
  = TurtleSent.mailbox self other.
Proof.
  intros Hwf Hne. unfold TurtleSent.mailbox. rewrite dict_read_boxes.
  destruct (TurtleSent.boxes self !! other) as [box|] eqn:Hb; [|done].
  simpl. f_equal. apply list_fmap_ext. intros i l Hl%list_elem_of_lookup_2.
  pose proof Hwf as (_ & _ & Hs).
  destruct (wf_alloc _ _ _ _ Hs _ _ _ Hb Hl) as [m Hm].
  rewrite !lookup_total_alt, Hm.
  destruct (dict_read_heap_cases _ user n _ _ Hwf Hm)
    as [-> | (_ & box' & Hb' & Hl')]; [done|].
  by destruct Hne, (wf_owner _ _ _ _ Hs _ _ _ _ _ Hb Hb' Hl Hl').
Qed.

Lemma obj_read_mailbox_other (self : TurtleSentTwo.PostOffice) user n other :
  TurtleSentTwo.wf self →
  other ≠ user →
  TurtleSentTwo.mailbox (TurtleSentTwo.read_inbox user n self).2 other
  = TurtleSentTwo.mailbox self other.
Proof.
  intros Hwf Hne. unfold TurtleSentTwo.mailbox. rewrite obj_read_boxes.
  destruct (TurtleSentTwo.boxes self !! other) as [box|] eqn:Hb; [|done].
  simpl. f_equal. apply list_fmap_ext. intros i l Hl%list_elem_of_lookup_2.
  pose proof Hwf as (_ & Hs).
  destruct (wf_alloc _ _ _ _ Hs _ _ _ Hb Hl) as [m Hm].
  rewrite !lookup_total_alt, Hm.
  destruct (obj_read_heap_cases _ user n _ _ Hm)
    as [-> | (_ & box' & Hb' & Hl')]; [done|].
  by destruct Hne, (wf_owner _ _ _ _ Hs _ _ _ _ _ Hb Hb' Hl Hl').
Qed.

Lemma dict_read_dom (self : TurtleSent.PostOffice) user n :
  TurtleSent.wf self →
  dom (TurtleSent.heap (TurtleSent.read_inbox user n self).2)
  = dom (TurtleSent.heap self).
Proof.
  intros Hwf. destruct (TurtleSent.boxes self !! user) as [box|] eqn:Hb.
  - rewrite (dict_read_inbox_eq _ _ _ _ Hwf Hb). cbn [snd TurtleSent.heap].
    apply set_eq. intros l.
    by rewrite !elem_of_dom, dict_mark_read_lookup, fmap_is_Some.
  - by rewrite (dict_read_unknown _ _ _ Hb).
Qed.

Lemma obj_read_dom (self : TurtleSentTwo.PostOffice) user n :
  dom (TurtleSentTwo.heap (TurtleSentTwo.read_inbox user n self).2)
  = dom (TurtleSentTwo.heap self).
Proof.
  destruct (TurtleSentTwo.boxes self !! user) as [box|] eqn:Hb.
  - rewrite (obj_read_inbox_eq _ _ _ _ Hb). cbn [snd TurtleSentTwo.heap].
    apply set_eq. intros l.
    by rewrite !elem_of_dom, obj_mark_read_lookup, fmap_is_Some.
  - by rewrite (obj_read_unknown _ _ _ Hb).
Qed.

(** C10: what one call leaves alone, in a state that calls of the methods
    can lead to.  [send_message] keeps every inbox but the recipient's as
    it was and changes no message that was stored before.  [read_inbox]
    keeps the counter, the lists of all inboxes (nothing is added, removed
    or moved) and the set of stored messages; it keeps every other user's
    inbox as it was, and a stored message is afterwards either as before or
    as before with its flag set, the latter only in the inbox of the named
    user.  [search_inbox] changes nothing. *)
Theorem calls_leave_the_rest_alone
    (s1 : TurtleSent.PostOffice) (s2 : TurtleSentTwo.PostOffice) (c : call)
    (other : string) :
  TurtleSent.reachable s1 →
  TurtleSentTwo.reachable s2 →
  let s1' := (TurtleSent.step c s1).2 in
  let s2' := (TurtleSentTwo.step c s2).2 in
  match c with
  | SendMessage _ recipient _ _ =>
      ((other ≠ recipient →
        TurtleSent.boxes s1' !! other = TurtleSent.boxes s1 !! other ∧
        TurtleSent.mailbox s1' other = TurtleSent.mailbox s1 other) ∧
       (∀ l m, TurtleSent.heap s1 !! l = Some m →
               TurtleSent.heap s1' !! l = Some m)) ∧
      ((other ≠ recipient →
        TurtleSentTwo.boxes s2' !! other = TurtleSentTwo.boxes s2 !! other ∧
        TurtleSentTwo.mailbox s2' other = TurtleSentTwo.mailbox s2 other) ∧
       (∀ l m, TurtleSentTwo.heap s2 !! l = Some m →
               TurtleSentTwo.heap s2' !! l = Some m))
  | ReadInbox user _ =>
      (TurtleSent.message_id s1' = TurtleSent.message_id s1 ∧
       TurtleSent.boxes s1' = TurtleSent.boxes s1 ∧
       dom (TurtleSent.heap s1') = dom (TurtleSent.heap s1) ∧
       (other ≠ user → TurtleSent.mailbox s1' other = TurtleSent.mailbox s1 other) ∧
       (∀ l m, TurtleSent.heap s1 !! l = Some m →
               TurtleSent.heap s1' !! l = Some m ∨
               (TurtleSent.heap s1' !! l = Some (TurtleSent.setitem_read true m) ∧
                ∃ box, TurtleSent.boxes s1 !! user = Some box ∧ l ∈ box))) ∧
      (TurtleSentTwo.message_id s2' = TurtleSentTwo.message_id s2 ∧
       TurtleSentTwo.boxes s2' = TurtleSentTwo.boxes s2 ∧
       dom (TurtleSentTwo.heap s2') = dom (TurtleSentTwo.heap s2) ∧
       (other ≠ user →
        TurtleSentTwo.mailbox s2' other = TurtleSentTwo.mailbox s2 other) ∧
       (∀ l m, TurtleSentTwo.heap s2 !! l = Some m →
               TurtleSentTwo.heap s2' !! l = Some m ∨
               (TurtleSentTwo.heap s2' !! l
                = Some (TurtleSentTwo.Message.set_read true m) ∧
                ∃ box, TurtleSentTwo.boxes s2 !! user = Some box ∧ l ∈ box)))
  | SearchInbox _ _ => s1' = s1 ∧ s2' = s2
  end.
Proof.
  intros Hr1%dict_reachable_wf Hr2%obj_reachable_wf s1' s2'.
  unfold s1', s2'. rewrite dict_step_eq, obj_step_eq.
  destruct c as [a r b u | u n | u p]; cbn [snd].
  - split; split.
    + intros Hne. split; [by apply dict_send_other | by apply dict_send_mailbox_other].
    + intros l m Hl. rewrite dict_send_heap_old; eauto.
    + intros Hne. split; [by apply obj_send_other | by apply obj_send_mailbox_other].
    + intros l m Hl. rewrite obj_send_heap_old; eauto.
  - split; split_and!.
    + apply dict_read_state_unknown_or_known.
    + apply dict_read_boxes.
    + by apply dict_read_dom.
    + intros Hne. by apply dict_read_mailbox_other.
    + intros l m Hl. by apply dict_read_heap_cases.
    + apply obj_read_state_unknown_or_known.
    + apply obj_read_boxes.
    + apply obj_read_dom.
    + intros Hne. by apply obj_read_mailbox_other.
    + intros l m Hl. by apply obj_read_heap_cases.
  - split; [apply dict_search_state | apply obj_search_state].
Qed.

Lemma calls_leave_the_rest_alone_witness :
  let cs := [ SendMessage "Newman" "Mr. Peanutbutter" "Hi." false;
              SendMessage "Mr. Peanutbutter" "Newman" "Hello, Newman." true ] in
  let s1 := (TurtleSent.run cs (TurtleSent.__init__ users).2).2 in
  let s2 := (TurtleSentTwo.run cs (TurtleSentTwo.__init__ users).2).2 in
  let c := ReadInbox "Newman" 0 in
  (TurtleSent.reachable s1 ∧ TurtleSentTwo.reachable s2) ∧
  TurtleSent.mailbox (TurtleSent.step c s1).2 "Mr. Peanutbutter"
  = Some [TurtleSent.mk_details 1 "Hi." "Newman" false] ∧
  TurtleSentTwo.mailbox (TurtleSentTwo.step c s2).2 "Mr. Peanutbutter"
  = Some [TurtleSentTwo.Message.mk 1 "Hi." "Newman" false].
Proof.
  intros cs s1 s2 c.
  assert (Hr1 : TurtleSent.reachable s1)
    by apply dict_reachable_run, TurtleSent.reachable_init.
  assert (Hr2 : TurtleSentTwo.reachable s2)
    by apply obj_reachable_run, TurtleSentTwo.reachable_init.
  split; [by split|].
  destruct (calls_leave_the_rest_alone s1 s2 c "Mr. Peanutbutter" Hr1 Hr2)
    as [(_ & _ & _ & Hm1 & _) (_ & _ & _ & Hm2 & _)].
  split.
  - rewrite Hm1 by discriminate. reflexivity.
  - rewrite Hm2 by discriminate. reflexivity.
Defined.

(** ** The two files side by side *)

Lemma to_Message_total (h : gmap loc TurtleSent.message_details) (l : loc) :
  (to_Message <$> h) !!! l = to_Message (h !!! l).
Proof. rewrite !lookup_total_alt, lookup_fmap. by destruct (h !! l). Qed.

Lemma response_map_compose {R R' R'' : Type} (f : R → R') (g : R' → R'')
    (r : response R) :
  response_map g (response_map f r) = response_map (g ∘ f) r.
Proof.
  destruct r as [o|[ls|e]|[ls|e]]; simpl; try done;
    by rewrite <- list_fmap_compose.
Qed.

Lemma sent_ids_fmap {R R' : Type} (f : R → R') (rs : list (response R)) :
  sent_ids (response_map f <$> rs) = sent_ids rs.
Proof.
  induction rs as [|r rs IH]; [done|].
  rewrite fmap_cons, sent_ids_response_map.
  destruct r as [[?|?]|?|?]; simpl; by rewrite IH.
Qed.

Lemma same_state_init (usernames : list string) :
  same_state (TurtleSent.__init__ usernames).2 (TurtleSentTwo.__init__ usernames).2.
Proof. split_and!; [done | done |]. simpl. by rewrite fmap_empty. Qed.

Lemma same_state_unread s1 s2 (box : list loc) :
  same_state s1 s2 → TurtleSentTwo.unread s2 box = TurtleSent.unread s1 box.
Proof.
  intros (_ & _ & Hh). unfold TurtleSentTwo.unread, TurtleSent.unread.
  apply list_filter_iff. intros l. by rewrite Hh, to_Message_total.
Qed.

Lemma same_state_mark (sel : list loc) (h : gmap loc TurtleSent.message_details) :
  TurtleSentTwo.mark_read sel (to_Message <$> h)
  = to_Message <$> TurtleSent.mark_read sel h.
Proof.
  apply map_eq. intros l.
  rewrite obj_mark_read_lookup, !lookup_fmap, dict_mark_read_lookup.
  destruct (h !! l) as [m|]; simpl; [|done]. by case_decide.
Qed.

Lemma same_state_mailbox s1 s2 (user : string) :
  same_state s1 s2 →
  TurtleSentTwo.mailbox s2 user = fmap (M := list) to_Message <$> TurtleSent.mailbox s1 user.
Proof.
  intros (_ & Hb & Hh). unfold TurtleSentTwo.mailbox, TurtleSent.mailbox.
  rewrite Hb. destruct (TurtleSent.boxes s1 !! user) as [box|]; [|done].
  simpl. f_equal. unfold TurtleSentTwo.deref, TurtleSent.deref.
  rewrite <- list_fmap_compose. apply list_fmap_ext. intros i l _.
  simpl. by rewrite Hh, to_Message_total.
Qed.

(** One call keeps the two states the same and gets the same answer: the
    same id or the same exception, or the details of the same messages in
    the same order. *)
Lemma same_state_step c s1 s2 :
  TurtleSent.wf s1 →
  same_state s1 s2 →
  same_state (TurtleSent.step c s1).2 (TurtleSentTwo.step c s2).2 ∧
  (TurtleSentTwo.step c s2).1
  = response_map
      (λ l, details_of_dict (TurtleSent.heap (TurtleSent.step c s1).2 !!! l))
      (TurtleSent.step c s1).1.
Proof.
  intros Hwf Hsim. pose proof Hsim as (Hid & Hb & Hh).
  rewrite dict_step_eq, obj_step_eq.
  destruct c as [a r b u | u n | u p]; cbn [fst snd].
  - destruct (TurtleSent.boxes s1 !! r) as [box|] eqn:Hbox.
    + assert (Hbox2 : TurtleSentTwo.boxes s2 !! r = Some box) by by rewrite Hb.
      destruct Hwf as (Hr & _).
      rewrite (dict_send_message_eq _ _ _ _ _ _ Hr Hbox),
        (obj_send_message_eq _ _ _ _ _ _ Hbox2).
      cbn [fst snd response_map]. rewrite Hid. split; [|done].
      assert (Hnew : new (TurtleSentTwo.heap s2) = new (TurtleSent.heap s1)).
      { unfold new. by rewrite Hh, dom_fmap_L. }
      split_and!; simpl.
      * done.
      * by rewrite Hnew, Hb.
      * by rewrite Hnew, Hh, fmap_insert.
    + assert (Hbox2 : TurtleSentTwo.boxes s2 !! r = None) by by rewrite Hb.
      unfold TurtleSent.send_message, TurtleSentTwo.send_message.
      by rewrite Hbox, Hbox2.
  - destruct (TurtleSent.boxes s1 !! u) as [box|] eqn:Hbox.
    + assert (Hbox2 : TurtleSentTwo.boxes s2 !! u = Some box) by by rewrite Hb.
      assert (Hsel : TurtleSentTwo.selected s2 box n = TurtleSent.selected s1 box n).
      { unfold TurtleSentTwo.selected, TurtleSent.selected.
        by rewrite (same_state_unread s1 s2). }
      rewrite (dict_read_inbox_eq _ _ _ _ Hwf Hbox),
        (obj_read_inbox_eq _ _ _ _ Hbox2).
      cbn [fst snd response_map outcome_map TurtleSent.heap].
      rewrite Hsel, Hh, same_state_mark. split.
      * by split_and!.
      * do 2 f_equal. apply list_fmap_ext. intros i l _.
        by rewrite to_Message_total.
    + assert (Hbox2 : TurtleSentTwo.boxes s2 !! u = None) by by rewrite Hb.
      by rewrite (dict_read_unknown _ _ _ Hbox), (obj_read_unknown _ _ _ Hbox2).
  - destruct (TurtleSent.boxes s1 !! u) as [box|] eqn:Hbox.
    + assert (Hbox2 : TurtleSentTwo.boxes s2 !! u = Some box) by by rewrite Hb.
      rewrite (dict_search_inbox_eq _ _ _ _ Hbox),
        (obj_search_inbox_eq _ _ _ _ Hbox2).
      cbn [fst snd response_map outcome_map]. split; [done|].
      do 2 f_equal. rewrite Hh.
      erewrite (list_filter_iff _ (λ l, occurs_in p
                  (TurtleSent.msg_body (TurtleSent.heap s1 !!! l)))).
      * apply list_fmap_ext. intros i l _. by rewrite to_Message_total.
      * intros l. by rewrite to_Message_total.
    + assert (Hbox2 : TurtleSentTwo.boxes s2 !! u = None) by by rewrite Hb.
      unfold TurtleSent.search_inbox, TurtleSentTwo.search_inbox.
      by rewrite Hbox, Hbox2.
Qed.

Lemma same_state_run cs s1 s2 :
  TurtleSent.wf s1 →
  same_state s1 s2 →
  same_state (TurtleSent.run cs s1).2 (TurtleSentTwo.run cs s2).2 ∧
  (TurtleSentTwo.run cs s2).1
  = response_map details_of_dict <$> (TurtleSent.run cs s1).1.
Proof.
  revert s1 s2. induction cs as [|c cs IH]; intros s1 s2 Hwf Hsim; [done|].
  rewrite dict_run_cons, obj_run_cons. cbn [fst snd].
  destruct (same_state_step c s1 s2 Hwf Hsim) as [Hsim' Hresp].
  destruct (IH _ _ (dict_wf_step c s1 Hwf) Hsim') as [Hsim'' Hrest].
  split; [done|].
  rewrite fmap_cons, response_map_compose, Hresp, Hrest. done.
Qed.

(** C9: the same calls, made on a [PostOffice] of [turtle_sent.py] and on
    one of [turtle_sent_two.py] that were built from the same names, get
    the same answers: the same ids and the same exceptions, and from
    [read_inbox] and [search_inbox] the same messages in the same order
    (the second file shows of each the details of what the first file
    returns as a dict).  Afterwards the counters are equal, and every inbox
    holds the same messages in the same order with the same id, body,
    sender and flag. *)
Theorem two_files_behave_alike (usernames : list string) (cs : list call) :
  let r1 := TurtleSent.run cs (TurtleSent.__init__ usernames).2 in
  let r2 := TurtleSentTwo.run cs (TurtleSentTwo.__init__ usernames).2 in
  r2.1 = response_map details_of_dict <$> r1.1 ∧
  sent_ids r2.1 = sent_ids r1.1 ∧
  TurtleSentTwo.message_id r2.2 = TurtleSent.message_id r1.2 ∧
  ∀ user, TurtleSentTwo.mailbox r2.2 user
          = fmap (M := list) to_Message <$> TurtleSent.mailbox r1.2 user.
Proof.
  intros r1 r2.
  destruct (same_state_run cs _ _ (dict_wf_init usernames)
              (same_state_init usernames)) as [Hsim Hresp].
  fold r1 r2 in Hsim, Hresp. split_and!.
  - done.
  - by rewrite Hresp, sent_ids_fmap.
  - by destruct Hsim as (? & _).
  - intros user. by apply same_state_mailbox.
Qed.

(** * More of the code *)

(** ** The registered users *)

Lemma empty_boxes_dom (usernames : list string) :
  dom (empty_boxes usernames) = list_to_set usernames.
Proof.
  apply set_eq. intros u.
  by rewrite elem_of_dom, empty_boxes_registered, elem_of_list_to_set.
Qed.

Lemma dict_step_dom c (self : TurtleSent.PostOffice) :
  dom (TurtleSent.boxes (TurtleSent.step c self).2) = dom (TurtleSent.boxes self).
Proof.
  rewrite dict_step_eq. destruct c as [a r b u | u n | u p]; cbn [snd].
  - unfold TurtleSent.send_message.
    destruct (TurtleSent.boxes self !! r) as [box|] eqn:Hb; [|done]. simpl.
    rewrite dom_insert_L. apply elem_of_dom_2 in Hb. set_solver.
  - by rewrite dict_read_boxes.
  - by rewrite dict_search_state.
Qed.

Lemma obj_step_dom c (self : TurtleSentTwo.PostOffice) :
  dom (TurtleSentTwo.boxes (TurtleSentTwo.step c self).2)
  = dom (TurtleSentTwo.boxes self).
Proof.
  rewrite obj_step_eq. destruct c as [a r b u | u n | u p]; cbn [snd].
  - unfold TurtleSentTwo.send_message.
    destruct (TurtleSentTwo.boxes self !! r) as [box|] eqn:Hb; [|done]. simpl.
    rewrite dom_insert_L. apply elem_of_dom_2 in Hb. set_solver.
  - by rewrite obj_read_boxes.
  - by rewrite obj_search_state.
Qed.

Lemma dict_run_dom cs (self : TurtleSent.PostOffice) :
  dom (TurtleSent.boxes (TurtleSent.run cs self).2) = dom (TurtleSent.boxes self).
Proof.
  revert self. induction cs as [|c cs IH]; intros self; [done|].
  rewrite dict_run_cons. cbn [snd]. by rewrite IH, dict_step_dom.
Qed.

Lemma obj_run_dom cs (self : TurtleSentTwo.PostOffice) :
  dom (TurtleSentTwo.boxes (TurtleSentTwo.run cs self).2)
  = dom (TurtleSentTwo.boxes self).
Proof.
  revert self. induction cs as [|c cs IH]; intros self; [done|].
  rewrite obj_run_cons. cbn [snd]. by rewrite IH, obj_step_dom.
Qed.

(** X1: the users of a [PostOffice] are the names its constructor was given,
    for good: after any calls a name has an inbox exactly when it is one of
    [usernames], and a [send_message] to any other name still raises
    [KeyError] and changes nothing.  No method registers a user. *)
Theorem registered_users_never_change
    (usernames : list string) (cs : list call)
    (user sender message_body : string) (urgent : bool) :
  let s1 := (TurtleSent.run cs (TurtleSent.__init__ usernames).2).2 in
  let s2 := (TurtleSentTwo.run cs (TurtleSentTwo.__init__ usernames).2).2 in
  ((is_Some (TurtleSent.boxes s1 !! user) ↔ user ∈ usernames) ∧
   (user ∉ usernames →
    TurtleSent.send_message sender user message_body urgent s1
    = (Raise (KeyError user), s1))) ∧
  ((is_Some (TurtleSentTwo.boxes s2 !! user) ↔ user ∈ usernames) ∧
   (user ∉ usernames →
    TurtleSentTwo.send_message sender user message_body urgent s2
    = (Raise (KeyError user), s2))).
Proof.
  intros s1 s2.
  assert (H1 : is_Some (TurtleSent.boxes s1 !! user) ↔ user ∈ usernames).
  { unfold s1. rewrite <- elem_of_dom, dict_run_dom. simpl.
    by rewrite empty_boxes_dom, elem_of_list_to_set. }
  assert (H2 : is_Some (TurtleSentTwo.boxes s2 !! user) ↔ user ∈ usernames).
  { unfold s2. rewrite <- elem_of_dom, obj_run_dom. simpl.
    by rewrite empty_boxes_dom, elem_of_list_to_set. }
  split; (split; [done|]); intros Hn.
  - unfold TurtleSent.send_message.
    destruct (TurtleSent.boxes s1 !! user) eqn:Hb; [|done].
    destruct Hn. apply H1. eauto.
  - unfold TurtleSentTwo.send_message.
    destruct (TurtleSentTwo.boxes s2 !! user) eqn:Hb; [|done].
    destruct Hn. apply H2. eauto.
Qed.

(** ** Inboxes only grow *)

Lemma dict_step_box c (self : TurtleSent.PostOffice) (user : string) box :
  TurtleSent.boxes self !! user = Some box →
  ∃ front back,
    TurtleSent.boxes (TurtleSent.step c self).2 !! user = Some (front ++ box ++ back).
Proof.
  intros Hb. rewrite dict_step_eq. destruct c as [a r b u | u n | u p]; cbn [snd].
  - destruct (decide (user = r)) as [->|Hne].
    + rewrite (dict_send_box _ _ _ _ _ _ Hb). destruct u.
      * exists [new (TurtleSent.heap self)], []. by rewrite app_nil_r.
      * by exists [], [new (TurtleSent.heap self)].
    + rewrite dict_send_other by done. exists [], []. by rewrite app_nil_r.
  - rewrite dict_read_boxes. exists [], []. by rewrite app_nil_r.
  - rewrite dict_search_state. exists [], []. by rewrite app_nil_r.
Qed.

Lemma obj_step_box c (self : TurtleSentTwo.PostOffice) (user : string) box :
  TurtleSentTwo.boxes self !! user = Some box →
  ∃ front back,
    TurtleSentTwo.boxes (TurtleSentTwo.step c self).2 !! user
    = Some (front ++ box ++ back).
Proof.
  intros Hb. rewrite obj_step_eq. destruct c as [a r b u | u n | u p]; cbn [snd].
  - destruct (decide (user = r)) as [->|Hne].
    + rewrite (obj_send_box _ _ _ _ _ _ Hb). destruct u.
      * exists [new (TurtleSentTwo.heap self)], []. by rewrite app_nil_r.
      * by exists [], [new (TurtleSentTwo.heap self)].
    + rewrite obj_send_other by done. exists [], []. by rewrite app_nil_r.
  - rewrite obj_read_boxes. exists [], []. by rewrite app_nil_r.
  - rewrite obj_search_state. exists [], []. by rewrite app_nil_r.
Qed.

Lemma dict_step_message c (self : TurtleSent.PostOffice) l m :
  TurtleSent.wf self →
  TurtleSent.heap self !! l = Some m →
  ∃ flag, TurtleSent.heap (TurtleSent.step c self).2 !! l
          = Some (TurtleSent.setitem_read (TurtleSent.msg_read m || flag) m).
Proof.
  intros Hwf Hl. rewrite dict_step_eq.
  assert (Hsame : TurtleSent.setitem_read (TurtleSent.msg_read m || false) m = m).
  { destruct m. simpl. by rewrite orb_false_r. }
  destruct c as [a r b u | u n | u p]; cbn [snd].
  - exists false. rewrite dict_send_heap_old by eauto. by rewrite Hsame.
  - destruct (dict_read_heap_cases _ u n _ _ Hwf Hl) as [H|[H _]].
    + exists false. by rewrite Hsame.
    + exists true. by rewrite orb_true_r.
  - exists false. rewrite dict_search_state. by rewrite Hsame.
Qed.

Lemma obj_step_message c (self : TurtleSentTwo.PostOffice) l m :
  TurtleSentTwo.heap self !! l = Some m →
  ∃ flag, TurtleSentTwo.heap (TurtleSentTwo.step c self).2 !! l
          = Some (TurtleSentTwo.Message.set_read
                    (TurtleSentTwo.Message.message_read m || flag) m).
Proof.
  intros Hl. rewrite obj_step_eq.
  assert (Hsame : TurtleSentTwo.Message.set_read
                    (TurtleSentTwo.Message.message_read m || false) m = m).
  { destruct m. simpl. by rewrite orb_false_r. }
  destruct c as [a r b u | u n | u p]; cbn [snd].
  - exists false. rewrite obj_send_heap_old by eauto. by rewrite Hsame.
  - destruct (obj_read_heap_cases _ u n _ _ Hl) as [H|[H _]].
    + exists false. by rewrite Hsame.
    + exists true. by rewrite orb_true_r.
  - exists false. rewrite obj_search_state. by rewrite Hsame.
Qed.

Lemma dict_run_keeps cs (self : TurtleSent.PostOffice) :
  TurtleSent.wf self →
  (∀ user box, TurtleSent.boxes self !! user = Some box →
     ∃ front back,
       TurtleSent.boxes (TurtleSent.run cs self).2 !! user
       = Some (front ++ box ++ back)) ∧
  (∀ l m, TurtleSent.heap self !! l = Some m →
     ∃ flag, TurtleSent.heap (TurtleSent.run cs self).2 !! l
             = Some (TurtleSent.setitem_read (TurtleSent.msg_read m || flag) m)).
Proof.
  revert self. induction cs as [|c cs IH]; intros self Hwf.
  - split.
    + intros user box Hb. exists [], []. by rewrite app_nil_r.
    + intros l m Hl. exists false. destruct m. simpl. by rewrite orb_false_r.
  - rewrite dict_run_cons. cbn [snd].
    destruct (IH _ (dict_wf_step c self Hwf)) as [IHb IHm]. split.
    + intros user box Hb.
      destruct (dict_step_box c self user box Hb) as (f1 & b1 & H1).
      destruct (IHb _ _ H1) as (f2 & b2 & H2).
      exists (f2 ++ f1), (b1 ++ b2). rewrite H2. f_equal.
      by rewrite <- !app_assoc.
    + intros l m Hl.
      destruct (dict_step_message c self l m Hwf Hl) as (g1 & H1).
      destruct (IHm _ _ H1) as (g2 & H2).
      exists (g1 || g2). rewrite H2. f_equal. simpl. by rewrite orb_assoc.
Qed.

Lemma obj_run_keeps cs (self : TurtleSentTwo.PostOffice) :
  (∀ user box, TurtleSentTwo.boxes self !! user = Some box →
     ∃ front back,
       TurtleSentTwo.boxes (TurtleSentTwo.run cs self).2 !! user
       = Some (front ++ box ++ back)) ∧
  (∀ l m, TurtleSentTwo.heap self !! l = Some m →
     ∃ flag, TurtleSentTwo.heap (TurtleSentTwo.run cs self).2 !! l
             = Some (TurtleSentTwo.Message.set_read
                       (TurtleSentTwo.Message.message_read m || flag) m)).
Proof.
  revert self. induction cs as [|c cs IH]; intros self.
  - split.
    + intros user box Hb. exists [], []. by rewrite app_nil_r.
    + intros l m Hl. exists false. destruct m. simpl. by rewrite orb_false_r.
  - rewrite obj_run_cons. cbn [snd].
    destruct (IH (TurtleSentTwo.step c self).2) as [IHb IHm]. split.
    + intros user box Hb.
      destruct (obj_step_box c self user box Hb) as (f1 & b1 & H1).
      destruct (IHb _ _ H1) as (f2 & b2 & H2).
      exists (f2 ++ f1), (b1 ++ b2). rewrite H2. f_equal.
      by rewrite <- !app_assoc.
    + intros l m Hl.
      destruct (obj_step_message c self l m Hl) as (g1 & H1).
      destruct (IHm _ _ H1) as (g2 & H2).
      exists (g1 || g2). rewrite H2. f_equal. simpl. by rewrite orb_assoc.
Qed.

(** X2: nothing is ever taken out of an inbox or moved inside it.  After
    any calls on a state that calls of the methods can lead to, every inbox
    is what it was with new messages in front of it and behind it, and
    every message stored before is still stored, with its id, body and
    sender, and with its flag set if it was set before. *)
Theorem inboxes_only_grow
    (s1 : TurtleSent.PostOffice) (s2 : TurtleSentTwo.PostOffice)
    (cs : list call) :
  TurtleSent.reachable s1 →
  let s1' := (TurtleSent.run cs s1).2 in
  let s2' := (TurtleSentTwo.run cs s2).2 in
  ((∀ user box, TurtleSent.boxes s1 !! user = Some box →
      ∃ front back, TurtleSent.boxes s1' !! user = Some (front ++ box ++ back)) ∧
   (∀ l m, TurtleSent.heap s1 !! l = Some m →
      ∃ flag, TurtleSent.heap s1' !! l
              = Some (TurtleSent.setitem_read (TurtleSent.msg_read m || flag) m))) ∧
  ((∀ user box, TurtleSentTwo.boxes s2 !! user = Some box →
      ∃ front back, TurtleSentTwo.boxes s2' !! user = Some (front ++ box ++ back)) ∧
   (∀ l m, TurtleSentTwo.heap s2 !! l = Some m →
      ∃ flag, TurtleSentTwo.heap s2' !! l
              = Some (TurtleSentTwo.Message.set_read
                        (TurtleSentTwo.Message.message_read m || flag) m))).
Proof.
  intros Hr1%dict_reachable_wf s1' s2'. split.
  - by apply dict_run_keeps.
  - apply obj_run_keeps.
Qed.

Lemma inboxes_only_grow_witness :
  let s1 := (TurtleSent.run show_example_sends (TurtleSent.__init__ users).2).2 in
  let s2 := (TurtleSentTwo.run show_example_sends (TurtleSentTwo.__init__ users).2).2 in
  let cs := [ SendMessage "Newman" "Newman" "Note to self." true;
              ReadInbox "Newman" 2;
              SendMessage "Mr. Peanutbutter" "Newman" "Bye." false ] in
  TurtleSent.reachable s1 ∧
  (∃ front back,
     TurtleSent.boxes (TurtleSent.run cs s1).2 !! "Newman"
     = Some (front ++ [1; 2; 3]%positive ++ back)) ∧
  (∃ flag,
     TurtleSentTwo.heap (TurtleSentTwo.run cs s2).2 !! 1%positive
     = Some (TurtleSentTwo.Message.mk 1 "Hello, Newman." "Mr. Peanutbutter" flag)).
Proof.
  intros s1 s2 cs.
  assert (Hr1 : TurtleSent.reachable s1)
    by apply dict_reachable_run, TurtleSent.reachable_init.
  split; [done|].
  destruct (inboxes_only_grow s1 s2 cs Hr1) as [[Hb _] [_ Hm]]. split.
  - apply Hb. vm_compute. reflexivity.
  - destruct (Hm 1%positive
                (TurtleSentTwo.Message.mk 1 "Hello, Newman." "Mr. Peanutbutter" false))
      as [flag Hflag]; [vm_compute; reflexivity|].
    exists (false || flag). exact Hflag.
Defined.

(** ** Every id is in use exactly once *)

Section store_full.
Context {A : Type} (get_id : A → Z).
Implicit Types (h : gmap loc A) (bs : gmap string (list loc)).

Lemma store_full_init (usernames : list string) :
  store_full get_id 0 (empty_boxes usernames) ∅.
Proof. intros k Hk. lia. Qed.

Lemma store_full_send (counter : Z) bs h (r : string) (box : list loc)
    (urgent : bool) (m : A) :
  store_wf get_id counter bs h →
  store_full get_id counter bs h →
  bs !! r = Some box →
  get_id m = counter + 1 →
  store_full get_id (counter + 1)
    (<[r := if urgent then new h :: box else box ++ [new h]]> bs)
    (<[new h := m]> h).
Proof.
  intros Hwf Hfull Hr Hm k Hk.
  assert (Hmem : ∀ l, l ∈ box →
                      l ∈ (if urgent then new h :: box else box ++ [new h])).
  { intros l Hl. destruct urgent; set_solver. }
  destruct (decide (k = counter + 1)) as [->|Hne].
  - exists r, (if urgent then new h :: box else box ++ [new h]), (new h), m.
    rewrite !lookup_insert_eq. split_and!; try done. destruct urgent; set_solver.
  - destruct (Hfull k) as (u & b & l & m' & Hb & Hl & Hh & Hid); [lia|].
    assert (l ≠ new h) by (intros ->; by rewrite new_fresh in Hh).
    destruct (decide (u = r)) as [->|Hur].
    + rewrite Hr in Hb. injection Hb as <-.
      exists r, (if urgent then new h :: box else box ++ [new h]), l, m'.
      rewrite lookup_insert_eq, lookup_insert_ne by done. auto.
    + exists u, b, l, m'. by rewrite !lookup_insert_ne.
Qed.

Lemma store_full_update (counter : Z) bs h h' (g : loc → A → A) :
  store_full get_id counter bs h →
  (∀ l x, get_id (g l x) = get_id x) →
  (∀ l, h' !! l = g l <$> h !! l) →
  store_full get_id counter bs h'.
Proof.
  intros Hfull Hg Hh' k Hk.
  destruct (Hfull k Hk) as (u & b & l & m & Hb & Hl & Hh & Hid).
  exists u, b, l, (g l m). rewrite Hh', Hh, Hg. auto.
Qed.

End store_full.

Lemma dict_full_step c (self : TurtleSent.PostOffice) :
  TurtleSent.wf self →
  store_full TurtleSent.msg_id (TurtleSent.message_id self)
    (TurtleSent.boxes self) (TurtleSent.heap self) →
  store_full TurtleSent.msg_id (TurtleSent.message_id (TurtleSent.step c self).2)
    (TurtleSent.boxes (TurtleSent.step c self).2)
    (TurtleSent.heap (TurtleSent.step c self).2).
Proof.
  intros Hwf Hfull. rewrite dict_step_eq.
  destruct c as [a r b u | u n | u p]; cbn [snd].
  - destruct (TurtleSent.boxes self !! r) as [box|] eqn:Hb.
    + destruct Hwf as (Hr & _ & Hwf).
      rewrite (dict_send_message_eq _ _ _ _ _ _ Hr Hb). simpl.
      by apply store_full_send.
    + unfold TurtleSent.send_message. by rewrite Hb.
  - destruct (TurtleSent.boxes self !! u) as [box|] eqn:Hb.
    + rewrite (dict_read_inbox_eq _ _ _ _ Hwf Hb). simpl.
      eapply (store_full_update _ _ _ _ _
                (λ l, if decide (l ∈ TurtleSent.selected self box n)
                      then TurtleSent.setitem_read true else id)); [done | |].
      * intros l x. by case_decide.
      * intros l. apply dict_mark_read_lookup.
    + by rewrite (dict_read_unknown _ _ _ Hb).
  - by rewrite dict_search_state.
Qed.

Lemma obj_full_step c (self : TurtleSentTwo.PostOffice) :
  TurtleSentTwo.wf self →
  store_full TurtleSentTwo.Message.message_id (TurtleSentTwo.message_id self)
    (TurtleSentTwo.boxes self) (TurtleSentTwo.heap self) →
  store_full TurtleSentTwo.Message.message_id
    (TurtleSentTwo.message_id (TurtleSentTwo.step c self).2)
    (TurtleSentTwo.boxes (TurtleSentTwo.step c self).2)
    (TurtleSentTwo.heap (TurtleSentTwo.step c self).2).
Proof.
  intros Hwf Hfull. rewrite obj_step_eq.
  destruct c as [a r b u | u n | u p]; cbn [snd].
  - destruct (TurtleSentTwo.boxes self !! r) as [box|] eqn:Hb.
    + destruct Hwf as (_ & Hwf).
      rewrite (obj_send_message_eq _ _ _ _ _ _ Hb). simpl.
      by apply store_full_send.
    + unfold TurtleSentTwo.send_message. by rewrite Hb.
  - destruct (TurtleSentTwo.boxes self !! u) as [box|] eqn:Hb.
    + rewrite (obj_read_inbox_eq _ _ _ _ Hb). simpl.
      eapply (store_full_update _ _ _ _ _
                (λ l, if decide (l ∈ TurtleSentTwo.selected self box n)
                      then TurtleSentTwo.Message.set_read true else id)); [done | |].
      * intros l x. by case_decide.
      * intros l. apply obj_mark_read_lookup.
    + by rewrite (obj_read_unknown _ _ _ Hb).
  - by rewrite obj_search_state.
Qed.

Lemma dict_reachable_full (self : TurtleSent.PostOffice) :
  TurtleSent.reachable self →
  store_full TurtleSent.msg_id (TurtleSent.message_id self)
    (TurtleSent.boxes self) (TurtleSent.heap self).
Proof.
  induction 1 as [usernames | c self Hr IH]; [apply store_full_init|].
  by apply dict_full_step; [apply dict_reachable_wf|].
Qed.

Lemma obj_reachable_full (self : TurtleSentTwo.PostOffice) :
  TurtleSentTwo.reachable self →
  store_full TurtleSentTwo.Message.message_id (TurtleSentTwo.message_id self)
    (TurtleSentTwo.boxes self) (TurtleSentTwo.heap self).
Proof.
  induction 1 as [usernames | c self Hr IH]; [apply store_full_init|].
  by apply obj_full_step; [apply obj_reachable_wf|].
Qed.

(** An entry of an inbox, traced back to the store. *)
Lemma dict_mailbox_entry (self : TurtleSent.PostOffice) user ms (i : nat) m :
  TurtleSent.wf self →
  TurtleSent.mailbox self user = Some ms →
  ms !! i = Some m →
  ∃ box l, TurtleSent.boxes self !! user = Some box ∧ box !! i = Some l ∧
           TurtleSent.heap self !! l = Some m.
Proof.
  intros (_ & _ & Hwf) Hms Hi. unfold TurtleSent.mailbox in Hms.
  destruct (TurtleSent.boxes self !! user) as [box|] eqn:Hb; [|done].
  injection Hms as <-. unfold TurtleSent.deref in Hi.
  rewrite list_lookup_fmap in Hi.
  destruct (box !! i) as [l|] eqn:Hl; [|done]. injection Hi as <-.
  exists box, l. split_and!; try done.
  destruct (wf_alloc _ _ _ _ Hwf _ _ _ Hb (list_elem_of_lookup_2 _ _ _ Hl))
    as [m Hm].
  by rewrite (lookup_total_correct _ _ _ Hm).
Qed.

Lemma obj_mailbox_entry (self : TurtleSentTwo.PostOffice) user ms (i : nat) m :
  TurtleSentTwo.wf self →
  TurtleSentTwo.mailbox self user = Some ms →
  ms !! i = Some m →
  ∃ box l, TurtleSentTwo.boxes self !! user = Some box ∧ box !! i = Some l ∧
           TurtleSentTwo.heap self !! l = Some m.
Proof.
  intros (_ & Hwf) Hms Hi. unfold TurtleSentTwo.mailbox in Hms.
  destruct (TurtleSentTwo.boxes self !! user) as [box|] eqn:Hb; [|done].
  injection Hms as <-. unfold TurtleSentTwo.deref in Hi.
  rewrite list_lookup_fmap in Hi.
  destruct (box !! i) as [l|] eqn:Hl; [|done]. injection Hi as <-.
  exists box, l. split_and!; try done.
  destruct (wf_alloc _ _ _ _ Hwf _ _ _ Hb (list_elem_of_lookup_2 _ _ _ Hl))
    as [m Hm].
  by rewrite (lookup_total_correct _ _ _ Hm).
Qed.

Section ids.
Context {A : Type} (get_id : A → Z).

(** Two places of inboxes that hold messages with the same id are the same
    place. *)
Lemma store_wf_place (counter : Z) (bs : gmap string (list loc)) (h : gmap loc A)
    u u' b b' (i i' : nat) l l' m m' :
  store_wf get_id counter bs h →
  bs !! u = Some b → b !! i = Some l → h !! l = Some m →
  bs !! u' = Some b' → b' !! i' = Some l' → h !! l' = Some m' →
  get_id m = get_id m' →
  u = u' ∧ i = i'.
Proof.
  intros Hwf Hb Hi Hm Hb' Hi' Hm' Hid.
  assert (l = l') as <- by by eapply (wf_ids_inj _ _ _ _ Hwf).
  assert (u = u') as <-.
  { eapply (wf_owner _ _ _ _ Hwf); eauto using list_elem_of_lookup_2. }
  split; [done|]. rewrite Hb in Hb'. injection Hb' as <-.
  eapply NoDup_lookup; eauto. by eapply (wf_nodup _ _ _ _ Hwf).
Qed.

End ids.

(** X3: in a state that calls of the methods can lead to, the ids in use
    are exactly the numbers from 1 to the counter, each once: every such
    number is the id of a message at some place of some inbox, every
    message of an inbox has such an id, and two places that hold the same id
    are the same place of the same inbox.  No message is lost and no id is
    given twice. *)
Theorem ids_are_one_to_counter
    (s1 : TurtleSent.PostOffice) (s2 : TurtleSentTwo.PostOffice) :
  TurtleSent.reachable s1 →
  TurtleSentTwo.reachable s2 →
  ((∀ k, 0 < k ≤ TurtleSent.message_id s1 →
         ∃ user ms i m, TurtleSent.mailbox s1 user = Some ms ∧
                        ms !! i = Some m ∧ TurtleSent.msg_id m = k) ∧
   (∀ user ms (i : nat) m,
      TurtleSent.mailbox s1 user = Some ms → ms !! i = Some m →
      0 < TurtleSent.msg_id m ≤ TurtleSent.message_id s1) ∧
   (∀ user user' ms ms' (i i' : nat) m m',
      TurtleSent.mailbox s1 user = Some ms → ms !! i = Some m →
      TurtleSent.mailbox s1 user' = Some ms' → ms' !! i' = Some m' →
      TurtleSent.msg_id m = TurtleSent.msg_id m' →
      user = user' ∧ i = i')) ∧
  ((∀ k, 0 < k ≤ TurtleSentTwo.message_id s2 →
         ∃ user ms i m, TurtleSentTwo.mailbox s2 user = Some ms ∧
                        ms !! i = Some m ∧
                        TurtleSentTwo.Message.message_id m = k) ∧
   (∀ user ms (i : nat) m,
      TurtleSentTwo.mailbox s2 user = Some ms → ms !! i = Some m →
      0 < TurtleSentTwo.Message.message_id m ≤ TurtleSentTwo.message_id s2) ∧
   (∀ user user' ms ms' (i i' : nat) m m',
      TurtleSentTwo.mailbox s2 user = Some ms → ms !! i = Some m →
      TurtleSentTwo.mailbox s2 user' = Some ms' → ms' !! i' = Some m' →
      TurtleSentTwo.Message.message_id m = TurtleSentTwo.Message.message_id m' →
      user = user' ∧ i = i')).
Proof.
  intros Hr1 Hr2.
  pose proof (dict_reachable_full _ Hr1) as Hf1.
  pose proof (obj_reachable_full _ Hr2) as Hf2.
  apply dict_reachable_wf in Hr1. apply obj_reachable_wf in Hr2. split.
  - pose proof Hr1 as (_ & _ & Hwf). split_and!.
    + intros k Hk. destruct (Hf1 k Hk) as (u & b & l & m & Hb & Hl & Hm & Hid).
      apply list_elem_of_lookup in Hl as [i Hi].
      exists u, (TurtleSent.deref s1 b), i, m. split_and!; [|  |done].
      * unfold TurtleSent.mailbox. by rewrite Hb.
      * unfold TurtleSent.deref.
        rewrite list_lookup_fmap, Hi. simpl.
        by rewrite (lookup_total_correct _ _ _ Hm).
    + intros user ms i m Hms Hi.
      destruct (dict_mailbox_entry _ _ _ _ _ Hr1 Hms Hi) as (b & l & _ & _ & Hm).
      by eapply (wf_ids _ _ _ _ Hwf).
    + intros user user' ms ms' i i' m m' Hms Hi Hms' Hi' Hid.
      destruct (dict_mailbox_entry _ _ _ _ _ Hr1 Hms Hi) as (b & l & ? & ? & ?).
      destruct (dict_mailbox_entry _ _ _ _ _ Hr1 Hms' Hi') as (b' & l' & ? & ? & ?).
      by eapply (store_wf_place _ _ _ _ _ _ _ _ _ _ _ _ _ _ Hwf).
  - pose proof Hr2 as (_ & Hwf). split_and!.
    + intros k Hk. destruct (Hf2 k Hk) as (u & b & l & m & Hb & Hl & Hm & Hid).
      apply list_elem_of_lookup in Hl as [i Hi].
      exists u, (TurtleSentTwo.deref s2 b), i, m. split_and!; [|  |done].
      * unfold TurtleSentTwo.mailbox. by rewrite Hb.
      * unfold TurtleSentTwo.deref.
        rewrite list_lookup_fmap, Hi. simpl.
        by rewrite (lookup_total_correct _ _ _ Hm).
    + intros user ms i m Hms Hi.
      destruct (obj_mailbox_entry _ _ _ _ _ Hr2 Hms Hi) as (b & l & _ & _ & Hm).
      by eapply (wf_ids _ _ _ _ Hwf).
    + intros user user' ms ms' i i' m m' Hms Hi Hms' Hi' Hid.
      destruct (obj_mailbox_entry _ _ _ _ _ Hr2 Hms Hi) as (b & l & ? & ? & ?).
      destruct (obj_mailbox_entry _ _ _ _ _ Hr2 Hms' Hi') as (b' & l' & ? & ? & ?).
      by eapply (store_wf_place _ _ _ _ _ _ _ _ _ _ _ _ _ _ Hwf).
Qed.

Lemma ids_are_one_to_counter_witness :
  let s1 := (TurtleSent.run show_example_sends (TurtleSent.__init__ users).2).2 in
  let s2 := (TurtleSentTwo.run show_example_sends (TurtleSentTwo.__init__ users).2).2 in
  (TurtleSent.reachable s1 ∧ TurtleSentTwo.reachable s2) ∧
  (∃ user ms i m, TurtleSent.mailbox s1 user = Some ms ∧ ms !! i = Some m ∧
                  TurtleSent.msg_id m = 2) ∧
  (∃ user ms i m, TurtleSentTwo.mailbox s2 user = Some ms ∧ ms !! i = Some m ∧
                  TurtleSentTwo.Message.message_id m = 3).
Proof.
  intros s1 s2.
  assert (Hr1 : TurtleSent.reachable s1)
    by apply dict_reachable_run, TurtleSent.reachable_init.
  assert (Hr2 : TurtleSentTwo.reachable s2)
    by apply obj_reachable_run, TurtleSentTwo.reachable_init.
  split; [by split|].
  destruct (ids_are_one_to_counter s1 s2 Hr1 Hr2) as [[H1 _] [H2 _]]. split.
  - apply H1. vm_compute. by split.
  - apply H2. vm_compute. by split.
Defined.

(** ** How many messages a call reads *)

Lemma length_limit {A : Type} (n : Z) (u : list A) :
  length (limit n u)
  = if bool_decide (n > 0) then Nat.min (Z.to_nat n) (length u) else length u.
Proof. unfold limit, slice_to. case_bool_decide; [apply length_take | done]. Qed.

Lemma length_unpicked {A : Type} `{EqDecision A} (n : Z) (u : list A) :
  NoDup u →
  length (filter (λ l, l ∉ limit n u) u) = (length u - length (limit n u))%nat.
Proof.
  intros Hnd. rewrite unpicked, length_limit by done. case_bool_decide.
  - rewrite length_drop. lia.
  - simpl. lia.
Qed.

(** X4: [read_inbox] of a registered user with a number above zero never
    gives more messages than that number: it gives as many as the smaller
    of the number and the count of unread messages, and all unread messages
    when the number is zero or below.  Afterwards the inbox has that many
    unread messages fewer. *)
Theorem read_inbox_count
    (s1 : TurtleSent.PostOffice) (s2 : TurtleSentTwo.PostOffice)
    (user : string) (n : Z) (box1 box2 : list loc) :
  TurtleSent.reachable s1 →
  TurtleSentTwo.reachable s2 →
  TurtleSent.boxes s1 !! user = Some box1 →
  TurtleSentTwo.boxes s2 !! user = Some box2 →
  let u1 := length (TurtleSent.unread s1 box1) in
  let u2 := length (TurtleSentTwo.unread s2 box2) in
  let count (u : nat) := if bool_decide (n > 0) then Nat.min (Z.to_nat n) u else u in
  (∃ sel, (TurtleSent.read_inbox user n s1).1 = Return sel ∧
          length sel = count u1 ∧
          length (TurtleSent.unread (TurtleSent.read_inbox user n s1).2 box1)
          = (u1 - count u1)%nat) ∧
  (∃ ds, (TurtleSentTwo.read_inbox user n s2).1 = Return ds ∧
         length ds = count u2 ∧
         length (TurtleSentTwo.unread (TurtleSentTwo.read_inbox user n s2).2 box2)
         = (u2 - count u2)%nat).
Proof.
  intros Hr1%dict_reachable_wf Hr2%obj_reachable_wf Hb1 Hb2 u1 u2 count. split.
  - exists (TurtleSent.selected s1 box1 n). split_and!.
    + by rewrite (dict_read_inbox_eq _ _ _ _ Hr1 Hb1).
    + apply length_limit.
    + rewrite (dict_unread_after_read _ _ _ _ Hr1 Hb1).
      unfold TurtleSent.selected.
      rewrite length_unpicked by by eapply dict_unread_NoDup.
      by rewrite length_limit.
  - eexists. split_and!.
    + by apply obj_read_inbox_result.
    + rewrite length_fmap. unfold TurtleSentTwo.deref. rewrite length_fmap.
      apply length_limit.
    + rewrite (obj_unread_after_read _ _ _ _ Hr2 Hb2).
      unfold TurtleSentTwo.selected.
      rewrite length_unpicked by by eapply obj_unread_NoDup.
      by rewrite length_limit.
Qed.

Lemma read_inbox_count_witness :
  let s1 := (TurtleSent.run show_example_sends (TurtleSent.__init__ users).2).2 in
  let s2 := (TurtleSentTwo.run show_example_sends (TurtleSentTwo.__init__ users).2).2 in
  (TurtleSent.reachable s1 ∧ TurtleSentTwo.reachable s2 ∧
   TurtleSent.boxes s1 !! "Newman" = Some [1; 2; 3]%positive ∧
   TurtleSentTwo.boxes s2 !! "Newman" = Some [1; 2; 3]%positive) ∧
  (∃ sel, (TurtleSent.read_inbox "Newman" 2 s1).1 = Return sel ∧ length sel = 2%nat) ∧
  (∃ ds, (TurtleSentTwo.read_inbox "Newman" 5 s2).1 = Return ds ∧ length ds = 3%nat).
Proof.
  intros s1 s2.
  assert (Hr1 : TurtleSent.reachable s1)
    by apply dict_reachable_run, TurtleSent.reachable_init.
  assert (Hr2 : TurtleSentTwo.reachable s2)
    by apply obj_reachable_run, TurtleSentTwo.reachable_init.
  assert (Hb1 : TurtleSent.boxes s1 !! "Newman" = Some [1; 2; 3]%positive)
    by (vm_compute; reflexivity).
  assert (Hb2 : TurtleSentTwo.boxes s2 !! "Newman" = Some [1; 2; 3]%positive)
    by (vm_compute; reflexivity).
  split; [by split_and!|].
  destruct (read_inbox_count s1 s2 "Newman" 2 _ _ Hr1 Hr2 Hb1 Hb2)
    as [(sel & Hsel & Hlen & _) _].
  destruct (read_inbox_count s1 s2 "Newman" 5 _ _ Hr1 Hr2 Hb1 Hb2)
    as [_ (ds & Hds & Hlen2 & _)].
  split.
  - exists sel. split; [exact Hsel|]. etransitivity; [exact Hlen|]. reflexivity.
  - exists ds. split; [exact Hds|]. etransitivity; [exact Hlen2|]. reflexivity.
Defined.

(** ** Reading in two goes *)

Lemma limit_split {A : Type} (n1 n2 : Z) (u : list A) :
  n1 > 0 → n2 > 0 →
  limit n1 u ++ limit n2 (drop (Z.to_nat n1) u) = limit (n1 + n2) u.
Proof.
  intros H1 H2. unfold limit, slice_to.
  rewrite !bool_decide_eq_true_2 by lia.
  by rewrite take_take_drop, Z2Nat.inj_add by lia.
Qed.

Lemma dict_selected_next (self : TurtleSent.PostOffice) user n1 n2 box :
  TurtleSent.wf self →
  TurtleSent.boxes self !! user = Some box →
  n1 > 0 →
  TurtleSent.selected (TurtleSent.read_inbox user n1 self).2 box n2
  = limit n2 (drop (Z.to_nat n1) (TurtleSent.unread self box)).
Proof.
  intros Hwf Hb Hn. unfold TurtleSent.selected at 1.
  rewrite (dict_unread_after_read _ _ _ _ Hwf Hb). unfold TurtleSent.selected.
  rewrite unpicked by by eapply dict_unread_NoDup.
  by rewrite bool_decide_eq_true_2.
Qed.

Lemma obj_selected_next (self : TurtleSentTwo.PostOffice) user n1 n2 box :
  TurtleSentTwo.wf self →
  TurtleSentTwo.boxes self !! user = Some box →
  n1 > 0 →
  TurtleSentTwo.selected (TurtleSentTwo.read_inbox user n1 self).2 box n2
  = limit n2 (drop (Z.to_nat n1) (TurtleSentTwo.unread self box)).
Proof.
  intros Hwf Hb Hn. unfold TurtleSentTwo.selected at 1.
  rewrite (obj_unread_after_read _ _ _ _ Hwf Hb). unfold TurtleSentTwo.selected.
  rewrite unpicked by by eapply obj_unread_NoDup.
  by rewrite bool_decide_eq_true_2.
Qed.

Lemma obj_details_marked (sel sel' : list loc) (h : gmap loc TurtleSentTwo.Message.t) :
  (∀ l, l ∈ sel → is_Some (h !! l)) →
  sel ⊆ sel' →
  (λ l, TurtleSentTwo.Message.get_details (TurtleSentTwo.mark_read sel' h !!! l))
  <$> sel
  = (λ l, TurtleSentTwo.Message.get_details
            (TurtleSentTwo.Message.set_read true (h !!! l))) <$> sel.
Proof.
  intros Halloc Hsub. apply list_fmap_ext. intros i l Hl%list_elem_of_lookup_2.
  destruct (Halloc l Hl) as [m Hm]. simpl.
  rewrite (lookup_total_correct _ _ _ Hm).
  rewrite (lookup_total_correct (TurtleSentTwo.mark_read sel' h) l
             (TurtleSentTwo.Message.set_read true m)); [done|].
  rewrite obj_mark_read_lookup, Hm. simpl. rewrite decide_True; [done|].
  by apply Hsub.
Qed.

(** X5: two [read_inbox] calls in a row with the numbers [n1] and [n2],
    both above zero, do what one call with [n1 + n2] does: the two results,
    one after the other, are the result of the one call, and the
    [PostOffice] ends in the same state. *)
Theorem read_inbox_twice
    (s1 : TurtleSent.PostOffice) (s2 : TurtleSentTwo.PostOffice)
    (user : string) (n1 n2 : Z) :
  TurtleSent.reachable s1 →
  TurtleSentTwo.reachable s2 →
  n1 > 0 →
  n2 > 0 →
  (a <- TurtleSent.read_inbox user n1 ;;
   b <- TurtleSent.read_inbox user n2 ;;
   ret (a ++ b)) s1
  = TurtleSent.read_inbox user (n1 + n2) s1 ∧
  (a <- TurtleSentTwo.read_inbox user n1 ;;
   b <- TurtleSentTwo.read_inbox user n2 ;;
   ret (a ++ b)) s2
  = TurtleSentTwo.read_inbox user (n1 + n2) s2.
Proof.
  intros Hr1%dict_reachable_wf Hr2%obj_reachable_wf Hn1 Hn2. split.
  - destruct (TurtleSent.boxes s1 !! user) as [box|] eqn:Hb.
    + pose proof (dict_selected_next _ _ n1 n2 _ Hr1 Hb Hn1) as Hnext.
      pose proof (dict_wf_read s1 user n1 Hr1) as Hwf'.
      assert (Hb' : TurtleSent.boxes (TurtleSent.read_inbox user n1 s1).2 !! user
                    = Some box) by by rewrite dict_read_boxes.
      pose proof (dict_read_inbox_eq _ _ n2 _ Hwf' Hb') as E2.
      rewrite (dict_read_inbox_eq _ _ (n1 + n2) _ Hr1 Hb).
      unfold bind, ret.
      rewrite (dict_read_inbox_eq _ _ n1 _ Hr1 Hb) in Hnext, E2 |- *.
      cbn [snd] in Hnext, E2. rewrite E2, Hnext.
      cbn [TurtleSent.message_id TurtleSent.read TurtleSent.boxes TurtleSent.heap].
      unfold TurtleSent.selected, TurtleSent.mark_read.
      by rewrite <- foldl_app, limit_split.
    + unfold bind. by rewrite !(dict_read_unknown _ _ _ Hb).
  - destruct (TurtleSentTwo.boxes s2 !! user) as [box|] eqn:Hb.
    + pose proof (obj_selected_next _ _ n1 n2 _ Hr2 Hb Hn1) as Hnext.
      assert (Hb' : TurtleSentTwo.boxes (TurtleSentTwo.read_inbox user n1 s2).2
                    !! user = Some box) by by rewrite obj_read_boxes.
      pose proof (obj_read_inbox_eq _ _ n2 _ Hb') as E2.
      rewrite (obj_read_inbox_eq _ _ (n1 + n2) _ Hb).
      unfold bind, ret.
      rewrite (obj_read_inbox_eq _ _ n1 _ Hb) in Hnext, E2 |- *.
      cbn [snd] in Hnext, E2. rewrite E2, Hnext.
      cbn [TurtleSentTwo.message_id TurtleSentTwo.boxes TurtleSentTwo.heap].
      set (u := TurtleSentTwo.unread s2 box).
      set (sel1 := TurtleSentTwo.selected s2 box n1).
      set (sel2 := limit n2 (drop (Z.to_nat n1) u)).
      assert (Hsel : TurtleSentTwo.selected s2 box (n1 + n2) = sel1 ++ sel2).
      { unfold TurtleSentTwo.selected, sel1, sel2, TurtleSentTwo.selected.
        fold u. by rewrite limit_split. }
      assert (Hmark : TurtleSentTwo.mark_read sel2
                        (TurtleSentTwo.mark_read sel1 (TurtleSentTwo.heap s2))
                      = TurtleSentTwo.mark_read (sel1 ++ sel2) (TurtleSentTwo.heap s2)).
      { unfold TurtleSentTwo.mark_read. by rewrite foldl_app. }
      assert (Halloc : ∀ l, l ∈ sel1 → is_Some (TurtleSentTwo.heap s2 !! l)).
      { intros l [Hl _]%obj_selected_box. destruct Hr2 as (_ & Hwf).
        by eapply (wf_alloc _ _ _ _ Hwf). }
      rewrite Hsel, Hmark, fmap_app. do 3 f_equal.
      rewrite !obj_details_marked; [done | done | set_solver | done | done].
    + unfold bind. by rewrite !(obj_read_unknown _ _ _ Hb).
Qed.

Lemma read_inbox_twice_witness :
  let s1 := (TurtleSent.run show_example_sends (TurtleSent.__init__ users).2).2 in
  let s2 := (TurtleSentTwo.run show_example_sends (TurtleSentTwo.__init__ users).2).2 in
  (TurtleSent.reachable s1 ∧ TurtleSentTwo.reachable s2 ∧ 1 > 0 ∧ 2 > 0) ∧
  (a <- TurtleSent.read_inbox "Newman" 1 ;;
   b <- TurtleSent.read_inbox "Newman" 2 ;;
   ret (a ++ b)) s1
  = TurtleSent.read_inbox "Newman" 3 s1 ∧
  (a <- TurtleSentTwo.read_inbox "Newman" 1 ;;
   b <- TurtleSentTwo.read_inbox "Newman" 2 ;;
   ret (a ++ b)) s2
  = TurtleSentTwo.read_inbox "Newman" 3 s2.
Proof.
  intros s1 s2.
  assert (Hr1 : TurtleSent.reachable s1)
    by apply dict_reachable_run, TurtleSent.reachable_init.
  assert (Hr2 : TurtleSentTwo.reachable s2)
    by apply obj_reachable_run, TurtleSentTwo.reachable_init.
  assert (H1 : 1 > 0) by reflexivity.
  assert (H2 : 2 > 0) by reflexivity.
  split; [by split_and!|].
  exact (read_inbox_twice s1 s2 "Newman" 1 2 Hr1 Hr2 H1 H2).
Defined.

(** ** Searching after reading *)

Lemma dict_read_body (self : TurtleSent.PostOffice) user n l m :
  TurtleSent.wf self →
  TurtleSent.heap self !! l = Some m →
  TurtleSent.msg_body (TurtleSent.heap (TurtleSent.read_inbox user n self).2 !!! l)
  = TurtleSent.msg_body m.
Proof.
  intros Hwf Hl.
  destruct (dict_read_heap_cases _ user n _ _ Hwf Hl) as [H|[H _]];
    by rewrite (lookup_total_correct _ _ _ H).
Qed.

Lemma obj_read_body (self : TurtleSentTwo.PostOffice) user n l m :
  TurtleSentTwo.heap self !! l = Some m →
  TurtleSentTwo.Message.message_body
    (TurtleSentTwo.heap (TurtleSentTwo.read_inbox user n self).2 !!! l)
  = TurtleSentTwo.Message.message_body m.
Proof.
  intros Hl.
  destruct (obj_read_heap_cases _ user n _ _ Hl) as [H|[H _]];
    by rewrite (lookup_total_correct _ _ _ H).
Qed.

(** X6: reading does not change what a search finds.  After a
    [read_inbox] of any user, [search_inbox] picks the same messages of an
    inbox, in the same order, as before it: [turtle_sent.py] gives the same
    list of dicts, [turtle_sent_two.py] the details of the same messages as
    they are then. *)
Theorem search_inbox_after_read
    (s1 : TurtleSent.PostOffice) (s2 : TurtleSentTwo.PostOffice)
    (user part_message reader : string) (n : Z) (box2 : list loc) :
  TurtleSent.reachable s1 →
  TurtleSentTwo.reachable s2 →
  TurtleSentTwo.boxes s2 !! user = Some box2 →
  let s1' := (TurtleSent.read_inbox reader n s1).2 in
  let s2' := (TurtleSentTwo.read_inbox reader n s2).2 in
  let found :=
    filter (λ l, occurs_in part_message
                   (TurtleSentTwo.Message.message_body (TurtleSentTwo.heap s2 !!! l)))
           box2 in
  (TurtleSent.search_inbox user part_message s1').1
  = (TurtleSent.search_inbox user part_message s1).1 ∧
  ((TurtleSentTwo.search_inbox user part_message s2).1
   = Return (TurtleSentTwo.Message.get_details <$> TurtleSentTwo.deref s2 found) ∧
   (TurtleSentTwo.search_inbox user part_message s2').1
   = Return (TurtleSentTwo.Message.get_details <$> TurtleSentTwo.deref s2' found)).
Proof.
  intros Hr1%dict_reachable_wf Hr2%obj_reachable_wf Hb2 s1' s2' found. split.
  - destruct (TurtleSent.boxes s1 !! user) as [box|] eqn:Hb.
    + assert (Hb' : TurtleSent.boxes s1' !! user = Some box).
      { unfold s1'. by rewrite dict_read_boxes. }
      rewrite (dict_search_inbox_eq _ _ _ _ Hb), (dict_search_inbox_eq _ _ _ _ Hb').
      cbn [fst]. f_equal. apply filter_ext_elem. intros l Hl.
      destruct Hr1 as (? & ? & Hwf).
      destruct (wf_alloc _ _ _ _ Hwf _ _ _ Hb Hl) as [m Hm].
      unfold s1'. rewrite (dict_read_body _ _ _ _ m) by done.
      by rewrite (lookup_total_correct _ _ _ Hm).
    + assert (Hb' : TurtleSent.boxes s1' !! user = None).
      { unfold s1'. by rewrite dict_read_boxes. }
      unfold TurtleSent.search_inbox. by rewrite Hb, Hb'.
  - assert (Hb' : TurtleSentTwo.boxes s2' !! user = Some box2).
    { unfold s2'. by rewrite obj_read_boxes. }
    rewrite (obj_search_inbox_eq _ _ _ _ Hb2), (obj_search_inbox_eq _ _ _ _ Hb').
    cbn [fst]. unfold TurtleSentTwo.deref. rewrite <- !list_fmap_compose.
    split; [done|]. do 2 f_equal. apply filter_ext_elem. intros l Hl.
    destruct Hr2 as (? & Hwf).
    destruct (wf_alloc _ _ _ _ Hwf _ _ _ Hb2 Hl) as [m Hm].
    unfold s2'. rewrite (obj_read_body _ _ _ _ m) by done.
    by rewrite (lookup_total_correct _ _ _ Hm).
Qed.

Lemma search_inbox_after_read_witness :
  let s1 := (TurtleSent.run show_example_sends (TurtleSent.__init__ users).2).2 in
  let s2 := (TurtleSentTwo.run show_example_sends (TurtleSentTwo.__init__ users).2).2 in
  (TurtleSent.reachable s1 ∧ TurtleSentTwo.reachable s2 ∧
   TurtleSentTwo.boxes s2 !! "Newman" = Some [1; 2; 3]%positive) ∧
  (TurtleSent.search_inbox "Newman" "llo" (TurtleSent.read_inbox "Newman" 1 s1).2).1
  = Return [1; 2]%positive ∧
  outcome_map (fmap elements)
    (TurtleSentTwo.search_inbox "Newman" "llo"
       (TurtleSentTwo.read_inbox "Newman" 1 s2).2).1
  = Return
      [ ["Id: 1, Body: Hello, Newman., Sender: Mr. Peanutbutter, Read: True"];
        ["Id: 2, Body: Hello world, Newman., Sender: Mr. Peanutbutter, Read: False"] ].
Proof.
  intros s1 s2.
  assert (Hr1 : TurtleSent.reachable s1)
    by apply dict_reachable_run, TurtleSent.reachable_init.
  assert (Hr2 : TurtleSentTwo.reachable s2)
    by apply obj_reachable_run, TurtleSentTwo.reachable_init.
  assert (Hb2 : TurtleSentTwo.boxes s2 !! "Newman" = Some [1; 2; 3]%positive)
    by (vm_compute; reflexivity).
  split; [by split_and!|].
  destruct (search_inbox_after_read s1 s2 "Newman" "llo" "Newman" 1 _ Hr1 Hr2 Hb2)
    as [Hd [_ Ho]].
  split.
  - rewrite Hd. vm_compute. reflexivity.
  - rewrite Ho. vm_compute. reflexivity.
Defined.

(** ** Sending to one user and reading as another *)

Lemma mark_insert_fresh {A : Type} (f : A → A) (sel : list loc)
    (h : gmap loc A) (l0 : loc) (m : A) :
  l0 ∉ sel →
  foldl (λ h l, alter f l h) (<[l0 := m]> h) sel
  = <[l0 := m]> (foldl (λ h l, alter f l h) h sel).
Proof.
  revert h. induction sel as [|l sel IH]; intros h Hnot; [done|]. simpl.
  rewrite alter_insert_ne by set_solver. apply IH. set_solver.
Qed.

Lemma dict_send_then_read (self : TurtleSent.PostOffice)
    (sender recipient message_body : string) (urgent : bool)
    (user : string) (n : Z) (box_r box_u : list loc) :
  TurtleSent.wf self →
  TurtleSent.boxes self !! recipient = Some box_r →
  TurtleSent.boxes self !! user = Some box_u →
  recipient ≠ user →
  (a <- TurtleSent.send_message sender recipient message_body urgent ;;
   b <- TurtleSent.read_inbox user n ;;
   ret (a, b)) self
  = (b <- TurtleSent.read_inbox user n ;;
     a <- TurtleSent.send_message sender recipient message_body urgent ;;
     ret (a, b)) self.
Proof.
  intros Hwf Hr Hu Hne.
  pose proof (dict_wf_send self sender recipient message_body urgent Hwf) as HwfS.
  pose proof (dict_wf_read self user n Hwf) as HwfR.
  pose proof (dict_send_unread_old self sender recipient message_body urgent box_u)
    as Hunread.
  pose proof (dict_read_dom self user n Hwf) as Hdom.
  assert (HuS : TurtleSent.boxes
                  (TurtleSent.send_message sender recipient message_body urgent self).2
                !! user = Some box_u).
  { by rewrite dict_send_other. }
  assert (HrR : TurtleSent.boxes (TurtleSent.read_inbox user n self).2 !! recipient
                = Some box_r).
  { by rewrite dict_read_boxes. }
  pose proof (dict_read_inbox_eq _ _ n _ HwfS HuS) as ER.
  destruct HwfR as (HreadR & _).
  pose proof (dict_send_message_eq _ sender _ message_body urgent _ HreadR HrR) as ES.
  destruct Hwf as (Hread & Hc & Hwf).
  assert (Halloc : ∀ l, l ∈ box_u → is_Some (TurtleSent.heap self !! l)).
  { intros l Hl. by eapply (wf_alloc _ _ _ _ Hwf). }
  specialize (Hunread Halloc).
  assert (Hfresh : new (TurtleSent.heap self) ∉ TurtleSent.selected self box_u n).
  { intros [Hl _]%dict_selected_box. destruct (Halloc _ Hl) as [x Hx].
    by rewrite new_fresh in Hx. }
  unfold bind, ret.
  rewrite (dict_send_message_eq _ _ _ _ _ _ Hread Hr) in ER, Hunread |- *.
  rewrite (dict_read_inbox_eq _ _ n _ (conj Hread (conj Hc Hwf)) Hu)
    in ES, Hdom |- *.
  cbn [snd] in ER, ES, Hunread, Hdom. rewrite ER, ES.
  cbn [TurtleSent.message_id TurtleSent.read TurtleSent.boxes TurtleSent.heap] in *.
  unfold TurtleSent.selected at 1 2. rewrite Hunread.
  fold (TurtleSent.selected self box_u n).
  assert (Hnew : new (TurtleSent.mark_read (TurtleSent.selected self box_u n)
                        (TurtleSent.heap self))
                 = new (TurtleSent.heap self)).
  { unfold new. by rewrite Hdom. }
  rewrite !Hnew. unfold TurtleSent.mark_read. by rewrite mark_insert_fresh.
Qed.

Lemma obj_send_then_read (self : TurtleSentTwo.PostOffice)
    (sender recipient message_body : string) (urgent : bool)
    (user : string) (n : Z) (box_r box_u : list loc) :
  TurtleSentTwo.wf self →
  TurtleSentTwo.boxes self !! recipient = Some box_r →
  TurtleSentTwo.boxes self !! user = Some box_u →
  recipient ≠ user →
  (a <- TurtleSentTwo.send_message sender recipient message_body urgent ;;
   b <- TurtleSentTwo.read_inbox user n ;;
   ret (a, b)) self
  = (b <- TurtleSentTwo.read_inbox user n ;;
     a <- TurtleSentTwo.send_message sender recipient message_body urgent ;;
     ret (a, b)) self.
Proof.
  intros Hwf Hr Hu Hne.
  pose proof (obj_send_unread_old self sender recipient message_body urgent box_u)
    as Hunread.
  pose proof (obj_read_dom self user n) as Hdom.
  assert (HuS : TurtleSentTwo.boxes
                  (TurtleSentTwo.send_message sender recipient message_body urgent
                     self).2
                !! user = Some box_u).
  { by rewrite obj_send_other. }
  assert (HrR : TurtleSentTwo.boxes (TurtleSentTwo.read_inbox user n self).2
                !! recipient = Some box_r).
  { by rewrite obj_read_boxes. }
  pose proof (obj_read_inbox_eq _ _ n _ HuS) as ER.
  pose proof (obj_send_message_eq _ sender _ message_body urgent _ HrR) as ES.
  destruct Hwf as (Hc & Hwf).
  assert (Halloc : ∀ l, l ∈ box_u → is_Some (TurtleSentTwo.heap self !! l)).
  { intros l Hl. by eapply (wf_alloc _ _ _ _ Hwf). }
  specialize (Hunread Halloc).
  assert (Hfresh : ∀ l, l ∈ TurtleSentTwo.selected self box_u n →
                        l ≠ new (TurtleSentTwo.heap self)).
  { intros l [Hl _]%obj_selected_box ->. destruct (Halloc _ Hl) as [x Hx].
    by rewrite new_fresh in Hx. }
  unfold bind, ret.
  rewrite (obj_send_message_eq _ _ _ _ _ _ Hr) in ER, Hunread |- *.
  rewrite (obj_read_inbox_eq _ _ n _ Hu) in ES, Hdom |- *.
  cbn [snd] in ER, ES, Hunread, Hdom. rewrite ER, ES.
  cbn [TurtleSentTwo.message_id TurtleSentTwo.boxes TurtleSentTwo.heap] in *.
  unfold TurtleSentTwo.selected at 1 2 3. rewrite Hunread.
  fold (TurtleSentTwo.selected self box_u n).
  assert (Hnew : new (TurtleSentTwo.mark_read (TurtleSentTwo.selected self box_u n)
                        (TurtleSentTwo.heap self))
                 = new (TurtleSentTwo.heap self)).
  { unfold new. by rewrite Hdom. }
  assert (Hmark : TurtleSentTwo.mark_read (TurtleSentTwo.selected self box_u n)
                    (<[new (TurtleSentTwo.heap self) :=
                         TurtleSentTwo.Message.mk (TurtleSentTwo.message_id self + 1)
                           message_body sender false]> (TurtleSentTwo.heap self))
                  = <[new (TurtleSentTwo.heap self) :=
                        TurtleSentTwo.Message.mk (TurtleSentTwo.message_id self + 1)
                          message_body sender false]>
                      (TurtleSentTwo.mark_read (TurtleSentTwo.selected self box_u n)
                         (TurtleSentTwo.heap self))).
  { unfold TurtleSentTwo.mark_read. apply mark_insert_fresh.
    intros Hin. by apply Hfresh in Hin. }
  rewrite !Hnew, !Hmark. do 3 f_equal.
  apply list_fmap_ext. intros i l Hl%list_elem_of_lookup_2.
  by rewrite lookup_total_insert_ne by (symmetry; by apply Hfresh).
Qed.

(** X7: a [send_message] to one registered user and a [read_inbox] of
    another can be made in either order: both orders give the same id, the
    same read result and the same [PostOffice]. *)
Theorem send_and_read_commute
    (s1 : TurtleSent.PostOffice) (s2 : TurtleSentTwo.PostOffice)
    (sender recipient message_body : string) (urgent : bool)
    (user : string) (n : Z) :
  TurtleSent.reachable s1 →
  TurtleSentTwo.reachable s2 →
  is_Some (TurtleSent.boxes s1 !! recipient) →
  is_Some (TurtleSent.boxes s1 !! user) →
  is_Some (TurtleSentTwo.boxes s2 !! recipient) →
  is_Some (TurtleSentTwo.boxes s2 !! user) →
  recipient ≠ user →
  (a <- TurtleSent.send_message sender recipient message_body urgent ;;
   b <- TurtleSent.read_inbox user n ;;
   ret (a, b)) s1
  = (b <- TurtleSent.read_inbox user n ;;
     a <- TurtleSent.send_message sender recipient message_body urgent ;;
     ret (a, b)) s1 ∧
  (a <- TurtleSentTwo.send_message sender recipient message_body urgent ;;
   b <- TurtleSentTwo.read_inbox user n ;;
   ret (a, b)) s2
  = (b <- TurtleSentTwo.read_inbox user n ;;
     a <- TurtleSentTwo.send_message sender recipient message_body urgent ;;
     ret (a, b)) s2.
Proof.
  intros Hr1%dict_reachable_wf Hr2%obj_reachable_wf [br1 Hbr1] [bu1 Hbu1]
    [br2 Hbr2] [bu2 Hbu2] Hne.
  split.
  - by apply (dict_send_then_read _ _ _ _ _ _ _ br1 bu1).
  - by apply (obj_send_then_read _ _ _ _ _ _ _ br2 bu2).
Qed.

Lemma send_and_read_commute_witness :
  let s1 := (TurtleSent.run show_example_sends (TurtleSent.__init__ users).2).2 in
  let s2 := (TurtleSentTwo.run show_example_sends (TurtleSentTwo.__init__ users).2).2 in
  (TurtleSent.reachable s1 ∧ TurtleSentTwo.reachable s2 ∧
   is_Some (TurtleSent.boxes s1 !! "Mr. Peanutbutter") ∧
   is_Some (TurtleSent.boxes s1 !! "Newman") ∧
   is_Some (TurtleSentTwo.boxes s2 !! "Mr. Peanutbutter") ∧
   is_Some (TurtleSentTwo.boxes s2 !! "Newman") ∧
   "Mr. Peanutbutter" ≠ "Newman") ∧
  (a <- TurtleSent.send_message "Newman" "Mr. Peanutbutter" "Hello back." true ;;
   b <- TurtleSent.read_inbox "Newman" 2 ;;
   ret (a, b)) s1
  = (b <- TurtleSent.read_inbox "Newman" 2 ;;
     a <- TurtleSent.send_message "Newman" "Mr. Peanutbutter" "Hello back." true ;;
     ret (a, b)) s1 ∧
  (a <- TurtleSentTwo.send_message "Newman" "Mr. Peanutbutter" "Hello back." true ;;
   b <- TurtleSentTwo.read_inbox "Newman" 2 ;;
   ret (a, b)) s2
  = (b <- TurtleSentTwo.read_inbox "Newman" 2 ;;
     a <- TurtleSentTwo.send_message "Newman" "Mr. Peanutbutter" "Hello back." true ;;
     ret (a, b)) s2.
Proof.
  intros s1 s2.
  assert (Hr1 : TurtleSent.reachable s1)
    by apply dict_reachable_run, TurtleSent.reachable_init.
  assert (Hr2 : TurtleSentTwo.reachable s2)
    by apply obj_reachable_run, TurtleSentTwo.reachable_init.
  assert (H1 : is_Some (TurtleSent.boxes s1 !! "Mr. Peanutbutter"))
    by (vm_compute; eauto).
  assert (H2 : is_Some (TurtleSent.boxes s1 !! "Newman")) by (vm_compute; eauto).
  assert (H3 : is_Some (TurtleSentTwo.boxes s2 !! "Mr. Peanutbutter"))
    by (vm_compute; eauto).
  assert (H4 : is_Some (TurtleSentTwo.boxes s2 !! "Newman")) by (vm_compute; eauto).
  assert (H5 : "Mr. Peanutbutter" ≠ "Newman") by discriminate.
  split; [by split_and!|].
  exact (send_and_read_commute s1 s2 "Newman" "Mr. Peanutbutter" "Hello back." true
           "Newman" 2 Hr1 Hr2 H1 H2 H3 H4 H5).
Defined.

(** ** The details of a message *)

Lemma string_app_assoc (a b c : string) : (a +:+ b) +:+ c = a +:+ (b +:+ c).
Proof.
  induction a as [|x a IH]; [done|].
  change (String x ((a +:+ b) +:+ c) = String x (a +:+ (b +:+ c))).
  by rewrite IH.
Qed.

Lemma list_of_string_app (a b : string) :
  String.list_ascii_of_string (a +:+ b)
  = String.list_ascii_of_string a ++ String.list_ascii_of_string b.
Proof.
  induction a as [|x a IH]; [done|].
  change (x :: String.list_ascii_of_string (a +:+ b)
          = x :: (String.list_ascii_of_string a ++ String.list_ascii_of_string b)).
  by rewrite IH.
Qed.

Lemma list_of_string_inj (a b : string) :
  String.list_ascii_of_string a = String.list_ascii_of_string b → a = b.
Proof.
  intros H. rewrite <- (String.string_of_list_ascii_of_string a),
    <- (String.string_of_list_ascii_of_string b). by rewrite H.
Qed.

(** Equal strings with endings of equal length have equal beginnings and
    equal endings. *)
Lemma string_app_inj_tail (a b t t' : string) :
  String.length t = String.length t' →
  a +:+ t = b +:+ t' → a = b ∧ t = t'.
Proof.
  intros Hlen Heq. apply (f_equal String.list_ascii_of_string) in Heq.
  rewrite !list_of_string_app in Heq.
  apply app_inj_2 in Heq as [Ha Ht].
  - split; by apply list_of_string_inj.
  - clear Heq. revert t' Hlen. induction t as [|x t IH]; intros [|y t'] Hlen;
      simpl in *; try done. f_equal. apply IH. lia.
Qed.

Lemma contains_comma_cons (c : Ascii.ascii) (s : string) :
  contains (String c s) "," = false ↔ c ≠ ","%char ∧ contains s "," = false.
Proof.
  cbn [contains starts_with]. destruct (Ascii.eqb_spec "," c) as [<-|Hne].
  - destruct s; simpl; naive_solver.
  - simpl. naive_solver.
Qed.

(** Two strings that are cut at their first comma: equal strings have
    equal parts. *)
Lemma split_at_comma (a b r r' : string) :
  contains a "," = false → contains b "," = false →
  a +:+ String "," r = b +:+ String "," r' → a = b ∧ r = r'.
Proof.
  revert b. induction a as [|x a IH]; intros [|y b] Ha Hb Heq; simpl in Heq.
  - by injection Heq.
  - injection Heq as <- _. apply contains_comma_cons in Hb. naive_solver.
  - injection Heq as -> _. apply contains_comma_cons in Ha. naive_solver.
  - injection Heq as -> Heq.
    apply contains_comma_cons in Ha as [_ Ha], Hb as [_ Hb].
    destruct (IH b Ha Hb Heq) as [-> ->]. done.
Qed.

Lemma pretty_N_char_no_comma (x : N) : pretty_N_char x ≠ ","%char.
Proof. unfold pretty_N_char. by repeat case_match. Qed.

Lemma pretty_N_go_no_comma (x : N) (s : string) :
  contains s "," = false → contains (pretty_N_go x s) "," = false.
Proof.
  revert s. induction (N.lt_wf_0 x) as [x _ IH]; intros s Hs.
  assert (x = 0 ∨ 0 < x)%N as [->|Hx] by lia.
  - by rewrite pretty_N_go_0.
  - rewrite pretty_N_go_step by done. apply IH.
    + by apply N.div_lt.
    + apply contains_comma_cons. split; [apply pretty_N_char_no_comma | done].
Qed.

Lemma pretty_positive_no_comma (p : positive) : contains (pretty p) "," = false.
Proof.
  unfold pretty, pretty_positive, pretty, pretty_N.
  rewrite decide_False by done. by apply pretty_N_go_no_comma.
Qed.

(** [str(n)] has no comma in it. *)
Lemma str_int_no_comma (n : Z) : contains (str_int n) "," = false.
Proof.
  unfold str_int, pretty, pretty_Z. destruct n as [|p|p].
  - done.
  - apply pretty_positive_no_comma.
  - change ("-" +:+ pretty p) with (String "-" (pretty p)).
    apply contains_comma_cons. split; [done | apply pretty_positive_no_comma].
Qed.

(** The end of the details tells the flag. *)
Lemma details_tail (a b : string) (r r' : bool) :
  a +:+ ", Read: " +:+ str_bool r = b +:+ ", Read: " +:+ str_bool r' →
  a = b ∧ r = r'.
Proof.
  destruct r, r'; simpl; intros Heq.
  - by apply string_app_inj_tail in Heq as [-> _].
  - assert (Heq' : (a +:+ ", Read:") +:+ " True" = (b +:+ ", Read: ") +:+ "False").
    { rewrite !string_app_assoc. exact Heq. }
    by apply string_app_inj_tail in Heq' as [_ ?].
  - assert (Heq' : (a +:+ ", Read: ") +:+ "False" = (b +:+ ", Read:") +:+ " True").
    { rewrite !string_app_assoc. exact Heq. }
    by apply string_app_inj_tail in Heq' as [_ ?].
  - by apply string_app_inj_tail in Heq as [-> _].
Qed.

Lemma string_app_nil_r (a : string) : a +:+ "" = a.
Proof.
  induction a as [|x a IH]; [done|].
  change (String x (a +:+ "") = String x a). by rewrite IH.
Qed.

(** X8: the details of a message do not tell the message.  A body that has
    [", Sender: "] in it reads like the end of a shorter body and the start
    of the sender: two different messages have the same details. *)
Theorem get_details_ambiguous (m_id : Z) (a b c : string) (r : bool) :
  let m1 := TurtleSentTwo.Message.mk m_id (a +:+ ", Sender: " +:+ b) c r in
  let m2 := TurtleSentTwo.Message.mk m_id a (b +:+ ", Sender: " +:+ c) r in
  m1 ≠ m2 ∧
  TurtleSentTwo.Message.get_details m1 = TurtleSentTwo.Message.get_details m2.
Proof.
  intros m1 m2. split.
  - intros Heq. injection Heq as Hbody _.
    rewrite <- (string_app_nil_r a) in Hbody at 2.
    by apply (inj (String.append a)) in Hbody.
  - unfold TurtleSentTwo.Message.get_details, m1, m2. simpl.
    by rewrite !string_app_assoc.
Qed.

(** X9: what the details of a message do tell: its id and its flag,
    always; and the whole message, when the body has no comma in it. *)
Theorem get_details_tells (m m' : TurtleSentTwo.Message.t) :
  TurtleSentTwo.Message.get_details m = TurtleSentTwo.Message.get_details m' →
  TurtleSentTwo.Message.message_id m = TurtleSentTwo.Message.message_id m' ∧
  TurtleSentTwo.Message.message_read m = TurtleSentTwo.Message.message_read m' ∧
  (contains (TurtleSentTwo.Message.message_body m) "," = false →
   contains (TurtleSentTwo.Message.message_body m') "," = false →
   m = m').
Proof.
  destruct m as [i b s r], m' as [i' b' s' r'].
  unfold TurtleSentTwo.Message.get_details. simpl. intros Hset.
  assert (Hs : "Id: " +:+ str_int i +:+ ", Body: " +:+ b +:+ ", Sender: " +:+ s
               +:+ ", Read: " +:+ str_bool r
               = "Id: " +:+ str_int i' +:+ ", Body: " +:+ b' +:+ ", Sender: " +:+ s'
                 +:+ ", Read: " +:+ str_bool r').
  { apply (elem_of_singleton (C := gset string)). rewrite <- Hset.
    by apply elem_of_singleton. }
  clear Hset. apply (inj (String.append "Id: ")) in Hs.
  apply (split_at_comma (str_int i) (str_int i')) in Hs as [Hi Hs];
    [|apply str_int_no_comma..].
  apply (inj pretty) in Hi as <-.
  apply (inj (String.append " Body: ")) in Hs.
  assert (Hs' : (b +:+ ", Sender: " +:+ s) +:+ ", Read: " +:+ str_bool r
                = (b' +:+ ", Sender: " +:+ s') +:+ ", Read: " +:+ str_bool r').
  { by rewrite !string_app_assoc. }
  apply details_tail in Hs' as [Hbs <-]. split_and!; [done | done |].
  intros Hb Hb'.
  apply (split_at_comma b b') in Hbs as [<- Hsender]; [|done..].
  apply (inj (String.append " Sender: ")) in Hsender as <-. done.
Qed.

Lemma get_details_tells_witness :
  let m := TurtleSentTwo.Message.mk 3 "Good bye" "Mr. Peanutbutter" false in
  let m' := TurtleSentTwo.Message.set_read false
              (TurtleSentTwo.Message.set_read true
                 (TurtleSentTwo.Message.__init__ 3 "Good bye" "Mr. Peanutbutter")) in
  TurtleSentTwo.Message.get_details m = TurtleSentTwo.Message.get_details m' ∧
  contains (TurtleSentTwo.Message.message_body m) "," = false ∧
  contains (TurtleSentTwo.Message.message_body m') "," = false ∧
  m = m'.
Proof.
  intros m m'.
  assert (H : TurtleSentTwo.Message.get_details m
              = TurtleSentTwo.Message.get_details m') by reflexivity.
  assert (Hb : contains (TurtleSentTwo.Message.message_body m) "," = false)
    by reflexivity.
  assert (Hb' : contains (TurtleSentTwo.Message.message_body m') "," = false)
    by reflexivity.
  destruct (get_details_tells m m' H) as (_ & _ & Hm).
  exact (conj H (conj Hb (conj Hb' (Hm Hb Hb')))).
Defined.

(** ** remembers_remembers.py: decoding an image *)

Section open_image.
Import RemembersRemembers.

Lemma pixels_cons (first width high : nat) :
  pixels first (S width) high
  = ((λ row, (first, row)) <$> seq 0 high) ++ pixels (S first) width high.
Proof.
  unfold pixels. simpl. f_equal.
Qed.

Lemma pixels_length (first width high : nat) :
  length (pixels first width high) = (width * high)%nat.
Proof.
  revert first. induction width as [|w IH]; intros first; [done|].
  rewrite pixels_cons, length_app, length_fmap, length_seq, IH. lia.
Qed.

Lemma pixels_row (first width high column row : nat) :
  (column, row) ∈ pixels first width high → (row < high)%nat.
Proof.
  revert first. induction width as [|w IH]; intros first.
  - by intros ?%elem_of_nil.
  - rewrite pixels_cons, elem_of_app, list_elem_of_fmap.
    intros [(r & [= -> ->] & Hr) | H]; [|by eapply IH].
    apply elem_of_seq in Hr. lia.
Qed.

Lemma open_image_eq (image : Image) :
  open_image image
  = mapM (λ '(column, row), chr row)
         (filter (λ p, load image p = 1) (pixels 0 (size image).1 (size image).2)).
Proof. unfold open_image, pixels. by destruct (size image). Qed.

Lemma chr_Some (i c : nat) : chr i = Some c → c = i ∧ Z.of_nat i < 1114112.
Proof. unfold chr. case_decide; naive_solver. Qed.

(** X10: what [open_image] gives for any image.  When it returns, the
    result has at most one character for each pixel and every character has
    a code below the height of the image; and it does return, without a
    [ValueError] from [chr], for every image that is at most 0x110000
    pixels high. *)
Theorem open_image_bounds (image : Image) :
  let width := (size image).1 in
  let high := (size image).2 in
  (∀ letter, open_image image = Some letter →
     (length letter ≤ width * high)%nat ∧
     Forall (λ c, (c < high)%nat) letter) ∧
  (Z.of_nat high ≤ 1114112 → is_Some (open_image image)).
Proof.
  intros width high. rewrite open_image_eq. fold width high.
  set (black := filter (λ p, load image p = 1) (pixels 0 width high)).
  assert (Hrow : ∀ column row, (column, row) ∈ black → (row < high)%nat).
  { intros column row [_ Hin]%list_elem_of_filter. by eapply pixels_row. }
  split.
  - intros letter Hl%mapM_Some. split.
    + rewrite <- (Forall2_length _ _ _ Hl), <- (pixels_length 0 width high).
      apply length_filter.
    + clear -Hl Hrow. induction Hl as [|[column row] c l k Hc _ IH]; [done|].
      constructor.
      * apply chr_Some in Hc as [-> _]. apply (Hrow column row). left.
      * apply IH. intros ???. eapply Hrow. by right.
  - intros Hhigh. apply mapM_is_Some, Forall_forall. intros [column row] Hin.
    apply Hrow in Hin. unfold chr. simpl. rewrite decide_True by lia. eauto.
Qed.

(** In the image that spells [text], the one pixel of column [k] with the
    number 1 is the one in the row of the [k]-th character. *)
Lemma spell_column (text : list nat) (high k x : nat) :
  text !! k = Some x →
  (x < high)%nat →
  filter (λ p, load (spell text high) p = 1) ((λ row, (k, row)) <$> seq 0 high)
  = [(k, x)].
Proof.
  intros Hk Hx.
  assert (Hblack : ∀ row, load (spell text high) (k, row) = 1 ↔ row = x).
  { intros row. simpl. case_decide; naive_solver. }
  assert (Hseq : seq 0 high = seq 0 x ++ x :: seq (S x) (high - S x)).
  { replace high with (x + S (high - S x))%nat at 1 by lia. by rewrite seq_app. }
  rewrite Hseq, fmap_app, filter_app. rewrite fmap_cons.
  rewrite filter_cons_True by by apply Hblack.
  rewrite !filter_none; [done | |].
  - intros p (row & -> & Hrow%elem_of_seq)%list_elem_of_fmap. rewrite Hblack. lia.
  - intros p (row & -> & Hrow%elem_of_seq)%list_elem_of_fmap. rewrite Hblack. lia.
Qed.

Lemma open_image_spell_from (pre t : list nat) (high : nat) :
  Forall (λ c, (c < high)%nat ∧ Z.of_nat c < 1114112) t →
  mapM (λ '(column, row), chr row)
       (filter (λ p, load (spell (pre ++ t) high) p = 1)
               (pixels (length pre) (length t) high))
  = Some t.
Proof.
  revert pre. induction t as [|x t IH]; intros pre Hvalid; [done|].
  apply Forall_cons in Hvalid as [[Hx Hcode] Hvalid].
  cbn [length]. rewrite pixels_cons, filter_app.
  rewrite (spell_column _ _ _ x) by (by rewrite ?list_lookup_middle).
  specialize (IH (pre ++ [x]) Hvalid).
  rewrite <- app_assoc, length_app, Nat.add_comm in IH. simpl in IH.
  simpl. rewrite IH. unfold chr. by rewrite decide_True.
Qed.

(** X11: [open_image] reads back what an image spells.  For the image that
    has one column for each character of [text], with the number 1 at the
    row of the character's code point and nowhere else in the column,
    [open_image] gives [text], provided every code point is below the
    height of the image and is one that [chr] accepts. *)
Theorem open_image_spell (text : list nat) (high : nat) :
  Forall (λ c, (c < high)%nat ∧ Z.of_nat c < 1114112) text →
  open_image (spell text high) = Some text.
Proof.
  intros Hvalid. rewrite open_image_eq.
  apply (open_image_spell_from [] text high Hvalid).
Qed.

Lemma open_image_spell_witness :
  let text := [80; 108; 97; 99; 101]%nat in
  Forall (λ c, (c < 128)%nat ∧ Z.of_nat c < 1114112) text ∧
  open_image (spell text 128) = Some text.
Proof.
  intros text.
  assert (H : Forall (λ c, (c < 128)%nat ∧ Z.of_nat c < 1114112) text).
  { repeat constructor; simpl; lia. }
  exact (conj H (open_image_spell text 128 H)).
Defined.

End open_image.

(** ** A message that was sent can be found *)

Lemma occurs_in_self (s : string) : occurs_in s s.
Proof. exists "", "". by rewrite string_app_nil_r. Qed.

(** X12: a message that was just sent is found by its own text: after a
    [send_message] to a registered user, [search_inbox] of that user for
    the body of the message gives a result that has the new message in
    it, unread and with the id that [send_message] gave back. *)
Theorem sent_message_is_found
    (s1 : TurtleSent.PostOffice) (s2 : TurtleSentTwo.PostOffice)
    (sender recipient message_body : string) (urgent : bool) :
  TurtleSent.reachable s1 →
  TurtleSentTwo.reachable s2 →
  is_Some (TurtleSent.boxes s1 !! recipient) →
  is_Some (TurtleSentTwo.boxes s2 !! recipient) →
  let p1 := (TurtleSent.send_message sender recipient message_body urgent ;;
             TurtleSent.search_inbox recipient message_body) s1 in
  let p2 := (TurtleSentTwo.send_message sender recipient message_body urgent ;;
             TurtleSentTwo.search_inbox recipient message_body) s2 in
  (∃ found, outcome_map (TurtleSent.deref p1.2) p1.1 = Return found ∧
            TurtleSent.mk_details (TurtleSent.message_id s1 + 1)
              message_body sender false ∈ found) ∧
  (∃ found, p2.1 = Return found ∧
            TurtleSentTwo.Message.get_details
              (TurtleSentTwo.Message.mk (TurtleSentTwo.message_id s2 + 1)
                 message_body sender false) ∈ found).
Proof.
  intros Hr1%dict_reachable_wf Hr2%obj_reachable_wf [box1 Hb1] [box2 Hb2] p1 p2.
  split.
  - pose proof (dict_send_box s1 sender recipient message_body urgent _ Hb1) as Hbox.
    destruct Hr1 as (Hread & _).
    pose proof (dict_send_new s1 sender recipient message_body urgent _ Hread Hb1)
      as Hnew.
    pose proof (dict_search_inbox_eq _ _ message_body _ Hbox) as Hsearch.
    unfold p1, bind.
    rewrite (dict_send_message_eq _ _ _ _ _ _ Hread Hb1) in Hsearch, Hnew |- *.
    cbn [snd] in Hsearch, Hnew. rewrite Hsearch. cbn [fst snd outcome_map].
    eexists. split; [done|].
    unfold TurtleSent.deref. apply list_elem_of_fmap.
    exists (new (TurtleSent.heap s1)). split; [by rewrite Hnew|].
    apply list_elem_of_filter. split.
    + rewrite Hnew. apply occurs_in_self.
    + destruct urgent; set_solver.
  - pose proof (obj_send_box s2 sender recipient message_body urgent _ Hb2) as Hbox.
    pose proof (obj_send_new s2 sender recipient message_body urgent _ Hb2) as Hnew.
    pose proof (obj_search_inbox_eq _ _ message_body _ Hbox) as Hsearch.
    unfold p2, bind.
    rewrite (obj_send_message_eq _ _ _ _ _ _ Hb2) in Hsearch, Hnew |- *.
    cbn [snd] in Hsearch, Hnew. rewrite Hsearch. cbn [fst].
    eexists. split; [done|].
    apply list_elem_of_fmap.
    exists (new (TurtleSentTwo.heap s2)). split; [by rewrite Hnew|].
    apply list_elem_of_filter. split.
    + rewrite Hnew. apply occurs_in_self.
    + destruct urgent; set_solver.
Qed.

Lemma sent_message_is_found_witness :
  let s1 := (TurtleSent.run show_example_sends (TurtleSent.__init__ users).2).2 in
  let s2 := (TurtleSentTwo.run show_example_sends (TurtleSentTwo.__init__ users).2).2 in
  let p1 := (TurtleSent.send_message "Newman" "Mr. Peanutbutter" "Hello." true ;;
             TurtleSent.search_inbox "Mr. Peanutbutter" "Hello.") s1 in
  (TurtleSent.reachable s1 ∧ TurtleSentTwo.reachable s2 ∧
   is_Some (TurtleSent.boxes s1 !! "Mr. Peanutbutter") ∧
   is_Some (TurtleSentTwo.boxes s2 !! "Mr. Peanutbutter")) ∧
  ∃ found, outcome_map (TurtleSent.deref p1.2) p1.1 = Return found ∧
           TurtleSent.mk_details 4 "Hello." "Newman" false ∈ found.
Proof.
  intros s1 s2 p1.
  assert (Hr1 : TurtleSent.reachable s1)
    by apply dict_reachable_run, TurtleSent.reachable_init.
  assert (Hr2 : TurtleSentTwo.reachable s2)
    by apply obj_reachable_run, TurtleSentTwo.reachable_init.
  assert (H1 : is_Some (TurtleSent.boxes s1 !! "Mr. Peanutbutter"))
    by (vm_compute; eauto).
  assert (H2 : is_Some (TurtleSentTwo.boxes s2 !! "Mr. Peanutbutter"))
    by (vm_compute; eauto).
  split; [by split_and!|].
  exact (proj1 (sent_message_is_found s1 s2 "Newman" "Mr. Peanutbutter" "Hello." true
                  Hr1 Hr2 H1 H2)).
Defined.

(** ** The dicts that [turtle_sent.py] hands out are the stored ones *)

(** X13: [search_inbox] of [turtle_sent.py] gives the stored dicts
    themselves, not copies: after a following [read_inbox] of the same user
    without a limit, every dict of the search result reads ['read': True],
    whatever it read when the search gave it back. *)
Theorem search_result_is_live
    (s1 : TurtleSent.PostOffice) (user part_message : string) (n : Z)
    (found : list loc) :
  TurtleSent.reachable s1 →
  n ≤ 0 →
  (TurtleSent.search_inbox user part_message s1).1 = Return found →
  TurtleSent.deref (TurtleSent.read_inbox user n s1).2 found
  = TurtleSent.setitem_read true <$> TurtleSent.deref s1 found.
Proof.
  intros Hr1%dict_reachable_wf Hn Hfound.
  destruct (TurtleSent.boxes s1 !! user) as [box|] eqn:Hb.
  - rewrite (dict_search_inbox_eq _ _ _ _ Hb) in Hfound. injection Hfound as <-.
    unfold TurtleSent.deref. rewrite <- list_fmap_compose.
    apply list_fmap_ext. intros i l [_ Hl]%list_elem_of_lookup_2%list_elem_of_filter.
    pose proof Hr1 as (_ & _ & Hwf).
    destruct (wf_alloc _ _ _ _ Hwf _ _ _ Hb Hl) as [m Hm]. simpl.
    rewrite (lookup_total_correct _ _ _ (dict_read_heap _ _ n _ _ _ Hr1 Hb Hm)).
    rewrite (lookup_total_correct _ _ _ Hm).
    case_decide as Hsel; [done|].
    destruct (TurtleSent.msg_read m) eqn:Hflag; [by destruct m; simplify_eq/=|].
    destruct Hsel. unfold TurtleSent.selected, limit.
    rewrite bool_decide_eq_false_2 by lia.
    apply list_elem_of_filter. split; [|done].
    by rewrite (lookup_total_correct _ _ _ Hm).
  - unfold TurtleSent.search_inbox in Hfound. by rewrite Hb in Hfound.
Qed.

Lemma search_result_is_live_witness :
  let s1 := (TurtleSent.run show_example_sends (TurtleSent.__init__ users).2).2 in
  (TurtleSent.reachable s1 ∧ 0 ≤ 0 ∧
   (TurtleSent.search_inbox "Newman" "llo" s1).1 = Return [1; 2]%positive) ∧
  TurtleSent.deref s1 [1; 2]%positive
  = [ TurtleSent.mk_details 1 "Hello, Newman." "Mr. Peanutbutter" false;
      TurtleSent.mk_details 2 "Hello world, Newman." "Mr. Peanutbutter" false ] ∧
  TurtleSent.deref (TurtleSent.read_inbox "Newman" 0 s1).2 [1; 2]%positive
  = [ TurtleSent.mk_details 1 "Hello, Newman." "Mr. Peanutbutter" true;
      TurtleSent.mk_details 2 "Hello world, Newman." "Mr. Peanutbutter" true ].
Proof.
  intros s1.
  assert (Hr1 : TurtleSent.reachable s1)
    by apply dict_reachable_run, TurtleSent.reachable_init.
  assert (Hn : 0 ≤ 0) by done.
  assert (Hf : (TurtleSent.search_inbox "Newman" "llo" s1).1
               = Return [1; 2]%positive) by (vm_compute; reflexivity).
  split; [by split_and!|]. split; [vm_compute; reflexivity|].
  etransitivity; [exact (search_result_is_live s1 "Newman" "llo" 0 _ Hr1 Hn Hf)|].
  vm_compute. reflexivity.
Defined.
